(** * fs-chatAgent: the indexing pipeline and the result fusion engine

    A shallow embedding of the Python sources under
    [local-agent/src/agent_app]:

    - [chunking.py]            the character window chunker [chunk_text];
    - [graphs/index_graph.py]  the stages [diff], [parse_chunk],
                               [embed_batch], [upsert_vectors] and
                               [commit_run], and their composition;
    - [graphs/query_graph.py]  [retrieve];
    - [embedding.py]           [Embedder.embed_texts];
    - [main.py]                [calculate_relevance_score],
                               [normalize_local_results],
                               [normalize_web_results],
                               [merge_and_rank_results], the entries the
                               two web providers build, the file lists of
                               the index endpoints and the [web_search]
                               endpoint.

    Conventions.  Python [int] is [Z]; Python [float] scores are exact
    rationals ([Q]), so every bound proved here is a bound on the real
    number the float computation approximates; [str] is [string], a
    character being a code point in 0..255; a [dict] used as a table is a
    [gmap]; a [set] is a [gset]; pydantic objects that the code mutates in
    place live in a heap indexed by object identity. *)

From Stdlib Require Import ZArith QArith Qminmax Lqa Lia Bool Ascii String List.
From stdpp Require Import base option list gmap sets strings pretty sorting.

Local Open Scope string_scope.
Local Open Scope list_scope.
Local Open Scope Z_scope.

(* ===================================================================== *)
(** * Python strings *)
(* ===================================================================== *)

Module PyStr.

(** [len(s)] *)
Definition len (s : string) : Z := Z.of_nat (String.length s).

(** [s[i:j]] for indices [0 <= i <= j]; an end past the string is
    clipped, as Python does. *)
Definition slice (s : string) (i j : Z) : string :=
  String.substring (Z.to_nat i) (Z.to_nat (j - i)) s.

(** [s[:k]] for [0 <= k]. *)
Fixpoint prefix_to (k : nat) (s : string) : string :=
  match k, s with
  | O, _ => ""
  | S _, EmptyString => ""
  | S k', String c s' => String c (prefix_to k' s')
  end.

(** [str.isspace] on the code points 0..255: tab to carriage return, the
    four separators 28..31, space, NEL (133) and no-break space (160). *)
Definition is_space (c : ascii) : bool :=
  let k := nat_of_ascii c in
  ((9 <=? k) && (k <=? 13) || (28 <=? k) && (k <=? 32)
   || (k =? 133) || (k =? 160))%nat.

(** [str.lower] on one code point of 0..255: A..Z and the Latin-1 capitals
    (192..222 but the multiplication sign 215) move up by 32. *)
Definition lower_char (c : ascii) : ascii :=
  let k := nat_of_ascii c in
  if ((65 <=? k) && (k <=? 90)
      || (192 <=? k) && (k <=? 222) && negb (k =? 215))%nat
  then ascii_of_nat (k + 32) else c.

(** [s.lower()] *)
Fixpoint lower (s : string) : string :=
  match s with
  | EmptyString => ""
  | String c s' => String (lower_char c) (lower s')
  end.

(** [s.lstrip()] *)
Fixpoint lstrip (s : string) : string :=
  match s with
  | EmptyString => ""
  | String c s' => if is_space c then lstrip s' else s
  end.

(** [s.rstrip()] *)
Fixpoint rstrip (s : string) : string :=
  match s with
  | EmptyString => ""
  | String c s' =>
      match rstrip s' with
      | EmptyString => if is_space c then "" else String c ""
      | r => String c r
      end
  end.

(** [s.strip()] *)
Definition strip (s : string) : string := rstrip (lstrip s).

(** [needle in hay]: [needle] starts at some position of [hay]. *)
Fixpoint contains (needle hay : string) : bool :=
  String.prefix needle hay
  || match hay with
     | EmptyString => false
     | String _ hay' => contains needle hay'
     end.

(** [s.split()]: the maximal runs of non-space characters.  [cur] is the
    run being read. *)
Fixpoint split_ws (cur : string) (s : string) : list string :=
  match s with
  | EmptyString => if decide (cur = "") then [] else [cur]
  | String c s' =>
      if is_space c
      then (if decide (cur = "") then split_ws "" s' else cur :: split_ws "" s')
      else split_ws (cur +:+ String c "") s'
  end.

Definition split (s : string) : list string := split_ws "" s.

(** Splitting at every separator character, empty fields kept: what
    [s.split("/")] and [re.split(r"[|,]", s)] do.  Never empty. *)
Fixpoint split_on (sep : ascii → bool) (cur : string) (s : string) : list string :=
  match s with
  | EmptyString => [cur]
  | String c s' =>
      if sep c then cur :: split_on sep "" s'
      else split_on sep (cur +:+ String c "") s'
  end.

(** [s.count(sub)]: occurrences of [sub] in [s], counted left to right
    without overlap.  [skip] characters are still covered by the
    occurrence found last. *)
Fixpoint count_from (sub : string) (skip : nat) (s : string) : nat :=
  match skip with
  | S skip' =>
      match s with
      | EmptyString => 0
      | String _ s' => count_from sub skip' s'
      end
  | O =>
      match s with
      | EmptyString => if String.prefix sub "" then 1 else 0
      | String _ s' =>
          if String.prefix sub s
          then S (count_from sub (String.length sub - 1) s')
          else count_from sub 0 s'
      end
  end%nat.

Definition count (sub s : string) : nat := count_from sub 0 s.

End PyStr.

(* ===================================================================== *)
(** * chunking.py *)
(* ===================================================================== *)

(** A chunk is the tuple [(start_char, end_char, chunk_text)]. *)
Abbreviation chunk := (Z * Z * string)%type.

Definition chunk_start (c : chunk) : Z := c.1.1.
Definition chunk_end (c : chunk) : Z := c.1.2.
Definition chunk_body (c : chunk) : string := c.2.

(** The [while i < n] loop of [chunk_text].  Rocq needs a bound on the
    number of times the loop test is evaluated; [None] means the bound was
    reached.  A bound of [len(text)] tests is always enough, as proved
    below. *)
Fixpoint chunk_loop (fuel : nat) (text : string) (approx_chars stride : Z)
    (i : Z) (chunks : list chunk) : option (list chunk) :=
  match fuel with
  | O => None
  | S fuel' =>
      let n := PyStr.len text in
      if i <? n then
        let j := Z.min n (i + approx_chars) in
        let chunks := chunks ++ [(i, j, PyStr.slice text i j)] in
        if j =? n then Some chunks
        else chunk_loop fuel' text approx_chars stride
               (i + (if 0 <? stride then stride else approx_chars)) chunks
      else Some chunks
  end.

Definition chunk_text (fuel : nat) (text : string) (target_tokens overlap : Z)
    : option (list chunk) :=
  if decide (text = "") then Some []
  else
    let approx_chars := Z.max 200 (target_tokens * 4) in
    let stride := Z.max 0 (approx_chars - overlap * 4) in
    chunk_loop fuel text approx_chars stride 0 [].

(** The window size and the advance per iteration, as the loop uses them. *)
Definition window (target_tokens : Z) : Z := Z.max 200 (target_tokens * 4).

Definition advance (target_tokens overlap : Z) : Z :=
  let w := window target_tokens in
  if 0 <? Z.max 0 (w - overlap * 4) then Z.max 0 (w - overlap * 4) else w.

(** The list of windows the loop emits from position [i] on: the run of the
    loop unrolled as a relation.  [step] is the advance per iteration. *)
Inductive windows (text : string) (w step : Z) : Z → list chunk → Prop :=
  | windows_exit i :
      PyStr.len text ≤ i → windows text w step i []
  | windows_last i :
      i < PyStr.len text → PyStr.len text ≤ i + w →
      windows text w step i
        [(i, PyStr.len text, PyStr.slice text i (PyStr.len text))]
  | windows_next i rest :
      i < PyStr.len text → i + w < PyStr.len text →
      windows text w step (i + step) rest →
      windows text w step i ((i, i + w, PyStr.slice text i (i + w)) :: rest).

(* ===================================================================== *)
(** * graphs/index_graph.py *)
(* ===================================================================== *)

(** One discovered file: the dict [discover] builds per file. *)
Record FileRecord := mkFileRecord {
  path : string;
  bytes : Z;
  mtime_ns : Z;
  sha256 : string;
  mime : string;
  ext : string;
}.

Global Instance FileRecord_eq_dec : EqDecision FileRecord.
Proof. solve_decision. Defined.

(** One entry of [s["chunks"]]. *)
Record ChunkRec := mkChunkRec {
  chunk_file : FileRecord;
  chunk_idx : Z;
  char_start : Z;
  char_end : Z;
  chunk_text_of : string;
}.

(** The run state [IndexState].  A key the stages read through
    [s.get(key, default)] is held at its default while absent: [[]] for the
    lists, [false] for [force_reembed], the empty map for [stats]; [mode]
    and [model] keep the distinction. *)
Record IndexState := mkIndexState {
  mode : option string;
  roots : list string;
  model : option string;
  force_reembed : bool;
  files : list FileRecord;
  changed : list FileRecord;
  chunks : list ChunkRec;
  embeddings : list (list Q);
  stats : gmap string Z;
  errors : list string;
}.

Definition set_changed (v : list FileRecord) (s : IndexState) : IndexState :=
  mkIndexState (mode s) (roots s) (model s) (force_reembed s) (files s) v
    (chunks s) (embeddings s) (stats s) (errors s).

Definition set_chunks (v : list ChunkRec) (s : IndexState) : IndexState :=
  mkIndexState (mode s) (roots s) (model s) (force_reembed s) (files s)
    (changed s) v (embeddings s) (stats s) (errors s).

Definition set_embeddings (v : list (list Q)) (s : IndexState) : IndexState :=
  mkIndexState (mode s) (roots s) (model s) (force_reembed s) (files s)
    (changed s) (chunks s) v (stats s) (errors s).

(** [s.setdefault("stats", {})[key] = v] *)
Definition set_stat (key : string) (v : Z) (s : IndexState) : IndexState :=
  mkIndexState (mode s) (roots s) (model s) (force_reembed s) (files s)
    (changed s) (chunks s) (embeddings s) (<[key := v]> (stats s)) (errors s).

Definition set_errors (v : list string) (s : IndexState) : IndexState :=
  mkIndexState (mode s) (roots s) (model s) (force_reembed s) (files s)
    (changed s) (chunks s) (embeddings s) (stats s) v.

(** [s.setdefault("errors", []).append(e)] *)
Definition add_error (e : string) (s : IndexState) : IndexState :=
  set_errors (errors s ++ [e]) s.

(** A row of the [files] table of [db.py]; the primary key [path] is the
    key of the map holding the table. *)
Record FileRow := mkFileRow {
  row_bytes : Z;
  row_mtime_ns : Z;
  row_sha256 : string;
  row_mime : string;
  row_last_indexed_at : string;
}.

Abbreviation files_table := (gmap string FileRow).

(** [diff]: the change detector.  [known] is the dict built from
    [SELECT path, sha256 FROM files]. *)
Definition is_changed (mode : string) (known : gmap string string)
    (f : FileRecord) : bool :=
  bool_decide (mode = "full")
  || bool_decide (known !! path f = None)
  || negb (bool_decide (known !! path f = Some (sha256 f))).

Definition diff (db : files_table) (s : IndexState) : IndexState :=
  if force_reembed s then
    let s := set_changed (files s) s in
    set_stat "changed" (Z.of_nat (length (changed s))) s
  else
    let mode := default "incremental" (mode s) in
    let known := row_sha256 <$> db in
    let changed :=
      foldl (λ changed f, if is_changed mode known f then changed ++ [f] else changed)
            [] (files s) in
    let s := set_changed changed s in
    set_stat "changed" (Z.of_nat (length changed)) s.

(** The first loop of [parse_chunk]: read every changed file, record a
    soft error for an empty one, keep the others with their text.
    [read_text_str] is the reader of [readers.py] on the file system of the
    run; it and the [except] around the call both give [""] on failure. *)
Definition parse_files (read_text_str : string → string) (s : IndexState)
    : list (FileRecord * string) * IndexState :=
  foldl (λ '(texts, s) f,
           let data := read_text_str (path f) in
           if decide (data = "") then (texts, add_error ("parse-empty:" +:+ path f) s)
           else (texts ++ [(f, data)], s))
        ([], s) (changed s).

(** [enumerate(spans)] turned into chunk records of file [f]. *)
Definition chunk_records (f : FileRecord) (spans : list chunk) : list ChunkRec :=
  imap (λ idx '(cstart, cend, body), mkChunkRec f (Z.of_nat idx) cstart cend body) spans.

(** The second loop of [parse_chunk].  [None] only if a [chunk_text] call
    exhausts its budget, which does not happen with the budget [len(text)]
    used here. *)
Fixpoint chunk_files (texts : list (FileRecord * string)) (acc : list ChunkRec)
    : option (list ChunkRec) :=
  match texts with
  | [] => Some acc
  | (f, data) :: texts' =>
      spans ← chunk_text (String.length data) data 800 80;
      chunk_files texts' (acc ++ chunk_records f spans)
  end.

Definition parse_chunk (read_text_str : string → string) (s : IndexState)
    : option IndexState :=
  let '(texts, s) := parse_files read_text_str s in
  chunks ← chunk_files texts [];
  let s := set_chunks chunks s in
  Some (set_stat "chunks" (Z.of_nat (length (chunks))) s).

(** Metadata stored with a vector. *)
Record VectorMeta := mkVectorMeta {
  meta_path : string;
  meta_sha256 : string;
  meta_chunk_idx : Z;
  meta_mime : string;
  meta_ext : string;
  meta_mtime_ns : Z;
  meta_embedding_model : string;
}.

(** The collection of the vector store: id to (document, metadata,
    embedding). *)
Abbreviation collection := (gmap string (string * VectorMeta * list Q)).

(** [col.upsert(ids, documents, metadatas, embeddings)].  The store is an
    external service; this is the in-repository stand-in
    [_DummyCollection.upsert] of [tests/conftest.py]: entry [i] of the four
    arrays is written under [ids[i]], replacing what was there; a missing
    or empty [embeddings] is a list of zero vectors; [None] is the
    [IndexError] of an array shorter than [ids]. *)
Fixpoint col_upsert_from (i : nat) (ids : list string) (documents : list string)
    (metadatas : list VectorMeta) (embs : list (list Q)) (store : collection)
    : option collection :=
  match ids with
  | [] => Some store
  | vid :: ids' =>
      d ← documents !! i;
      m ← metadatas !! i;
      e ← embs !! i;
      col_upsert_from (S i) ids' documents metadatas embs (<[vid := (d, m, e)]> store)
  end.

Definition col_upsert (ids : list string) (documents : list string)
    (metadatas : list VectorMeta) (embs : list (list Q)) (store : collection)
    : option collection :=
  let embs :=
    match embs with
    | [] => (λ _, [0%Q; 0%Q; 0%Q; 0%Q]) <$> documents
    | _ => embs
    end in
  col_upsert_from 0 ids documents metadatas embs store.

(** [f"{f['sha256']}:{c['chunk_idx']}"] *)
Definition vector_id (c : ChunkRec) : string :=
  sha256 (chunk_file c) +:+ ":" +:+ pretty (chunk_idx c).

Definition vector_meta (default_model : string) (s : IndexState) (c : ChunkRec)
    : VectorMeta :=
  let f := chunk_file c in
  mkVectorMeta (path f) (sha256 f) (chunk_idx c) (mime f) (ext f) (mtime_ns f)
    (match model s with
     | Some m => if decide (m = "") then default_model else m
     | None => default_model
     end).

(** The ids [upsert_vectors] hands to the store, one per chunk. *)
Definition upsert_ids (s : IndexState) : list string := vector_id <$> chunks s.

(** [upsert_vectors]; [default_model] is [SETTINGS.embedding_model]. *)
Definition upsert_vectors (default_model : string) (col : collection)
    (s : IndexState) : option (collection * IndexState) :=
  let ids := upsert_ids s in
  let docs := chunk_text_of <$> chunks s in
  let metas := vector_meta default_model s <$> chunks s in
  col' ← (match ids with
          | [] => Some col
          | _ => col_upsert ids docs metas (embeddings s) col
          end);
  Some (col', set_stat "upserted" (Z.of_nat (length ids)) s).

(** The row [commit_run] writes for file [f] at time [now]. *)
Definition file_row (now : string) (f : FileRecord) : FileRow :=
  mkFileRow (bytes f) (mtime_ns f) (sha256 f) (mime f) now.

(** [commit_run]: one [INSERT ... ON CONFLICT(path) DO UPDATE] per changed
    file, in order.  [now] is [datetime.utcnow().isoformat()]. *)
Definition commit_run (now : string) (db : files_table) (s : IndexState)
    : files_table * IndexState :=
  (foldl (λ db f, <[path f := file_row now f]> db) db (changed s), s).

(** Writing a list of key/value pairs into a table, in order: what a
    loop of insert-or-update statements does. *)
Definition insert_all {V} (kvs : list (string * V)) (m : gmap string V)
    : gmap string V :=
  foldl (λ m kv, <[kv.1 := kv.2]> m) m kvs.

(** The spans of a text under the pipeline's fixed parameters. *)
Definition spans (data : string) : list chunk :=
  default [] (chunk_text (String.length data) data 800 80).

(** The soft error recorded for a file without text. *)
Definition parse_empty (f : FileRecord) : string := "parse-empty:" +:+ path f.

(** A changed file whose reader gives some text. *)
Definition has_text (read_text_str : string → string) (f : FileRecord) : Prop :=
  read_text_str (path f) ≠ "".

Global Instance has_text_dec rd f : Decision (has_text rd f).
Proof. unfold has_text. apply _. Defined.

(** The chunk records of a run: the spans of every changed file that has
    text, file after file. *)
Definition parsed_chunks (read_text_str : string → string) (s : IndexState)
    : list ChunkRec :=
  flat_map (λ f, chunk_records f (spans (read_text_str (path f))))
           (filter (has_text read_text_str) (changed s)).

(** The vector ids of one file, from its fingerprint and its text alone:
    ["<fingerprint>:<k>"] for every chunk position [k]. *)
Definition file_ids (fingerprint data : string) : list string :=
  (λ k : nat, fingerprint +:+ ":" +:+ pretty (Z.of_nat k))
    <$> seq 0 (length (spans data)).

(** Two discovered files with the same bytes: same fingerprint, same
    extracted text. *)
Definition same_content (rd1 rd2 : string → string) (f1 f2 : FileRecord) : Prop :=
  sha256 f1 = sha256 f2 ∧ rd1 (path f1) = rd2 (path f2).

(* ===================================================================== *)
(** * main.py: relevance scoring *)
(* ===================================================================== *)

(** True division [a / b] of two Python ints; [None] is
    [ZeroDivisionError]. *)
Definition py_div (a b : Z) : option Q :=
  match b with
  | Z0 => None
  | Zpos p => Some (a # p)
  | Zneg p => Some (- a # p)
  end.

(** [min(x, 1.0)] *)
Definition cap1 (x : Q) : Q := Qmin x 1.

(** [term_freq_score]: the sum over the query terms of their occurrence
    counts in [combined]. *)
Definition term_freq (query_terms : gset string) (combined : string) : nat :=
  foldr (λ term acc, PyStr.count term combined + acc)%nat 0%nat
        (elements query_terms).

(** [calculate_relevance_score].  [ratio a b] stands for
    [difflib.SequenceMatcher(None, a, b).ratio()], a function of the Python
    library.  [None] is the [ZeroDivisionError] the unguarded division can
    raise. *)
Definition calculate_relevance_score (ratio : string → string → Q)
    (query text title : string) : option Q :=
  let query_lower := PyStr.strip (PyStr.lower query) in
  let text_lower := PyStr.strip (PyStr.lower text) in
  let title_lower := PyStr.strip (PyStr.lower title) in
  let combined := title_lower +:+ " " +:+ text_lower in
  if PyStr.contains query_lower title_lower then Some 1%Q
  else if PyStr.contains query_lower text_lower then Some (95 # 100)
  else
    let query_terms : gset string := list_to_set (PyStr.split query_lower) in
    let combined_terms : gset string := list_to_set (PyStr.split combined) in
    let term_coverage :=
      if (0 <? size query_terms)%nat
      then (Z.of_nat (size (query_terms ∩ combined_terms))
              # Pos.of_nat (size query_terms))
      else 0%Q in
    tf ← py_div (Z.of_nat (term_freq query_terms combined))
                (Z.of_nat (size query_terms) * 3);
    let term_freq_score := cap1 tf in
    let sequence_sim := ratio query_lower (PyStr.prefix_to 1000 combined) in
    let combined_score :=
      (term_coverage * (5 # 10) + term_freq_score * (3 # 10)
       + sequence_sim * (2 # 10))%Q in
    Some (cap1 combined_score).

(* ===================================================================== *)
(** * main.py: unified results *)
(* ===================================================================== *)

(** Values of the [metadata] bag. *)
Inductive PyVal :=
  | PyNone
  | PyStr (s : string)
  | PyNum (q : Q).

(** [UnifiedResult] *)
Record UnifiedResult := mkUnifiedResult {
  source : string;
  title : string;
  content : string;
  url : option string;
  score : Q;
  metadata : gmap string PyVal;
}.

Global Instance UnifiedResult_inhabited : Inhabited UnifiedResult :=
  populate (mkUnifiedResult "" "" "" None 0 ∅).

(** [r.score = v] *)
Definition set_score (v : Q) (r : UnifiedResult) : UnifiedResult :=
  mkUnifiedResult (source r) (title r) (content r) (url r) v (metadata r).

(** The [meta] dict of a hit: the metadata of the stored vector.  The
    keys are read through [get(key)], where an absent key and a key
    holding [None] give the same value; [hm_path] keeps them apart ([None]
    and [Some None]), since the normalizer reads it with a default. *)
Record HitMeta := mkHitMeta {
  hm_path : option (option string);
  hm_source : option string;
  hm_chunk_id : option string;
  hm_file_type : option string;
}.

(** A local hit, the dict [retrieve] builds.  [hit_text], [hit_path],
    [hit_chunk_id] and [hit_file_type] are [None] when the key is absent
    or holds [None]: the code reads them as first operand of [or], or
    through [get(key)], where the two cases give the same value.
    [hit_content], [hit_meta] and [hit_score] keep apart the absent key
    ([None]), the key holding [None] ([Some None]) and a value, since
    [get(key, default)] hands a stored [None] on. *)
Record Hit := mkHit {
  hit_text : option string;
  hit_content : option (option string);
  hit_path : option string;
  hit_meta : option (option HitMeta);
  hit_score : option (option Q);
  hit_chunk_id : option string;
  hit_file_type : option string;
}.

(** [a or b] on strings read with default [""]. *)
Definition str_or (a b : option string) : string :=
  match a with
  | Some s => if decide (s = "") then default "" b else s
  | None => default "" b
  end.

Definition opt_val (o : option string) : PyVal :=
  match o with Some s => PyStr s | None => PyNone end.

(** A string as a condition: [None] and [""] are false. *)
Definition truthy_str (o : option string) : option string :=
  match o with
  | Some s => if decide (s = "") then None else Some s
  | None => None
  end.

(** [d.get(k, "") or e.get(k', "")]: a first operand that is absent,
    [None] or empty gives way to the second, which is handed on as it is:
    [""] for an absent key, and [None] (here [None]) for a key holding
    [None]. *)
Definition get_or (a : option string) (b : option (option string))
    : option string :=
  match a with
  | Some s => if decide (s = "") then default (Some "") b else Some s
  | None => default (Some "") b
  end.

(** [hit.get("text", "") or hit.get("content", "")]; [None] is the value
    [None]. *)
Definition hit_body (hit : Hit) : option string :=
  get_or (hit_text hit) (hit_content hit).

(** [hit.get("meta", {})]; [None] is the value [None], on which the
    [.get] that follows raises. *)
Definition hit_meta_dict (hit : Hit) : option HitMeta :=
  default (Some (mkHitMeta None None None None)) (hit_meta hit).

(** [hit.get("path", "") or hit.get("meta", {}).get("path", "")].  The
    [meta] is read only when the first operand is false; the outer [None]
    is the exception of reading a [meta] that is [None], the inner one the
    value [None]. *)
Definition hit_path_value (hit : Hit) : option (option string) :=
  match truthy_str (hit_path hit) with
  | Some p => Some (Some p)
  | None => meta ← hit_meta_dict hit; Some (default (Some "") (hm_path meta))
  end.

(** [hit.get("file_type") or hit.get("meta", {}).get("file_type")], with
    the same two levels. *)
Definition hit_file_type_value (hit : Hit) : option (option string) :=
  match truthy_str (hit_file_type hit) with
  | Some t => Some (Some t)
  | None => meta ← hit_meta_dict hit; Some (hm_file_type meta)
  end.

(** The path where the code tests it ([if path]) and splices it into a
    string under that test: [None] and [""] both count as no path. *)
Definition hit_file_path (hit : Hit) : string :=
  default "" (default None (hit_path_value hit)).

(** [path.split("/")[-1] if path else "Local Document"] *)
Definition hit_file_name (hit : Hit) : string :=
  let path := hit_file_path hit in
  if decide (path = "") then "Local Document"
  else default "" (last (PyStr.split_on (λ c, bool_decide (c = "/"%char)) "" path)).

(** [hit.get("score", 0)] *)
Definition original_score (hit : Hit) : option Q := default (Some 0%Q) (hit_score hit).

(** [original_score and original_score < 0.5] *)
Definition boosted (hit : Hit) : bool :=
  match original_score hit with
  | Some d => negb (Qeq_bool d 0) && negb (Qle_bool (1 # 2) d)
  | None => false
  end.

(** The body of the loop of [normalize_local_results].  [None] is an
    exception: of reading a [meta] that is [None], or of the scorer, whose
    [text.lower()] raises on a content that is [None]. *)
Definition normalize_local_hit (ratio : string → string → Q) (query : string)
    (hit : Hit) : option UnifiedResult :=
  path_value ← hit_path_value hit;
  let path := hit_file_path hit in
  let file_name := hit_file_name hit in
  content ← hit_body hit;
  relevance ← calculate_relevance_score ratio query content file_name;
  let original_score := original_score hit in
  let relevance := if boosted hit then (relevance * (12 # 10))%Q else relevance in
  file_type ← hit_file_type_value hit;
  Some (mkUnifiedResult "local" file_name (PyStr.prefix_to 500 content)
          (if decide (path = "") then None else Some ("file://" +:+ path))
          (cap1 relevance)
          (<["path" := opt_val path_value]>
           (<["original_score" := from_option PyNum PyNone original_score]>
            (<["chunk_id" := opt_val (hit_chunk_id hit)]>
             (<["file_type" := opt_val file_type]>
              (<["full_text" := PyStr content]> ∅)))))).

Definition normalize_local_results (ratio : string → string → Q)
    (hits : list Hit) (query : string) : option (list UnifiedResult) :=
  mapM (normalize_local_hit ratio query) hits.

(* ===================================================================== *)
(** * main.py: merging and ranking *)
(* ===================================================================== *)

(** The [UnifiedResult] objects live in a heap; a Python list of results is
    a list of references into it, so that a result reached from two lists,
    or twice from one, is one object. *)
Abbreviation loc := nat.
Abbreviation heap := (gmap loc UnifiedResult).

(** [r.score = min(r.score * 1.3, 1.0)] on the object at [r]. *)
Definition boost_at (h : heap) (r : loc) : heap :=
  alter (λ u, set_score (Qmin (score u * (13 # 10)) 1) u) r h.

(** [for r in results: r.score = min(r.score * 1.3, 1.0)] *)
Definition boost_all (h : heap) (results : list loc) : heap :=
  foldl boost_at h results.

(** [l[:k]] for any int [k]: a negative [k] counts from the end. *)
Definition py_take {A} (k : Z) (l : list A) : list A :=
  if k <? 0 then take (length l - Z.to_nat (- k)) l
  else take (Z.to_nat k) l.

(** The loop of the ["interleaved"] strategy. *)
Definition interleave (local_results web_results : list loc) : list loc :=
  let max_len := Nat.max (length local_results) (length web_results) in
  foldl (λ merged i,
           let merged := match local_results !! i with
                         | Some r => merged ++ [r]
                         | None => merged
                         end in
           match web_results !! i with
           | Some r => merged ++ [r]
           | None => merged
           end)
        [] (seq 0 max_len).

(** [sorted(results, key=lambda x: x.score, reverse=True)]: the stable
    sort by descending score.  [insert_desc] puts a result before the first
    one that does not score higher, so results of equal score keep their
    order. *)
Fixpoint insert_desc (h : heap) (r : loc) (sorted : list loc) : list loc :=
  match sorted with
  | [] => [r]
  | r' :: rest =>
      if Qle_bool (score (h !!! r')) (score (h !!! r)) then r :: sorted
      else r' :: insert_desc h r rest
  end.

Definition sort_desc (h : heap) (results : list loc) : list loc :=
  foldr (insert_desc h) [] results.

(** [result.content[:200].lower().strip()] *)
Definition content_fp (u : UnifiedResult) : string :=
  PyStr.strip (PyStr.lower (PyStr.prefix_to 200 (content u))).

(** [result.url] when it is neither [None] nor empty. *)
Definition truthy_url (u : UnifiedResult) : option string :=
  match url u with
  | Some link => if decide (link = "") then None else Some link
  | None => None
  end.

(** The deduplication loop over the sorted results. *)
Fixpoint dedup_loop (h : heap) (max_results : Z) (results : list loc)
    (unique_results : list loc) (seen_urls seen_content_fingerprints : gset string)
    : list loc :=
  match results with
  | [] => unique_results
  | r :: rest =>
      let result := h !!! r in
      if match truthy_url result with
         | Some link => bool_decide (link ∈ seen_urls)
         | None => false
         end
      then dedup_loop h max_results rest unique_results seen_urls
             seen_content_fingerprints
      else
        let fp := content_fp result in
        if bool_decide (fp ∈ seen_content_fingerprints)
        then dedup_loop h max_results rest unique_results seen_urls
               seen_content_fingerprints
        else
          let unique_results := unique_results ++ [r] in
          let seen_urls :=
            match truthy_url result with
            | Some link => {[link]} ∪ seen_urls
            | None => seen_urls
            end in
          let seen_content_fingerprints :=
            if decide (fp = "") then seen_content_fingerprints
            else {[fp]} ∪ seen_content_fingerprints in
          if Z.of_nat (length unique_results) >=? max_results
          then unique_results
          else dedup_loop h max_results rest unique_results seen_urls
                 seen_content_fingerprints
  end.

(** The part of [merge_and_rank_results] after the strategy adjustments:
    concatenate, sort, deduplicate, sort again, truncate. *)
Definition rank_unique (h : heap) (local_results web_results : list loc)
    (max_results : Z) : list loc :=
  let all_results := local_results ++ web_results in
  let unique_results :=
    dedup_loop h max_results (sort_desc h all_results) [] ∅ ∅ in
  py_take max_results (sort_desc h unique_results).

(** [merge_and_rank_results]: the heap after the call and the list
    returned. *)
Definition merge_and_rank_results (h : heap) (local_results web_results : list loc)
    (strategy : string) (max_results : Z) : heap * list loc :=
  if decide (strategy = "local_first") then
    let h := boost_all h local_results in
    (h, rank_unique h local_results web_results max_results)
  else if decide (strategy = "web_first") then
    let h := boost_all h web_results in
    (h, rank_unique h local_results web_results max_results)
  else if decide (strategy = "interleaved") then
    (h, py_take max_results (interleave local_results web_results))
  else
    (h, rank_unique h local_results web_results max_results).

(** How many results of a list carry the link [link]. *)
Definition url_count (h : heap) (link : string) (results : list loc) : nat :=
  length (filter (λ r, url (h !!! r) = Some link) results).

(** [min(score * 1.3, 1.0)] written into a result. *)
Definition reweight (u : UnifiedResult) : UnifiedResult :=
  set_score (Qmin (score u * (13 # 10)) 1) u.

(* ===================================================================== *)
(** * main.py: the web search endpoint *)
(* ===================================================================== *)

(** One provider result, the dict [_exa_search] and [_serper_search]
    build. *)
Record WebResult := mkWebResult {
  wr_title : string;
  wr_url : string;
  wr_snippet : string;
  wr_source : string;
}.

(** What a provider call does: raise, or return its results. *)
Inductive outcome :=
  | Raised (msg : string)
  | Returned (results : list WebResult).

(** Values of the JSON object the endpoint returns. *)
Inductive JsonVal :=
  | JNull
  | JStr (s : string)
  | JResults (results : list WebResult).

(** [[e.strip() for e in re.split(r"[|,]", engine) if e.strip()]] *)
Definition parse_engines (engine : string) : list string :=
  filter (λ e, e ≠ "")
    (PyStr.strip <$>
       PyStr.split_on (λ c, bool_decide (c = "|"%char) || bool_decide (c = ","%char))
         "" engine).

(** The [for eng in engines] loop: the value of [results] when it ends.
    A call that raises is logged and the next engine is tried; the first
    call that returns ends the loop, as does a name that is neither
    ["exa"] nor ["serper"]. *)
Fixpoint try_engines (exa serper : outcome) (engines : list string)
    : list WebResult :=
  match engines with
  | [] => []
  | eng :: rest =>
      if decide (eng = "exa") then
        match exa with
        | Returned results => results
        | Raised _ => try_engines exa serper rest
        end
      else if decide (eng = "serper") then
        match serper with
        | Returned results => results
        | Raised _ => try_engines exa serper rest
        end
      else []
  end.

(** [web_search].  The two providers are the network calls
    [_exa_search(qtxt, top_n, data)] and [_serper_search(qtxt, top_n)].
    [inl 422] is the answer to a [top_n] outside the bounds the signature
    declares ([Query(3, ge=1, le=10)]), given before the body runs;
    [inl 400] is the [HTTPException] for a missing query.  The
    [ensure_user] bookkeeping does not reach the response and is left
    out. *)
Definition web_search
    (_exa_search : string → Z → bool → outcome)
    (_serper_search : string → Z → outcome)
    (engine : string) (q query : option string) (data : bool) (top_n : Z)
    : Z + gmap string JsonVal :=
  let qtxt := PyStr.strip (str_or q query) in
  if negb ((1 <=? top_n) && (top_n <=? 10)) then inl 422
  else if decide (qtxt = "") then inl 400
  else
    let engines := parse_engines engine in
    let results :=
      try_engines (_exa_search qtxt top_n data) (_serper_search qtxt top_n) engines in
    inr (<["engine" := match results with
                       | [] => JNull
                       | _ => from_option JStr JNull (head engines)
                       end]>
         (<["q" := JStr qtxt]>
          (<["results" := JResults results]> ∅))).

(* ===================================================================== *)
(** * graphs/index_graph.py: embedding and the whole run *)
(* ===================================================================== *)

(** [[texts[i:i+B] for i in range(0, len(texts), B)]]: the slices handed to
    the provider, one call each. *)
Definition batches {A} (B : nat) (texts : list A) : list (list A) :=
  (λ k, take B (drop (k * B) texts))
    <$> seq 0 ((length texts + B - 1) / B)%nat.

(** [Embedder.embed_texts]: nothing is sent for an empty list.  [provider]
    is the embeddings call of the OpenAI client; [None] is an exception of
    that call. *)
Definition embed_texts (provider : list string → option (list (list Q)))
    (texts : list string) : option (list (list Q)) :=
  match texts with
  | [] => Some []
  | _ => provider texts
  end.

(** [embed_batch].  [openai_api_key] is [SETTINGS.openai_api_key]; the
    [Embedder] constructor raises without it, but is reached only when
    there are chunks. *)
Definition embed_batch (openai_api_key : option string)
    (provider : list string → option (list (list Q))) (s : IndexState)
    : option IndexState :=
  match chunks s with
  | [] => Some (set_embeddings [] s)
  | _ =>
      if decide (default "" openai_api_key = "") then None
      else
        let texts := chunk_text_of <$> chunks s in
        vecs ← mapM (embed_texts provider) (batches 64 texts);
        Some (set_embeddings (concat vecs) s)
  end.

(** The stages of [build_graph] that follow [discover], in the order of the
    graph's edges: diff, parse_chunk, embed_batch, upsert_vectors,
    commit_run.  The state [s] holds what [discover] found in [files];
    [None] is a run aborted by an exception, which leaves table and store
    as the caller had them up to the failing stage (the table is written
    last). *)
Definition index_run (read_text_str : string → string)
    (openai_api_key : option string)
    (provider : list string → option (list (list Q)))
    (default_model now : string)
    (db : files_table) (col : collection) (s : IndexState)
    : option (files_table * collection * IndexState) :=
  let s := diff db s in
  s ← parse_chunk read_text_str s;
  s ← embed_batch openai_api_key provider s;
  '(col, s) ← upsert_vectors default_model col s;
  let '(db, s) := commit_run now db s in
  Some (db, col, s).

(** [sorted({f.get("path") for f in files if f.get("path")})] *)
Definition path_set (l : list FileRecord) : gset string :=
  list_to_set (filter (λ p, p ≠ "") (path <$> l)).

Definition sorted_paths (X : gset string) : list string :=
  merge_sort String.le (elements X).

(** The file lists of the response of [index_full] and
    [index_incremental], from the final state of the run. *)
Definition scanned_files (result : IndexState) : list string :=
  sorted_paths (path_set (files result)).

Definition changed_files (result : IndexState) : list string :=
  sorted_paths (path_set (changed result)).

Definition unchanged_files (result : IndexState) : list string :=
  sorted_paths (list_to_set (scanned_files result) ∖ list_to_set (changed_files result)).

(** The initial state [index_full] builds, with the files [discover] finds
    under the roots. *)
Definition full_state (roots : list string) (model : option string)
    (found : list FileRecord) : IndexState :=
  mkIndexState (Some "full") roots model true found [] [] [] ∅ [].

(** The initial state [index_incremental] builds. *)
Definition incremental_state (roots : list string) (model : option string)
    (force_reembed : bool) (found : list FileRecord) : IndexState :=
  mkIndexState (Some "incremental") roots model force_reembed found [] [] [] ∅ [].

(** A string without the separator [":"] of the vector ids. *)
Fixpoint no_colon (s : string) : Prop :=
  match s with
  | EmptyString => True
  | String c s' => c ≠ ":"%char ∧ no_colon s'
  end.

(** The embeddings the stand-in store writes: zero vectors when none are
    given. *)
Definition stored_embeddings (s : IndexState) : list (list Q) :=
  match embeddings s with
  | [] => (λ _, [0%Q; 0%Q; 0%Q; 0%Q]) <$> chunks s
  | embs => embs
  end.

(* ===================================================================== *)
(** * main.py: web normalization *)
(* ===================================================================== *)

(** A web result as [normalize_web_results] reads it.  [raw_title] is
    [result.get("title", "")]: [None] when the key holds [None].
    [raw_snippet] is [None] when the key is absent or holds [None];
    [raw_text] keeps apart the absent key ([None]), the key holding [None]
    ([Some None]) and a text. *)
Record RawWeb := mkRawWeb {
  raw_title : option string;
  raw_url : option string;
  raw_snippet : option string;
  raw_text : option (option string);
  raw_published : option string;
  raw_source : option string;
}.

(** [result.get("snippet", "") or result.get("text", "")]; [None] is the
    value [None]. *)
Definition raw_body (r : RawWeb) : option string :=
  match raw_snippet r with
  | Some s => if decide (s = "") then default (Some "") (raw_text r) else Some s
  | None => default (Some "") (raw_text r)
  end.

(** [max(0.5, 1.0 - idx * 0.08)] *)
Definition position_score (idx : nat) : Q :=
  Qmax (1 # 2) (1 - inject_Z (Z.of_nat idx) * (8 # 100)).

(** The body of the loop of [normalize_web_results] at rank [idx].  The
    relevance scorer calls [.lower()] on snippet and title, which raises
    on [None]. *)
Definition normalize_web_hit (ratio : string → string → Q) (query : string)
    (idx : nat) (r : RawWeb) : option UnifiedResult :=
  snippet ← raw_body r;
  title ← raw_title r;
  content_score ← calculate_relevance_score ratio query snippet title;
  let final_score := (position_score idx * (4 # 10) + content_score * (6 # 10))%Q in
  Some (mkUnifiedResult "web" title (PyStr.prefix_to 500 snippet) (raw_url r)
          final_score
          (<["published_date" := opt_val (raw_published r)]>
           (<["search_engine" := opt_val (raw_source r)]>
            (<["position" := PyNum (inject_Z (Z.of_nat idx + 1))]>
             (<["full_text" := match raw_text r with
                               | Some (Some t) => PyStr t
                               | _ => PyNone
                               end]> ∅))))).

Fixpoint normalize_web_from (ratio : string → string → Q) (query : string)
    (idx : nat) (results : list RawWeb) : option (list UnifiedResult) :=
  match results with
  | [] => Some []
  | r :: rest =>
      u ← normalize_web_hit ratio query idx r;
      us ← normalize_web_from ratio query (S idx) rest;
      Some (u :: us)
  end.

Definition normalize_web_results (ratio : string → string → Q)
    (results : list RawWeb) (query : string) : option (list UnifiedResult) :=
  normalize_web_from ratio query 0 results.

(** The entry [_exa_search] builds from one item of the provider's
    answer: [snippet] is [text or description], [text] is kept only when
    asked for. *)
Record ExaItem := mkExaItem {
  exa_title : option string;
  exa_url : option string;
  exa_text : option string;
  exa_description : option string;
  exa_published : option string;
}.

Definition exa_result (include_text : bool) (it : ExaItem) : RawWeb :=
  mkRawWeb (exa_title it) (exa_url it)
    (match truthy_str (exa_text it) with
     | Some t => Some t
     | None => exa_description it
     end)
    (Some (if include_text then exa_text it else None))
    (exa_published it) (Some "exa").

(* ===================================================================== *)
(** * main.py: helpers for the properties of merging *)
(* ===================================================================== *)

(** Taking turns, structurally: first of one, first of the other, and so
    on; what is left of the longer list follows. *)
Fixpoint alternate {A} (l w : list A) : list A :=
  match l, w with
  | [], _ => w
  | _, [] => l
  | x :: l', y :: w' => x :: y :: alternate l' w'
  end.

(** How many results of a list have the content fingerprint [fp]. *)
Definition fp_count (h : heap) (fp : string) (results : list loc) : nat :=
  length (filter (λ r, content_fp (h !!! r) = fp) results).

(** [r] is in [out], or [out] holds a result with the same non-empty link
    or the same content fingerprint. *)
Definition represented (h : heap) (out : list loc) (r : loc) : Prop :=
  r ∈ out ∨
  ∃ r', r' ∈ out ∧
        ((∃ link, truthy_url (h !!! r) = Some link ∧ truthy_url (h !!! r') = Some link)
         ∨ content_fp (h !!! r') = content_fp (h !!! r)).

(** Two results equal but for their score. *)
Definition same_but_score (u u' : UnifiedResult) : Prop :=
  source u' = source u ∧ title u' = title u ∧ content u' = content u ∧
  url u' = url u ∧ metadata u' = metadata u.

(* ===================================================================== *)
(** * graphs/query_graph.py *)
(* ===================================================================== *)

(** The answer of [col.query]: one inner list per query embedding. *)
Record StoreAnswer := mkStoreAnswer {
  ans_documents : list (list string);
  ans_metadatas : list (list HitMeta);
  ans_distances : list (list Q);
  ans_ids : list (list string);
}.

(** [(res.get(key) or [[]])[0]] *)
Definition first_or_nil {A} (xs : list (list A)) : list A :=
  match xs with
  | [] => []
  | x :: _ => x
  end.

(** The keys of [QueryState] that [retrieve] reads. *)
Record QueryState := mkQueryState {
  qs_query : option string;
  qs_top_k : option Z;
  qs_filters : option (gmap string PyVal);
  qs_model : option string;
}.

(** [int(s.get("top_k", 10) or 10)] *)
Definition query_top_k (s : QueryState) : Z :=
  match qs_top_k s with
  | Some k => if decide (k = 0) then 10 else k
  | None => 10
  end.

(** [raw_filters if len(raw_filters) > 0 else None] *)
Definition where_filter (s : QueryState) : option (gmap string PyVal) :=
  match qs_filters s with
  | Some f => if decide (f = ∅) then None else Some f
  | None => None
  end.

(** The hit built for document [i]: its id and the dict [normalize_local_results]
    later reads. *)
Definition make_hit (metas : list HitMeta) (dists : list Q) (ids : list string)
    (i : nat) (text : string) : option string * Hit :=
  let meta := default (mkHitMeta None None None None) (metas !! i) in
  (ids !! i,
   mkHit (Some text) None
     (match truthy_str (default None (hm_path meta)) with
      | Some p => Some p
      | None => hm_source meta
      end)
     (Some (Some meta))
     (Some (dists !! i))
     (hm_chunk_id meta) (hm_file_type meta)).

(** [retrieve].  [openai_api_key] and [provider] are as in [embed_batch];
    [query_store qvec n_results where] is [col.query]; [None] is an
    exception. *)
Definition retrieve (openai_api_key : option string)
    (provider : list string → option (list (list Q)))
    (query_store : list Q → Z → option (gmap string PyVal) → option StoreAnswer)
    (s : QueryState) : option (list (option string * Hit)) :=
  let qtext := default "" (qs_query s) in
  if decide (PyStr.strip qtext = "") then Some []
  else
    let top_k := query_top_k s in
    let where_filter := where_filter s in
    if decide (default "" openai_api_key = "") then None
    else
      vecs ← embed_texts provider [qtext];
      qvec ← head vecs;
      res ← query_store qvec top_k where_filter;
      let docs := first_or_nil (ans_documents res) in
      let metas := first_or_nil (ans_metadatas res) in
      let dists := first_or_nil (ans_distances res) in
      let ids := first_or_nil (ans_ids res) in
      Some (imap (make_hit metas dists ids) docs).

(** [a] may stand before [b] in a ranking by descending score. *)
Definition ranks_before (h : heap) (a b : loc) : Prop :=
  (score (h !!! b) <= score (h !!! a))%Q.

(* ===================================================================== *)
(** * main.py: the entries of the serper provider *)
(* ===================================================================== *)

(** One item of the [organic] list of the provider's answer, and the entry
    [_serper_search] builds from it: no [text] and no [publishedDate]
    key. *)
Record SerperItem := mkSerperItem {
  serper_title : option string;
  serper_link : option string;
  serper_snippet : option string;
}.

Definition serper_result (it : SerperItem) : RawWeb :=
  mkRawWeb (serper_title it) (serper_link it) (serper_snippet it) None None
    (Some "serper").

(* ===================================================================== *)
(** * Example data *)
(* ===================================================================== *)

(** A file system on which every path reads as the same text. *)
Definition read_alpha (p : string) : string := "alpha bravo".

(** Two runs over files with the same bytes: a forced full run over
    [/d/a.txt], and a later incremental run over a copy of it. *)
Definition run_one : IndexState :=
  let f := mkFileRecord "/d/a.txt" 11 5 "ab12" "text/plain" ".txt" in
  mkIndexState (Some "full") ["/d"] None true [f] [f] [] [] ∅ [].

Definition run_two : IndexState :=
  let g := mkFileRecord "/e/copy.txt" 11 9 "ab12" "text/plain" ".txt" in
  mkIndexState None ["/e"] (Some "m") false [g] [g] [] [] ∅ ["old"].

(** A stand-in for the library's sequence ratio in examples: equal strings
    are fully similar, others not at all. *)
Definition exact_ratio (a b : string) : Q := if decide (a = b) then 1%Q else 0%Q.

(** A hit at vector distance exactly 0, its text holding the query. *)
Definition zero_distance_hit : Hit :=
  mkHit (Some "hello world") None (Some "/a/b.txt") None (Some (Some 0%Q))
        None None.

(** The same hit at distance 0.1. *)
Definition near_hit : Hit :=
  mkHit (Some "hello world") None (Some "/a/b.txt") None (Some (Some (1 # 10)))
        None None.

(** Two results under one link, one local and one from the web. *)
Definition twin_heap : heap :=
  <[0%nat := mkUnifiedResult "local" "a.txt" "alpha" (Some "https://x") (9 # 10) ∅]>
  (<[1%nat := mkUnifiedResult "web" "X" "beta" (Some "https://x") (8 # 10) ∅]> ∅).

(** Two web results whose [url] is the empty string. *)
Definition blank_url_heap : heap :=
  <[0%nat := mkUnifiedResult "web" "A" "alpha" (Some "") (9 # 10) ∅]>
  (<[1%nat := mkUnifiedResult "web" "B" "beta" (Some "") (8 # 10) ∅]> ∅).

(** One local and one web result, scored 0.5 and 0.4. *)
Definition half_heap : heap :=
  <[0%nat := mkUnifiedResult "local" "a.txt" "alpha" (Some "file:///a.txt") (5 # 10) ∅]>
  (<[1%nat := mkUnifiedResult "web" "X" "beta" (Some "https://x") (4 # 10) ∅]> ∅).

(** The providers of [test_web_search_fallback_to_serper]: exa is down,
    serper answers. *)
Definition fail_exa (q : string) (top_n : Z) (include_text : bool) : outcome :=
  Raised "exa down".

Definition ok_serper (q : string) (top_n : Z) : outcome :=
  Returned [mkWebResult "S" "https://s" "serper" "serper"].

(** An entry as [_serper_search] builds it, with title and snippet. *)
Definition serper_entry : RawWeb :=
  serper_result (mkSerperItem (Some "Greeting") (Some "https://s") (Some "hello world")).

(** A query state and a store answer with one document, for examples. *)
Definition hello_query : QueryState :=
  mkQueryState (Some "hello") None None None.

Definition one_doc_store (qvec : list Q) (n_results : Z)
    (filter : option (gmap string PyVal)) : option StoreAnswer :=
  Some (mkStoreAnswer [["hello world"]]
          [[mkHitMeta (Some (Some "/a/b.txt")) None None None]] [[1 # 10]] [["ab12:0"]]).

(* ===================================================================== *)
(** * Theorems *)
(* ===================================================================== *)

(* ===================================================================== *)
(** * Facts about Python strings *)
(* ===================================================================== *)

Module PyStrFacts.

Lemma substring_all (s : string) :
  String.substring 0 (String.length s) s = s.
Proof. induction s as [|c s IH]; simpl; [done | by rewrite IH]. Qed.

End PyStrFacts.

(* ===================================================================== *)
(** * The chunker *)
(* ===================================================================== *)

Section Chunker.

Variable text : string.
Variables w step : Z.
Hypothesis w_pos : 0 < w.
Hypothesis step_pos : 0 < step.

Local Abbreviation n := (PyStr.len text).
Local Abbreviation windows_from := (windows text w step).

(** A larger budget never changes a result. *)
Lemma chunk_loop_mono fuel fuel' stride i acc r :
  chunk_loop fuel text w stride i acc = Some r →
  (fuel ≤ fuel')%nat →
  chunk_loop fuel' text w stride i acc = Some r.
Proof.
  revert fuel' i acc. induction fuel as [|fuel IH]; intros fuel' i acc.
  - discriminate.
  - intros H Hle. destruct fuel' as [|fuel']; [lia|].
    simpl in *. destruct (i <? n); [|done].
    destruct (_ =? n); [done|]. apply IH; [done | lia].
Qed.

(** The loop, started at [i] with [acc] collected so far, returns [acc]
    followed by the windows from [i], provided the budget covers the
    remaining characters. *)
Lemma chunk_loop_windows fuel stride i acc :
  step = (if 0 <? stride then stride else w) →
  (1 ≤ fuel)%nat → n - i ≤ Z.of_nat fuel →
  ∃ rest, windows_from i rest ∧
          chunk_loop fuel text w stride i acc = Some (acc ++ rest).
Proof.
  intros Hstep. revert i acc.
  induction fuel as [|fuel IH]; intros i acc Hone Hfuel; [lia|].
  simpl. destruct (Z.ltb_spec i n) as [Hlt|Hge].
  - destruct (Z.eqb_spec (Z.min n (i + w)) n) as [Hj|Hj].
    + exists [(i, n, PyStr.slice text i n)]. split.
      * apply windows_last; lia.
      * by rewrite Hj.
    + assert (i + w < n) as Hw by lia.
      replace (Z.min n (i + w)) with (i + w) by lia.
      rewrite <- Hstep.
      destruct (IH (i + step) (acc ++ [(i, i + w, PyStr.slice text i (i + w))]))
        as (rest & Hrest & Hrun); [lia | lia |].
      exists ((i, i + w, PyStr.slice text i (i + w)) :: rest). split.
      * by apply windows_next.
      * rewrite Hrun. by rewrite <- app_assoc.
  - exists []. split; [apply windows_exit; lia | by rewrite app_nil_r].
Qed.

(** Position [k] of the emitted list: where the window starts, where it
    ends, what it holds, and that a window reaching the end of the text
    is the last one emitted. *)
Lemma windows_lookup i rest :
  windows_from i rest →
  ∀ (k : nat) c, rest !! k = Some c →
    chunk_start c = i + Z.of_nat k * step ∧
    chunk_end c = Z.min n (chunk_start c + w) ∧
    chunk_body c = PyStr.slice text (chunk_start c) (chunk_end c) ∧
    chunk_start c < n ∧
    (chunk_end c = n → S k = length rest).
Proof.
  induction 1 as [i Hi | i Hi Hw | i rest Hi Hw Hrest IH]; intros k c Hk.
  - done.
  - destruct k as [|k]; [|done]. injection Hk as <-.
    unfold chunk_start, chunk_end, chunk_body. simpl.
    replace (Z.min n (i + w)) with n by lia. repeat split; (lia || done).
  - destruct k as [|k].
    + injection Hk as <-. unfold chunk_start, chunk_end, chunk_body. simpl.
      replace (Z.min n (i + w)) with (i + w) by lia. repeat split; (lia || done).
    + simpl in Hk. destruct (IH k c Hk) as (Hs & He & Hb & Hn & Hlast).
      split; [lia|]. do 3 (split; [done|]).
      intros Hend. simpl. by rewrite (Hlast Hend).
Qed.

(** The loop body runs at most once per character. *)
Lemma windows_length i rest :
  windows_from i rest → 0 ≤ i → Z.of_nat (length rest) ≤ Z.max 0 (n - i).
Proof.
  induction 1 as [i Hi | i Hi Hw | i rest Hi Hw Hrest IH]; intros Hpos; simpl.
  - lia.
  - lia.
  - specialize (IH ltac:(lia)). lia.
Qed.

(** From a position inside the text a window is emitted: the first of the
    list, clipped to the end of the text. *)
Lemma windows_first i rest :
  windows_from i rest → i < n →
  rest !! 0%nat = Some (i, Z.min n (i + w), PyStr.slice text i (Z.min n (i + w))).
Proof.
  intros Hwin Hi. inversion Hwin as [i' Hi' | i' Hi' Hw | i' rest' Hi' Hw Hrest]; subst.
  - lia.
  - cbn. by rewrite Z.min_l by lia.
  - cbn. by rewrite Z.min_r by lia.
Qed.

(** After a window that ends before the end of the text, another one is
    emitted exactly when the next start lies inside the text. *)
Lemma windows_continue i rest :
  windows_from i rest →
  ∀ (k : nat) c, rest !! k = Some c → chunk_end c < n →
    (is_Some (rest !! S k) ↔ chunk_start c + step < n).
Proof.
  induction 1 as [i Hi | i Hi Hw | i rest Hi Hw Hrest IH]; intros k c Hk Hend.
  - by rewrite lookup_nil in Hk.
  - destruct k as [|k]; [|by rewrite lookup_cons, lookup_nil in Hk].
    injection Hk as <-. unfold chunk_end in Hend. cbn in Hend. lia.
  - destruct k as [|k].
    + injection Hk as <-. unfold chunk_start. cbn [fst snd lookup list_lookup].
      change ((_ :: rest) !! 1%nat) with (rest !! 0%nat).
      inversion Hrest as [i' Hi' | i' Hi' Hw' | i' rest' Hi' Hw' Hrest']; subst.
      * split; [by intros [? [=]] | lia].
      * split; [lia | by eexists].
      * split; [lia | by eexists].
    + change ((_ :: rest) !! S (S k)) with (rest !! S k). by apply IH.
Qed.

Hypothesis step_le : step ≤ w.

(** With an advance no larger than the window, the windows from [i]
    leave no character from [i] on uncovered. *)
Lemma windows_cover i rest :
  windows_from i rest →
  ∀ p, i ≤ p < n → ∃ c, c ∈ rest ∧ chunk_start c ≤ p < chunk_end c.
Proof.
  induction 1 as [i Hi | i Hi Hw | i rest Hi Hw Hrest IH]; intros p Hp.
  - lia.
  - eexists. split; [apply list_elem_of_here|]. unfold chunk_start, chunk_end. simpl. lia.
  - destruct (Z.lt_ge_cases p (i + w)) as [Hin|Hout].
    + eexists. split; [apply list_elem_of_here|]. unfold chunk_start, chunk_end. simpl. lia.
    + destruct (IH p ltac:(lia)) as (c & Hc & Hcp).
      exists c. split; [by apply list_elem_of_further | done].
Qed.

Lemma windows_last_end i rest :
  windows_from i rest → i < n →
  ∃ c, last rest = Some c ∧ chunk_end c = n.
Proof.
  induction 1 as [i Hi | i Hi Hw | i rest Hi Hw Hrest IH]; intros Hlt.
  - lia.
  - eexists. split; [done|]. done.
  - destruct (IH ltac:(lia)) as (c & Hc & Hend). exists c. split; [|done].
    destruct rest as [|c' rest]; [done|]. done.
Qed.

Lemma windows_adjacent i rest :
  windows_from i rest →
  ∀ (k : nat) c c', rest !! k = Some c → rest !! S k = Some c' →
    chunk_start c < chunk_start c' ∧ chunk_start c' ≤ chunk_end c.
Proof.
  intros Hwin k c c' Hk Hk'.
  destruct (windows_lookup _ _ Hwin k c Hk) as (Hs & He & _ & Hn & Hlast).
  destruct (windows_lookup _ _ Hwin (S k) c' Hk') as (Hs' & _ & _ & Hn' & _).
  assert (chunk_end c ≠ n) as Hne.
  { intros Heq. specialize (Hlast Heq). apply lookup_lt_Some in Hk'. lia. }
  lia.
Qed.

End Chunker.

Lemma window_ge (target_tokens : Z) : 200 ≤ window target_tokens.
Proof. unfold window. lia. Qed.

Lemma advance_eq (target_tokens overlap : Z) :
  advance target_tokens overlap =
    (if 0 <? window target_tokens - overlap * 4
     then window target_tokens - overlap * 4
     else window target_tokens).
Proof.
  unfold advance. cbv zeta.
  pose proof (window_ge target_tokens).
  destruct (Z.ltb_spec 0 (Z.max 0 (window target_tokens - overlap * 4)));
    destruct (Z.ltb_spec 0 (window target_tokens - overlap * 4)); lia.
Qed.

Lemma advance_pos (target_tokens overlap : Z) : 0 < advance target_tokens overlap.
Proof.
  rewrite advance_eq. pose proof (window_ge target_tokens).
  destruct (Z.ltb_spec 0 (window target_tokens - overlap * 4)); lia.
Qed.

Lemma advance_le_window (target_tokens overlap : Z) :
  0 ≤ overlap → advance target_tokens overlap ≤ window target_tokens.
Proof.
  intros Ho. rewrite advance_eq.
  destruct (Z.ltb_spec 0 (window target_tokens - overlap * 4)); lia.
Qed.

Lemma length_nonempty (s : string) : s ≠ "" → (1 ≤ String.length s)%nat.
Proof. destruct s; [done | simpl; lia]. Qed.

(** What [chunk_text] returns on a non-empty text, for any sufficient
    budget: the windows from position 0. *)
Lemma chunk_text_windows (text : string) (target_tokens overlap : Z) :
  text ≠ "" →
  ∃ chunks,
    windows text (window target_tokens) (advance target_tokens overlap) 0 chunks ∧
    ∀ fuel, (String.length text ≤ fuel)%nat →
            chunk_text fuel text target_tokens overlap = Some chunks.
Proof.
  intros Hne. pose proof (length_nonempty _ Hne) as Hlen.
  pose proof (window_ge target_tokens) as Hw.
  destruct (chunk_loop_windows text (window target_tokens)
              (advance target_tokens overlap) ltac:(lia)
              (advance_pos target_tokens overlap) (String.length text)
              (Z.max 0 (window target_tokens - overlap * 4)) 0 [])
    as (chunks & Hwin & Hrun).
  - done.
  - done.
  - unfold PyStr.len. lia.
  - exists chunks. split; [done|]. intros fuel Hfuel.
    unfold chunk_text. rewrite decide_False by done.
    eapply chunk_loop_mono; [exact Hrun | done].
Qed.

(** With a budget of [len(text)] loop tests [chunk_text] returns. *)
Lemma chunk_text_total (fuel : nat) (text : string) (target_tokens overlap : Z) :
  (String.length text ≤ fuel)%nat →
  is_Some (chunk_text fuel text target_tokens overlap).
Proof.
  intros Hfuel. destruct (decide (text = "")) as [->|Hne].
  - unfold chunk_text. by rewrite decide_True.
  - destruct (chunk_text_windows text target_tokens overlap Hne) as (cs & _ & Hrun).
    rewrite (Hrun fuel Hfuel). by eexists.
Qed.

Example chunk_text_default :
  chunk_text 10 "alpha bravo" 800 80 = Some [(0, 11, "alpha bravo")].
Proof. reflexivity. Qed.

(** Degenerate overlap: 4 * 100 exceeds the 200 character window, the
    advance falls back to the window. *)
Example chunk_text_degenerate :
  fmap (map fst) (chunk_text 450 (String.concat "" (replicate 450 "x")) 10 100)
  = Some [(0, 200); (200, 400); (400, 450)].
Proof. vm_compute. reflexivity. Qed.

(** C6.  [chunk_text] terminates on every text and for every parameter
    setting, degenerate overlaps included: one result is returned under
    every budget of at least [len(text)] loop tests, after at most
    [len(text)] emitted windows.  The window is [max(200, target_tokens*4)]
    characters, window [k] starts at [k] times the advance, the advance
    being the window minus [overlap*4] when that is positive and the window
    itself otherwise, and a window whose end is [len(text)] is the last
    one emitted.  Windows are emitted: an empty text gives none, any other
    text gives the windows from position 0, the first of them starting at
    0; after a window that ends before [len(text)] the next one follows
    exactly when its start lies inside the text; and when the overlap is
    not negative the last window emitted ends at [len(text)]. *)
Theorem chunk_text_terminates (text : string) (target_tokens overlap : Z) :
  ∃ chunks : list chunk,
    (∀ fuel, (String.length text ≤ fuel)%nat →
             chunk_text fuel text target_tokens overlap = Some chunks) ∧
    (length chunks ≤ String.length text)%nat ∧
    window target_tokens = Z.max 200 (target_tokens * 4) ∧
    advance target_tokens overlap =
      (if 0 <? window target_tokens - overlap * 4
       then window target_tokens - overlap * 4
       else window target_tokens) ∧
    (∀ (k : nat) (c : chunk), chunks !! k = Some c →
      chunk_start c = Z.of_nat k * advance target_tokens overlap ∧
      chunk_end c = Z.min (PyStr.len text) (chunk_start c + window target_tokens) ∧
      (chunk_end c = PyStr.len text → S k = length chunks)) ∧
    (text = "" → chunks = []) ∧
    (text ≠ "" →
       windows text (window target_tokens) (advance target_tokens overlap) 0 chunks ∧
       chunks !! 0%nat
       = Some (0, Z.min (PyStr.len text) (window target_tokens),
               PyStr.slice text 0 (Z.min (PyStr.len text) (window target_tokens)))) ∧
    (∀ (k : nat) (c : chunk), chunks !! k = Some c → chunk_end c < PyStr.len text →
       (is_Some (chunks !! S k) ↔
        chunk_start c + advance target_tokens overlap < PyStr.len text)) ∧
    (text ≠ "" → 0 ≤ overlap →
       ∃ c, last chunks = Some c ∧ chunk_end c = PyStr.len text).
Proof.
  destruct (decide (text = "")) as [->|Hne].
  - exists []. split; [intros fuel _; unfold chunk_text; by rewrite decide_True|].
    split; [simpl; lia|]. split; [done|]. split; [apply advance_eq|].
    split; [done|]. split; [done|]. split; [done|]. split; [|done].
    intros k c Hk. by rewrite lookup_nil in Hk.
  - destruct (chunk_text_windows text target_tokens overlap Hne) as (chunks & Hwin & Hrun).
    pose proof (window_ge target_tokens) as Hw.
    pose proof (advance_pos target_tokens overlap) as Hs.
    assert (0 < window target_tokens) as Hw' by lia.
    assert (0 < PyStr.len text) as Hlen.
    { pose proof (length_nonempty _ Hne). unfold PyStr.len. lia. }
    exists chunks. split; [done|]. split.
    { pose proof (windows_length _ _ _ Hw' Hs _ _ Hwin (Z.le_refl 0)) as Hl.
      unfold PyStr.len in Hl. lia. }
    split; [done|]. split; [apply advance_eq|]. split.
    { intros k c Hk.
      destruct (windows_lookup _ _ _ _ _ Hwin k c Hk) as (Hstart & Hend & _ & _ & Hlast).
      split; [lia | done]. }
    split; [done|]. split.
    { intros _. split; [done|].
      by rewrite (windows_first _ _ _ _ _ Hwin Hlen), Z.add_0_l. }
    split.
    { intros k c Hk Hend. exact (windows_continue _ _ _ _ _ Hwin k c Hk Hend). }
    intros _ Ho.
    exact (windows_last_end _ _ _ (advance_le_window _ _ Ho) _ _ Hwin Hlen).
Qed.

(** C5.  For every text (and every non-negative overlap, so in particular
    for the pipeline's 800/80), the spans start at 0, each next span starts
    after the previous start and no later than the previous end, the last
    span ends at [len(text)], every span is a non-empty slice of the text,
    and every character position lies in some span.  Empty text gives no
    span; a non-empty text no longer than the window gives the single span
    [(0, len(text), text)]. *)
Theorem chunk_text_covers (fuel : nat) (text : string) (target_tokens overlap : Z) :
  (String.length text ≤ fuel)%nat →
  0 ≤ overlap →
  ∃ chunks : list chunk,
    chunk_text fuel text target_tokens overlap = Some chunks ∧
    (text = "" → chunks = []) ∧
    (text ≠ "" →
       (∃ c, head chunks = Some c ∧ chunk_start c = 0) ∧
       (∃ c, last chunks = Some c ∧ chunk_end c = PyStr.len text)) ∧
    (∀ (k : nat) c c', chunks !! k = Some c → chunks !! S k = Some c' →
       chunk_start c < chunk_start c' ∧ chunk_start c' ≤ chunk_end c) ∧
    (∀ c, c ∈ chunks →
       0 ≤ chunk_start c ∧ chunk_start c < chunk_end c ∧
       chunk_end c ≤ PyStr.len text ∧
       chunk_body c = PyStr.slice text (chunk_start c) (chunk_end c)) ∧
    (∀ p, 0 ≤ p < PyStr.len text →
       ∃ c, c ∈ chunks ∧ chunk_start c ≤ p < chunk_end c) ∧
    (text ≠ "" → PyStr.len text ≤ window target_tokens →
       chunks = [(0, PyStr.len text, text)]).
Proof.
  intros Hfuel Ho.
  destruct (decide (text = "")) as [->|Hne].
  - exists []. unfold chunk_text. rewrite decide_True by done.
    split; [done|]. split; [done|]. split; [done|]. split; [done|].
    split; [intros c Hc; by apply elem_of_nil in Hc|].
    split; [|done]. intros p Hp. unfold PyStr.len in Hp. simpl in Hp. lia.
  - destruct (chunk_text_windows text target_tokens overlap Hne) as (chunks & Hwin & Hrun).
    pose proof (window_ge target_tokens) as Hw.
    pose proof (advance_pos target_tokens overlap) as Hs.
    pose proof (advance_le_window target_tokens overlap Ho) as Hsw.
    pose proof (length_nonempty _ Hne) as Hlen.
    assert (0 < PyStr.len text) as Hn by (unfold PyStr.len; lia).
    exists chunks. split; [by apply Hrun|]. split; [done|]. split.
    { intros _. split.
      - inversion Hwin as [i Hi | i Hi Hwi | i rest Hi Hwi Hrest]; subst; [lia | |];
          eexists; (split; [done|]); done.
      - by apply (windows_last_end _ _ _ Hsw _ _ Hwin). }
    split; [by apply (windows_adjacent _ _ _ Hs Hsw _ _ Hwin)|].
    split.
    { intros c Hc. apply list_elem_of_lookup in Hc as [k Hk].
      destruct (windows_lookup _ _ _ _ _ Hwin k c Hk) as (Hstart & Hend & Hbody & Hlt & _).
      repeat split; (lia || done). }
    split; [by apply (windows_cover _ _ _ Hsw _ _ Hwin)|].
    intros _ Hshort.
    inversion Hwin as [i Hi | i Hi Hwi | i rest Hi Hwi Hrest]; subst; [lia | | lia].
    unfold PyStr.slice, PyStr.len. rewrite Z.sub_0_r, Nat2Z.id. simpl.
    by rewrite PyStrFacts.substring_all.
Qed.

Lemma chunk_text_covers_witness :
  ∃ chunks : list chunk,
    chunk_text 11 "alpha bravo" 800 80 = Some chunks ∧
    chunks = [(0, 11, "alpha bravo")].
Proof.
  destruct (chunk_text_covers 11 "alpha bravo" 800 80) as (chunks & Hrun & _ & _ & _ & _ & _ & Hone).
  - simpl. lia.
  - lia.
  - exists chunks. split; [exact Hrun|]. apply Hone; [discriminate | vm_compute; discriminate].
Defined.

(* ===================================================================== *)
(** * The change detector *)
(* ===================================================================== *)

(** Appending the elements that pass a test, one by one, is filtering. *)
Lemma foldl_append_filter {A} (p : A → bool) (l acc : list A) :
  foldl (λ acc x, if p x then acc ++ [x] else acc) acc l
  = acc ++ filter (λ x, p x = true) l.
Proof.
  revert acc. induction l as [|x l IH]; intros acc; simpl.
  - by rewrite app_nil_r.
  - rewrite IH. destruct (p x) eqn:Hp.
    + rewrite filter_cons_True by done. by rewrite <- app_assoc.
    + rewrite filter_cons_False; [done | by rewrite Hp].
Qed.

Lemma is_changed_incremental (m : string) (db : files_table) f :
  m ≠ "full" →
  is_changed m (row_sha256 <$> db) f = true ↔
  (db !! path f = None ∨
   ∃ row, db !! path f = Some row ∧ row_sha256 row ≠ sha256 f).
Proof.
  intros Hm. unfold is_changed. rewrite !lookup_fmap.
  destruct (db !! path f) as [row|] eqn:Hrow; simpl;
    repeat case_bool_decide; simpl; try congruence; split; try done.
  - intros [?|(row' & [= <-] & Hne)]; [done | congruence].
  - intros _. right. exists row. split; [done | congruence].
  - intros _. by left.
Qed.

Lemma filter_all {A} (P : A → Prop) `{∀ x, Decision (P x)} (l : list A) :
  (∀ x, P x) → filter P l = l.
Proof.
  intros HP. induction l as [|x l IH]; [done|].
  rewrite filter_cons_True by done. by rewrite IH.
Qed.

Lemma diff_changed_filter (db : files_table) (s : IndexState) :
  force_reembed s = false →
  changed (diff db s)
  = filter (λ f, is_changed (default "incremental" (mode s)) (row_sha256 <$> db) f = true)
           (files s).
Proof.
  intros Hforce. unfold diff. rewrite Hforce. cbv zeta.
  unfold set_stat, set_changed. cbn [changed].
  apply (foldl_append_filter _ (files s) []).
Qed.

(** C7.  The changed subset computed by [diff]: every discovered file when
    [force_reembed] is set, whatever the mode; every discovered file when
    the mode is ["full"]; otherwise exactly the discovered files, in
    discovery order, whose path has no row in the fingerprint table or
    whose row holds another fingerprint, so a file whose fingerprint equals
    the stored one is left out. *)
Theorem diff_changed (db : files_table) (s : IndexState) :
  (force_reembed s = true → changed (diff db s) = files s) ∧
  (mode s = Some "full" → changed (diff db s) = files s) ∧
  (force_reembed s = false → mode s ≠ Some "full" →
     changed (diff db s)
       = filter (λ f, row_sha256 <$> db !! path f ≠ Some (sha256 f)) (files s) ∧
     (∀ f, f ∈ changed (diff db s) ↔
           f ∈ files s ∧
           (db !! path f = None ∨
            ∃ row, db !! path f = Some row ∧ row_sha256 row ≠ sha256 f)) ∧
     (∀ f row, db !! path f = Some row → row_sha256 row = sha256 f →
               f ∉ changed (diff db s))).
Proof.
  split; [|split].
  - intros Hforce. unfold diff. by rewrite Hforce.
  - intros Hmode. destruct (force_reembed s) eqn:Hforce.
    + unfold diff. by rewrite Hforce.
    + rewrite diff_changed_filter, Hmode by done. by apply filter_all.
  - intros Hforce Hmode. rewrite diff_changed_filter by done.
    assert (default "incremental" (mode s) ≠ "full") as Hm.
    { destruct (mode s) as [m|]; simpl; [congruence | done]. }
    assert (∀ f, is_changed (default "incremental" (mode s)) (row_sha256 <$> db) f = true
                 ↔ row_sha256 <$> db !! path f ≠ Some (sha256 f)) as Hiff.
    { intros f. rewrite (is_changed_incremental _ _ _ Hm).
      destruct (db !! path f) as [row|]; simpl.
      - split.
        + intros [?|(row' & [= <-] & Hne)]; [done | congruence].
        + intros Hne. right. exists row. split; [done | congruence].
      - split; [done | by left]. }
    split; [by apply list_filter_iff|]. split.
    + intros f. rewrite list_elem_of_filter, (is_changed_incremental _ _ _ Hm). tauto.
    + intros f row Hrow Hsha. rewrite list_elem_of_filter.
      intros [Hch _]. apply Hiff in Hch. rewrite Hrow in Hch. simpl in Hch. congruence.
Qed.

(* ===================================================================== *)
(** * Tables written by a loop of upserts *)
(* ===================================================================== *)

Section InsertAll.

Context {V : Type}.
Implicit Types (kvs : list (string * V)) (m : gmap string V).

Lemma insert_all_snoc kvs kv m :
  insert_all (kvs ++ [kv]) m = <[kv.1 := kv.2]> (insert_all kvs m).
Proof. unfold insert_all. by rewrite foldl_app. Qed.

Lemma insert_all_cons kv kvs m :
  insert_all (kv :: kvs) m = insert_all kvs (<[kv.1 := kv.2]> m).
Proof. done. Qed.

(** A key holds the value of the last pair written under it, and its old
    value if no pair was. *)
Lemma insert_all_lookup kvs m k :
  insert_all kvs m !! k =
    match last (filter (λ kv, kv.1 = k) kvs) with
    | Some kv => Some kv.2
    | None => m !! k
    end.
Proof.
  induction kvs as [|kv kvs IH] using rev_ind; [done|].
  rewrite insert_all_snoc, filter_app.
  destruct (decide (kv.1 = k)) as [Hk|Hk].
  - rewrite (filter_cons_True _ kv []) by done. rewrite filter_nil, last_snoc.
    subst k. by rewrite lookup_insert_eq.
  - rewrite (filter_cons_False _ kv []) by done. rewrite filter_nil, app_nil_r.
    by rewrite lookup_insert_ne.
Qed.

Lemma insert_all_lookup_notin kvs m k :
  k ∉ kvs.*1 → insert_all kvs m !! k = m !! k.
Proof.
  intros Hk. rewrite insert_all_lookup.
  destruct (last _) as [kv|] eqn:Hlast; [|done].
  apply last_Some_elem_of, list_elem_of_filter in Hlast as [Hkey Hin].
  destruct Hk. subst k. apply list_elem_of_fmap. by exists kv.
Qed.

Lemma insert_all_lookup_in kvs m k :
  k ∈ kvs.*1 → ∃ kv, kv ∈ kvs ∧ kv.1 = k ∧ insert_all kvs m !! k = Some kv.2.
Proof.
  intros Hk. rewrite insert_all_lookup.
  apply list_elem_of_fmap in Hk as (kv & -> & Hin).
  destruct (last _) as [kv'|] eqn:Hlast.
  - apply last_Some_elem_of, list_elem_of_filter in Hlast as [Hkey Hin'].
    by exists kv'.
  - apply last_None in Hlast.
    assert (kv ∈ filter (λ kv0, kv0.1 = kv.1) kvs) as Hf
      by (by apply list_elem_of_filter).
    rewrite Hlast in Hf. by apply elem_of_nil in Hf.
Qed.

(** Writing the same pairs a second time changes nothing. *)
Lemma insert_all_idemp kvs m :
  insert_all kvs (insert_all kvs m) = insert_all kvs m.
Proof.
  apply map_eq. intros k. rewrite (insert_all_lookup kvs (insert_all kvs m)).
  destruct (last _) as [kv|] eqn:Hlast; [|done].
  by rewrite insert_all_lookup, Hlast.
Qed.

Lemma insert_all_dom kvs m :
  dom (insert_all kvs m) = list_to_set kvs.*1 ∪ dom m.
Proof.
  revert m. induction kvs as [|kv kvs IH]; intros m.
  - simpl. set_solver.
  - rewrite insert_all_cons, IH, dom_insert_L. simpl. set_solver.
Qed.

End InsertAll.

(* ===================================================================== *)
(** * The indexing stages *)
(* ===================================================================== *)

Lemma spans_run (data : string) :
  chunk_text (String.length data) data 800 80 = Some (spans data).
Proof.
  destruct (chunk_text_total (String.length data) data 800 80 (Nat.le_refl _))
    as [cs Hrun].
  unfold spans. by rewrite Hrun.
Qed.

Section ParseChunk.

Variable read_text_str : string → string.

Local Abbreviation has_text := (has_text read_text_str).

(** The first loop of [parse_chunk], run over any list of files. *)
Lemma parse_files_fold (l : list FileRecord) texts (s : IndexState) :
  foldl (λ '(texts, s) f,
           let data := read_text_str (path f) in
           if decide (data = "") then (texts, add_error ("parse-empty:" +:+ path f) s)
           else (texts ++ [(f, data)], s))
        (texts, s) l
  = (texts ++ ((λ f, (f, read_text_str (path f))) <$> filter has_text l),
     set_errors (errors s ++ (parse_empty <$> filter (λ f, ¬ has_text f) l)) s).
Proof.
  revert texts s. induction l as [|f l IH]; intros texts s.
  - simpl. rewrite !app_nil_r. by destruct s.
  - simpl. destruct (decide (read_text_str (path f) = "")) as [He|He].
    + rewrite IH. rewrite filter_cons_False by (unfold has_text; tauto).
      rewrite (filter_cons_True (λ f, ¬ has_text f))
        by (unfold has_text; tauto).
      simpl. unfold add_error, set_errors. simpl. by rewrite <- app_assoc.
    + rewrite IH. rewrite filter_cons_True by done.
      rewrite (filter_cons_False (λ f, ¬ has_text f))
        by (unfold has_text; tauto).
      simpl. by rewrite <- app_assoc.
Qed.

Lemma parse_files_eq (s : IndexState) :
  parse_files read_text_str s
  = ((λ f, (f, read_text_str (path f))) <$> filter has_text (changed s),
     set_errors (errors s ++ (parse_empty <$> filter (λ f, ¬ has_text f) (changed s))) s).
Proof. unfold parse_files. by rewrite parse_files_fold. Qed.

(** The second loop never runs out of budget and lays the chunk records
    of the files out one file after the other. *)
Lemma chunk_files_eq (texts : list (FileRecord * string)) (acc : list ChunkRec) :
  chunk_files texts acc
  = Some (acc ++ flat_map (λ '(f, data), chunk_records f (spans data)) texts).
Proof.
  revert acc. induction texts as [|[f data] texts IH]; intros acc; simpl.
  - by rewrite app_nil_r.
  - rewrite spans_run. simpl. rewrite IH. by rewrite <- app_assoc.
Qed.

Lemma parse_chunk_eq (s : IndexState) :
  parse_chunk read_text_str s
  = Some (set_stat "chunks" (Z.of_nat (length (parsed_chunks read_text_str s)))
            (set_chunks (parsed_chunks read_text_str s)
               (set_errors
                  (errors s ++ (parse_empty <$> filter (λ f, ¬ has_text f) (changed s)))
                  s))).
Proof.
  unfold parse_chunk. rewrite parse_files_eq, chunk_files_eq. simpl.
  assert (flat_map (λ '(f, data), chunk_records f (spans data))
            ((λ f, (f, read_text_str (path f))) <$> filter has_text (changed s))
          = parsed_chunks read_text_str s) as ->; [|done].
  unfold parsed_chunks.
  induction (filter has_text (changed s)) as [|f l IH]; [done|].
  simpl. by f_equal.
Qed.

End ParseChunk.

Lemma commit_run_insert_all (now : string) (db : files_table) (s : IndexState) :
  (commit_run now db s).1
  = insert_all ((λ f, (path f, file_row now f)) <$> changed s) db.
Proof.
  unfold commit_run, insert_all. simpl. revert db.
  induction (changed s) as [|f l IH]; intros db; [done|]. simpl. apply IH.
Qed.

Lemma fmap_fst_rows (now : string) (l : list FileRecord) :
  ((λ f, (path f, file_row now f)) <$> l).*1 = path <$> l.
Proof. rewrite <- list_fmap_compose. done. Qed.

Lemma NoDup_fmap_eq {A B} (g : A → B) (l : list A) x y :
  NoDup (g <$> l) → x ∈ l → y ∈ l → g x = g y → x = y.
Proof.
  intros Hnd Hx Hy Hg.
  apply list_elem_of_lookup in Hx as [i Hi]. apply list_elem_of_lookup in Hy as [j Hj].
  assert (i = j) as ->; [|congruence].
  eapply (NoDup_lookup _ _ _ _ Hnd); rewrite list_lookup_fmap.
  - by rewrite Hi.
  - rewrite Hj. simpl. by rewrite Hg.
Qed.

Lemma commit_run_row (now : string) (db : files_table) (s : IndexState) f :
  f ∈ changed s →
  ∃ f', f' ∈ changed s ∧ path f' = path f ∧
        (commit_run now db s).1 !! path f = Some (file_row now f').
Proof.
  intros Hf. rewrite commit_run_insert_all.
  destruct (insert_all_lookup_in ((λ f, (path f, file_row now f)) <$> changed s) db (path f))
    as (kv & Hkv & Hkey & Hlook).
  - rewrite fmap_fst_rows. apply list_elem_of_fmap. by exists f.
  - apply list_elem_of_fmap in Hkv as (f' & -> & Hf').
    exists f'. by rewrite Hlook.
Qed.

(** C9.  [commit_run] leaves, for every file of the changed subset, a row
    under the file's path that was written in this run (the file's own row
    when paths are not repeated in the subset), whether or not the path had
    a row before; a path of no changed file keeps what it had.  A changed
    file without text gets its [parse-empty] error and no chunk from
    [parse_chunk], stays in the changed subset, and is given its row all
    the same. *)
Theorem commit_run_upserts (read_text_str : string → string) (now : string)
    (db : files_table) (s : IndexState) :
  (∀ f, f ∈ changed s →
     ∃ f', f' ∈ changed s ∧ path f' = path f ∧
           (commit_run now db s).1 !! path f = Some (file_row now f')) ∧
  (NoDup (path <$> changed s) →
     ∀ f, f ∈ changed s → (commit_run now db s).1 !! path f = Some (file_row now f)) ∧
  (∀ p, p ∉ path <$> changed s → (commit_run now db s).1 !! p = db !! p) ∧
  (∀ f, f ∈ changed s → read_text_str (path f) = "" →
     ∃ s', parse_chunk read_text_str s = Some s' ∧
           parse_empty f ∈ errors s' ∧
           (∀ c, c ∈ chunks s' → path (chunk_file c) ≠ path f) ∧
           changed s' = changed s ∧
           ∃ f', f' ∈ changed s ∧ path f' = path f ∧
                 (commit_run now db s').1 !! path f = Some (file_row now f')).
Proof.
  split; [|split; [|split]].
  - intros f Hf. by apply commit_run_row.
  - intros Hnd f Hf. destruct (commit_run_row now db s f Hf) as (f' & Hf' & Hp & Hrow).
    by assert (f = f') as <-
      by exact (NoDup_fmap_eq path (changed s) f f' Hnd Hf Hf' (eq_sym Hp)).
  - intros p Hp. rewrite commit_run_insert_all.
    apply insert_all_lookup_notin. by rewrite fmap_fst_rows.
  - intros f Hf Hempty.
    pose proof (parse_chunk_eq read_text_str s) as Hrun.
    destruct (parse_chunk read_text_str s) as [s'|]; [|done].
    assert (errors s' = errors s ++
              (parse_empty <$> filter (λ f, ¬ has_text read_text_str f) (changed s)))
      as Herr by (by injection Hrun as ->).
    assert (chunks s' = parsed_chunks read_text_str s) as Hch
      by (by injection Hrun as ->).
    assert (changed s' = changed s) as Hcg by (by injection Hrun as ->).
    clear Hrun. exists s'. split; [done|]. split; [|split; [|split; [done|]]].
    + rewrite Herr. apply elem_of_app. right. apply list_elem_of_fmap. exists f.
      split; [done|]. apply list_elem_of_filter. split; [|done].
      unfold has_text. tauto.
    + intros c Hc Hpath. rewrite Hch in Hc. unfold parsed_chunks in Hc.
      apply list_elem_of_In, in_flat_map in Hc as (f' & Hf' & Hc).
      apply list_elem_of_In, list_elem_of_filter in Hf' as [Htext _].
      unfold chunk_records in Hc.
      apply list_elem_of_In, list_elem_of_lookup in Hc as [k Hk].
      rewrite list_lookup_imap in Hk.
      apply fmap_Some in Hk as ([[cs ce] body] & _ & ->).
      simpl in Hpath. unfold has_text in Htext. congruence.
    + rewrite <- Hcg in Hf.
      destruct (commit_run_row now db s' f Hf) as (f' & Hf' & Hp & Hrow).
      exists f'. by rewrite <- Hcg.
Qed.

(* ===================================================================== *)
(** * Vector identifiers and the store *)
(* ===================================================================== *)

Example vector_id_example :
  vector_id (mkChunkRec (mkFileRecord "/d/a.txt" 11 5 "ab12" "text/plain" ".txt")
               12 0 11 "alpha bravo") = "ab12:12".
Proof. reflexivity. Qed.

Lemma vector_id_chunk_records (f : FileRecord) (sp : list chunk) :
  vector_id <$> chunk_records f sp
  = (λ k : nat, sha256 f +:+ ":" +:+ pretty (Z.of_nat k)) <$> seq 0 (length sp).
Proof.
  apply list_eq. intros k. unfold chunk_records.
  rewrite !list_lookup_fmap, list_lookup_imap.
  destruct (sp !! k) as [[[cs ce] body]|] eqn:Hk.
  - apply lookup_lt_Some in Hk. by rewrite lookup_seq_lt.
  - apply lookup_ge_None in Hk. by rewrite lookup_seq_ge.
Qed.

Lemma fmap_flat_map {A B C} (g : B → C) (h : A → list B) (l : list A) :
  g <$> flat_map h l = flat_map (λ x, g <$> h x) l.
Proof.
  induction l as [|x l IH]; [done|]. simpl. by rewrite fmap_app, IH.
Qed.

(** The ids of a run, from the fingerprints and texts of its changed
    files. *)
Lemma upsert_ids_parsed (rd : string → string) (s s' : IndexState) :
  parse_chunk rd s = Some s' →
  upsert_ids s'
  = flat_map (λ f, file_ids (sha256 f) (rd (path f))) (filter (has_text rd) (changed s)).
Proof.
  rewrite parse_chunk_eq. intros [= <-]. unfold upsert_ids. simpl.
  unfold parsed_chunks. rewrite fmap_flat_map.
  induction (filter (has_text rd) (changed s)) as [|f l IH]; [done|].
  simpl. by rewrite IH, vector_id_chunk_records.
Qed.

Lemma file_ids_same_content rd1 rd2 (l1 l2 : list FileRecord) :
  Forall2 (same_content rd1 rd2) l1 l2 →
  flat_map (λ f, file_ids (sha256 f) (rd1 (path f))) (filter (has_text rd1) l1)
  = flat_map (λ f, file_ids (sha256 f) (rd2 (path f))) (filter (has_text rd2) l2).
Proof.
  induction 1 as [|f1 f2 l1 l2 [Hsha Htext] _ IH]; [done|].
  destruct (decide (has_text rd1 f1)) as [H1|H1].
  - assert (has_text rd2 f2) as H2 by (unfold has_text in *; by rewrite <- Htext).
    rewrite !filter_cons_True by done. simpl. by rewrite IH, Hsha, Htext.
  - assert (¬ has_text rd2 f2) as H2 by (unfold has_text in *; by rewrite <- Htext).
    by rewrite !filter_cons_False by done.
Qed.

(** A successful store upsert is a write of one pair per id, and succeeds
    on every store alike. *)
Lemma col_upsert_from_insert_all i ids docs metas embs store r :
  col_upsert_from i ids docs metas embs store = Some r →
  ∃ kvs, kvs.*1 = ids ∧
         ∀ c, col_upsert_from i ids docs metas embs c = Some (insert_all kvs c).
Proof.
  revert i store. induction ids as [|vid ids IH]; intros i store Hrun.
  - exists []. done.
  - simpl in Hrun.
    destruct (docs !! i) as [d|] eqn:Hd; [|done].
    destruct (metas !! i) as [m|] eqn:Hm; [|done].
    destruct (embs !! i) as [e|] eqn:He; [|done]. simpl in Hrun.
    destruct (IH _ _ Hrun) as (kvs & Hids & Hall).
    exists ((vid, (d, m, e)) :: kvs). split; [by rewrite fmap_cons, Hids|].
    intros c. simpl. rewrite Hd, Hm, He. simpl. apply Hall.
Qed.

Lemma upsert_vectors_insert_all dm col s col' t :
  upsert_vectors dm col s = Some (col', t) →
  ∃ kvs, kvs.*1 = upsert_ids s ∧
         ∀ c, upsert_vectors dm c s = Some (insert_all kvs c, t).
Proof.
  unfold upsert_vectors. destruct (upsert_ids s) as [|vid ids] eqn:Hids.
  - simpl. intros [= <- <-]. exists []. done.
  - destruct (col_upsert _ _ _ _ col) as [r|] eqn:Hrun; [|done].
    simpl. intros [= <- <-].
    destruct (col_upsert_from_insert_all _ _ _ _ _ _ _ Hrun) as (kvs & Hk & Hall).
    exists kvs. split; [done|]. intros c. unfold col_upsert. by rewrite Hall.
Qed.

Example col_upsert_example :
  (col_upsert ["ab12:0"] ["alpha bravo"]
    [mkVectorMeta "/d/a.txt" "ab12" 0 "text/plain" ".txt" 5 "m"] [] ∅
   ≫= λ store, store !! "ab12:0")
  = Some ("alpha bravo", mkVectorMeta "/d/a.txt" "ab12" 0 "text/plain" ".txt" 5 "m",
          [0%Q; 0%Q; 0%Q; 0%Q]).
Proof. reflexivity. Qed.

(** C8.  The ids of a run are, file after file, ["<fingerprint>:<k>"] for
    the chunk positions [k] of the file's text, a function of fingerprint
    and text alone.  So two runs whose changed files have pairwise the same
    bytes (same fingerprint, same text) yield the same ids, as a list and
    hence as a multiset, whatever else differs between the runs; upserting
    the second run after the first adds no key to the store, and repeating
    an upsert leaves the store as it is. *)
Theorem upsert_ids_stable (rd1 rd2 : string → string) (s1 s2 : IndexState) :
  Forall2 (same_content rd1 rd2) (changed s1) (changed s2) →
  ∃ s1' s2',
    parse_chunk rd1 s1 = Some s1' ∧ parse_chunk rd2 s2 = Some s2' ∧
    upsert_ids s1'
      = flat_map (λ f, file_ids (sha256 f) (rd1 (path f)))
                 (filter (has_text rd1) (changed s1)) ∧
    upsert_ids s2' = upsert_ids s1' ∧
    upsert_ids s2' ≡ₚ upsert_ids s1' ∧
    (∀ dm1 dm2 e1 e2 col col1 col2 t1 t2,
       upsert_vectors dm1 col (set_embeddings e1 s1') = Some (col1, t1) →
       upsert_vectors dm2 col1 (set_embeddings e2 s2') = Some (col2, t2) →
       dom col2 = dom col1 ∧ size col2 = size col1) ∧
    (∀ dm e col col1 t1,
       upsert_vectors dm col (set_embeddings e s1') = Some (col1, t1) →
       upsert_vectors dm col1 (set_embeddings e s1') = Some (col1, t1)).
Proof.
  intros Hsame.
  pose proof (parse_chunk_eq rd1 s1) as Hrun1.
  pose proof (parse_chunk_eq rd2 s2) as Hrun2.
  destruct (parse_chunk rd1 s1) as [s1'|] eqn:Hp1; [|done].
  destruct (parse_chunk rd2 s2) as [s2'|] eqn:Hp2; [|done].
  clear Hrun1 Hrun2.
  pose proof (upsert_ids_parsed _ _ _ Hp1) as Hids1.
  pose proof (upsert_ids_parsed _ _ _ Hp2) as Hids2.
  assert (upsert_ids s2' = upsert_ids s1') as Heq.
  { rewrite Hids1, Hids2. symmetry. by apply file_ids_same_content. }
  exists s1', s2'. split; [done|]. split; [done|]. split; [done|].
  split; [done|]. split; [by rewrite Heq|]. split.
  - intros dm1 dm2 e1 e2 col col1 col2 t1 t2 Hup1 Hup2.
    destruct (upsert_vectors_insert_all _ _ _ _ _ Hup1) as (kvs1 & Hk1 & Hall1).
    destruct (upsert_vectors_insert_all _ _ _ _ _ Hup2) as (kvs2 & Hk2 & Hall2).
    rewrite Hall1 in Hup1. rewrite Hall2 in Hup2.
    injection Hup1 as <-. injection Hup2 as <-.
    assert (dom (insert_all kvs2 (insert_all kvs1 col)) = dom (insert_all kvs1 col)) as Hdom.
    { rewrite !insert_all_dom, Hk1, Hk2.
      change (upsert_ids (set_embeddings e2 s2')) with (upsert_ids s2').
      change (upsert_ids (set_embeddings e1 s1')) with (upsert_ids s1').
      rewrite Heq. set_solver. }
    split; [done|]. by rewrite <- !size_dom, Hdom.
  - intros dm e col col1 t1 Hup.
    destruct (upsert_vectors_insert_all _ _ _ _ _ Hup) as (kvs & Hk & Hall).
    rewrite Hall in Hup. injection Hup as <-.
    rewrite Hall. by rewrite insert_all_idemp.
Qed.

Lemma upsert_ids_stable_witness :
  ∃ s1' s2',
    parse_chunk read_alpha run_one = Some s1' ∧
    parse_chunk read_alpha run_two = Some s2' ∧
    upsert_ids s1' = ["ab12:0"] ∧ upsert_ids s2' = ["ab12:0"].
Proof.
  destruct (upsert_ids_stable read_alpha read_alpha run_one run_two)
    as (s1' & s2' & H1 & H2 & Hids & Heq & _).
  - repeat constructor.
  - exists s1', s2'. split; [exact H1|]. split; [exact H2|].
    rewrite Heq, Hids. split; reflexivity.
Defined.

(* ===================================================================== *)
(** * Relevance scoring *)
(* ===================================================================== *)

Lemma cap1_le (x : Q) : (cap1 x <= 1)%Q.
Proof. apply Q.le_min_r. Qed.

Lemma cap1_nonneg (x : Q) : (0 <= x)%Q → (0 <= cap1 x)%Q.
Proof. intros Hx. apply Q.min_glb; [done | discriminate]. Qed.

Lemma cap1_id (x : Q) : (x <= 1)%Q → cap1 x = x.
Proof.
  intros Hx. unfold cap1, Qmin, GenericMinMax.gmin.
  by destruct (x ?= 1)%Q eqn:Hc.
Qed.

(** The empty string occurs in every string. *)
Lemma contains_empty (s : string) : PyStr.contains "" s = true.
Proof. destruct s; simpl; [done|]. done. Qed.

Lemma lstrip_head (s : string) :
  PyStr.lstrip s = "" ∨
  ∃ c r, PyStr.lstrip s = String c r ∧ PyStr.is_space c = false.
Proof.
  induction s as [|c s IH]; simpl; [by left|].
  destruct (PyStr.is_space c) eqn:Hc; [done|]. right. by exists c, s.
Qed.

Lemma rstrip_head (c : ascii) (s : string) :
  PyStr.is_space c = false → ∃ r, PyStr.rstrip (String c s) = String c r.
Proof.
  intros Hc. simpl. rewrite Hc. destruct (PyStr.rstrip s); by eexists.
Qed.

(** A stripped string is empty or starts with a character that is not a
    space. *)
Lemma strip_head (s : string) :
  PyStr.strip s = "" ∨
  ∃ c r, PyStr.strip s = String c r ∧ PyStr.is_space c = false.
Proof.
  unfold PyStr.strip. destruct (lstrip_head s) as [->|(c & r & -> & Hc)].
  - by left.
  - right. destruct (rstrip_head c r Hc) as [r' ->]. by exists c, r'.
Qed.

Lemma split_ws_cur (cur s : string) : cur ≠ "" → PyStr.split_ws cur s ≠ [].
Proof.
  revert cur. induction s as [|c s IH]; intros cur Hcur; simpl.
  - by rewrite decide_False.
  - destruct (PyStr.is_space c).
    + by rewrite decide_False.
    + apply IH. by destruct cur.
Qed.

(** A non-empty stripped query has at least one term. *)
Lemma split_strip_nonempty (s : string) :
  PyStr.strip s ≠ "" → PyStr.split (PyStr.strip s) ≠ [].
Proof.
  intros Hne. destruct (strip_head s) as [?|(c & r & -> & Hc)]; [done|].
  unfold PyStr.split. simpl. rewrite Hc. by apply split_ws_cur.
Qed.

Lemma size_list_to_set_pos (l : list string) :
  l ≠ [] → (0 < size (list_to_set l : gset string))%nat.
Proof.
  destruct l as [|x l]; [done|]. intros _.
  assert (size (list_to_set (x :: l) : gset string) ≠ 0%nat); [|lia].
  intros Hsz. apply size_empty_iff in Hsz.
  assert (x ∈ (list_to_set (x :: l) : gset string)) as Hx by set_solver.
  rewrite Hsz in Hx. set_solver.
Qed.

Lemma py_div_pos (a b : nat) :
  (0 < b)%nat →
  ∃ v, py_div (Z.of_nat a) (Z.of_nat b * 3) = Some v ∧ (0 <= v)%Q.
Proof.
  intros Hb. unfold py_div.
  destruct (Z.of_nat b * 3) as [|p|p] eqn:Hp; [lia | | lia].
  eexists. split; [done|]. unfold Qle. simpl. lia.
Qed.

Lemma coverage_bounds (a b : nat) :
  (a ≤ b)%nat → (0 < b)%nat →
  (0 <= Z.of_nat a # Pos.of_nat b)%Q ∧ (Z.of_nat a # Pos.of_nat b <= 1)%Q.
Proof. intros Hab Hb. unfold Qle. simpl. lia. Qed.

(** C1.  For every query, text and title, empty and blank ones included,
    [calculate_relevance_score] raises nothing and returns a value between
    0 and 1, provided the library's sequence ratio lies between 0 and 1 as
    documented. *)
Theorem relevance_score_bounds (ratio : string → string → Q)
    (query text title : string) :
  (∀ a b, (0 <= ratio a b)%Q ∧ (ratio a b <= 1)%Q) →
  ∃ v, calculate_relevance_score ratio query text title = Some v ∧
       (0 <= v)%Q ∧ (v <= 1)%Q.
Proof.
  intros Hratio. unfold calculate_relevance_score. cbv zeta.
  set (query_lower := PyStr.strip (PyStr.lower query)).
  set (text_lower := PyStr.strip (PyStr.lower text)).
  set (title_lower := PyStr.strip (PyStr.lower title)).
  set (combined := title_lower +:+ " " +:+ text_lower).
  destruct (PyStr.contains query_lower title_lower) eqn:Htitle.
  { exists 1%Q. split; [done|]. split; discriminate. }
  destruct (PyStr.contains query_lower text_lower) eqn:Htext.
  { exists (95 # 100). split; [done|]. split; discriminate. }
  assert (query_lower ≠ "") as Hq.
  { intros Hq. rewrite Hq, contains_empty in Htitle. discriminate. }
  pose proof (size_list_to_set_pos _ (split_strip_nonempty _ Hq)) as Hsize.
  fold query_lower in Hsize.
  set (query_terms := list_to_set (PyStr.split query_lower) : gset string) in *.
  set (combined_terms := list_to_set (PyStr.split combined) : gset string).
  destruct (py_div_pos (term_freq query_terms combined) (size query_terms) Hsize)
    as (tf & -> & Htf).
  cbn [mbind option_bind]. eexists. split; [done|].
  assert (size (query_terms ∩ combined_terms) ≤ size query_terms)%nat as Hcov
    by (apply subseteq_size; set_solver).
  destruct (coverage_bounds _ _ Hcov Hsize) as [Hc0 Hc1].
  destruct (Nat.ltb_spec 0 (size query_terms)) as [_|?]; [|lia].
  destruct (Hratio query_lower (PyStr.prefix_to 1000 combined)) as [Hr0 Hr1].
  pose proof (cap1_nonneg tf Htf) as Ht0. pose proof (cap1_le tf) as Ht1.
  split; [|apply cap1_le]. apply cap1_nonneg. lra.
Qed.

Example relevance_score_example :
  calculate_relevance_score exact_ratio
    "hello there world" "Hello World hello" "b.txt" = Some (11700 # 27000).
Proof. vm_compute. reflexivity. Qed.

Lemma relevance_score_bounds_witness :
  ∃ v, calculate_relevance_score exact_ratio
         "hello there world" "Hello World hello" "b.txt" = Some v ∧
       (0 <= v)%Q ∧ (v <= 1)%Q.
Proof.
  apply (relevance_score_bounds exact_ratio).
  intros a b. unfold exact_ratio. destruct (decide (a = b)); split; discriminate.
Defined.

(** The score never raises, whatever the sequence ratio returns: the
    division is reached only with a non-empty set of query terms. *)
Lemma relevance_score_total (ratio : string → string → Q)
    (query text title : string) :
  is_Some (calculate_relevance_score ratio query text title).
Proof.
  unfold calculate_relevance_score. cbv zeta.
  set (query_lower := PyStr.strip (PyStr.lower query)).
  set (text_lower := PyStr.strip (PyStr.lower text)).
  set (title_lower := PyStr.strip (PyStr.lower title)).
  destruct (PyStr.contains query_lower title_lower) eqn:Htitle; [done|].
  destruct (PyStr.contains query_lower text_lower) eqn:Htext; [done|].
  assert (query_lower ≠ "") as Hq.
  { intros Hq. rewrite Hq, contains_empty in Htitle. discriminate. }
  pose proof (size_list_to_set_pos _ (split_strip_nonempty _ Hq)) as Hsize.
  fold query_lower in Hsize.
  set (query_terms := list_to_set (PyStr.split query_lower) : gset string) in *.
  match goal with |- context [term_freq query_terms ?c] =>
    destruct (py_div_pos (term_freq query_terms c) (size query_terms) Hsize)
      as (tf & -> & _) end.
  done.
Qed.

(* ===================================================================== *)
(** * Local normalization *)
(* ===================================================================== *)

Lemma boosted_true (hit : Hit) :
  boosted hit = true ↔
  ∃ d, original_score hit = Some d ∧ ¬ (d == 0)%Q ∧ (d < 1 # 2)%Q.
Proof.
  unfold boosted. destruct (original_score hit) as [d|]; split.
  - intros [Hz Hlt]%andb_true_iff. exists d. split; [done|]. split.
    + intros Heq. apply Qeq_bool_iff in Heq. by rewrite Heq in Hz.
    + apply Qnot_le_lt. intros Hle. apply Qle_bool_iff in Hle. by rewrite Hle in Hlt.
  - intros (d' & [= <-] & Hz & Hlt). apply andb_true_iff. split.
    + apply negb_true_iff. destruct (Qeq_bool d 0) eqn:He; [|done].
      by apply Qeq_bool_iff in He.
    + apply negb_true_iff. destruct (Qle_bool (1 # 2) d) eqn:He; [|done].
      apply Qle_bool_iff in He. by apply Qlt_not_le in Hlt.
  - done.
  - by intros (d & [=] & _).
Qed.

Lemma normalize_local_hit_score (ratio : string → string → Q) (query : string)
    (hit : Hit) (text : string) :
  hit_body hit = Some text →
  is_Some (hit_path_value hit) → is_Some (hit_file_type_value hit) →
  ∃ r u,
    calculate_relevance_score ratio query text (hit_file_name hit) = Some r ∧
    normalize_local_hit ratio query hit = Some u ∧
    score u = (if boosted hit then Qmin (r * (12 # 10)) 1 else Qmin r 1).
Proof.
  intros Hbody [pv Hpv] [ft Hft].
  destruct (relevance_score_total ratio query text (hit_file_name hit))
    as [r Hr].
  unfold normalize_local_hit. cbv zeta. rewrite Hpv. cbn [mbind option_bind].
  rewrite Hbody. cbn [mbind option_bind]. rewrite Hr. cbn [mbind option_bind].
  rewrite Hft. cbn [mbind option_bind].
  eexists r, _. split; [done|]. split; [done|]. cbn [score].
  by destruct (boosted hit).
Qed.

(** Reading the [meta] raises exactly when it is [None] and is read. *)
Lemma hit_path_value_None (hit : Hit) :
  hit_path_value hit = None ↔
  hit_meta hit = Some None ∧ truthy_str (hit_path hit) = None.
Proof.
  unfold hit_path_value, hit_meta_dict.
  destruct (truthy_str (hit_path hit)); [naive_solver|].
  destruct (hit_meta hit) as [[m|]|]; cbn [default from_option id mbind option_bind];
    naive_solver.
Qed.

Lemma hit_file_type_value_None (hit : Hit) :
  hit_file_type_value hit = None ↔
  hit_meta hit = Some None ∧ truthy_str (hit_file_type hit) = None.
Proof.
  unfold hit_file_type_value, hit_meta_dict.
  destruct (truthy_str (hit_file_type hit)); [naive_solver|].
  destruct (hit_meta hit) as [[m|]|]; cbn [default from_option id mbind option_bind];
    naive_solver.
Qed.

(** A hit is not converted exactly when its content is [None], or its
    [meta] is [None] while [path] or [file_type] sends the code to it. *)
Lemma normalize_local_hit_None (ratio : string → string → Q) (query : string)
    (hit : Hit) :
  normalize_local_hit ratio query hit = None ↔
  hit_body hit = None
  ∨ (hit_meta hit = Some None ∧
     (truthy_str (hit_path hit) = None ∨ truthy_str (hit_file_type hit) = None)).
Proof.
  pose proof (hit_path_value_None hit) as Hp.
  pose proof (hit_file_type_value_None hit) as Hf.
  destruct (hit_body hit) as [text|] eqn:Hbody.
  - destruct (hit_path_value hit) as [pv|] eqn:Hpv.
    + destruct (hit_file_type_value hit) as [ft|] eqn:Hft.
      * destruct (normalize_local_hit_score ratio query hit text Hbody)
          as (r & u & _ & -> & _); [by rewrite Hpv | by rewrite Hft |].
        naive_solver.
      * assert (normalize_local_hit ratio query hit = None) as ->; [|naive_solver].
        destruct (relevance_score_total ratio query text (hit_file_name hit))
          as [r Hr].
        unfold normalize_local_hit. cbv zeta. rewrite Hpv. cbn [mbind option_bind].
        rewrite Hbody. cbn [mbind option_bind]. rewrite Hr. cbn [mbind option_bind].
        by rewrite Hft.
    + assert (normalize_local_hit ratio query hit = None) as ->; [|naive_solver].
      unfold normalize_local_hit. cbv zeta. by rewrite Hpv.
  - assert (normalize_local_hit ratio query hit = None) as ->; [|naive_solver].
    unfold normalize_local_hit. cbv zeta.
    destruct (hit_path_value hit); cbn [mbind option_bind]; [|done].
    by rewrite Hbody.
Qed.

(** What [normalize_local_results] assigns.  The call raises exactly when
    some hit has [None] as its content, or has [None] as its [meta] while
    its [path] or its [file_type] is missing; otherwise every hit yields a
    result.
    Its score is [min(r * 1.2, 1.0)] when the hit carries a distance that
    is not zero and lies strictly below 0.5, and [min(r, 1.0)] in every
    other case: distance 0, distance at least 0.5, a [None] distance, no
    distance at all. *)
Theorem normalize_local_results_score (ratio : string → string → Q)
    (hits : list Hit) (query : string) :
  (normalize_local_results ratio hits query = None ↔
   Exists (λ hit,
     hit_body hit = None
     ∨ (hit_meta hit = Some None ∧
        (truthy_str (hit_path hit) = None ∨ truthy_str (hit_file_type hit) = None)))
     hits) ∧
  ∀ results,
    normalize_local_results ratio hits query = Some results →
    Forall2 (λ hit u,
      ∃ text r,
        hit_body hit = Some text ∧
        calculate_relevance_score ratio query text (hit_file_name hit) = Some r ∧
        (∀ d, hit_score hit = Some (Some d) → ¬ (d == 0)%Q → (d < 1 # 2)%Q →
              score u = Qmin (r * (12 # 10)) 1) ∧
        (∀ d, hit_score hit = Some (Some d) → (d == 0)%Q ∨ (1 # 2 <= d)%Q →
              score u = Qmin r 1) ∧
        (hit_score hit = None ∨ hit_score hit = Some None → score u = Qmin r 1))
      hits results.
Proof.
  split.
  { unfold normalize_local_results. rewrite mapM_None.
    split; intros H; eapply Exists_impl; try exact H; intros hit Hhit;
      cbv beta in *; by apply (normalize_local_hit_None ratio query hit). }
  intros results Hrun. unfold normalize_local_results in Hrun.
  apply mapM_Some in Hrun. eapply Forall2_impl; [exact Hrun|].
  intros hit u Hu. cbv beta in Hu.
  pose proof (normalize_local_hit_None ratio query hit) as Hnone.
  pose proof (hit_path_value_None hit) as Hp.
  pose proof (hit_file_type_value_None hit) as Hf.
  destruct (hit_body hit) as [text|] eqn:Hbody;
    [|rewrite (proj2 Hnone) in Hu; [done | by left]].
  destruct (normalize_local_hit_score ratio query hit text Hbody)
    as (r & u' & Hr & Hu' & Hscore).
  { destruct (hit_path_value hit); [done|].
    rewrite (proj2 Hnone) in Hu; [done | right; naive_solver]. }
  { destruct (hit_file_type_value hit); [done|].
    rewrite (proj2 Hnone) in Hu; [done | right; naive_solver]. }
  rewrite Hu in Hu'. injection Hu' as <-.
  exists text, r. split; [done|]. split; [done|]. split; [|split].
  - intros d Hd Hz Hlt. rewrite Hscore.
    assert (boosted hit = true) as ->; [|done].
    apply boosted_true. exists d. unfold original_score. by rewrite Hd.
  - intros d Hd Hcase. rewrite Hscore.
    destruct (boosted hit) eqn:Hb; [|done].
    apply boosted_true in Hb as (d' & Hd' & Hz & Hlt).
    unfold original_score in Hd'. rewrite Hd in Hd'. injection Hd' as <-.
    destruct Hcase as [?|Hle]; [done|]. by apply Qlt_not_le in Hlt.
  - intros Hcase. rewrite Hscore.
    destruct (boosted hit) eqn:Hb; [|done].
    apply boosted_true in Hb as (d' & Hd' & Hz & Hlt).
    unfold original_score in Hd'.
    destruct Hcase as [Hn|Hn]; rewrite Hn in Hd'; simpl in Hd'; [|done].
    injection Hd' as <-. by destruct Hz.
Qed.

(** A hit at distance 0.1 is boosted: 0.95 becomes 1. *)
Example normalize_local_near :
  fmap (map score) (normalize_local_results exact_ratio [near_hit] "hello")
  = Some [1%Q].
Proof. vm_compute. reflexivity. Qed.

(** C3, on the code.  A hit at distance exactly 0 is a hit below 0.5, yet
    it is not boosted: with relevance 0.95 the result is scored 0.95, not
    [min(1.2 * 0.95, 1.0)].  The test [original_score and ...] takes the
    distance 0 for a missing one. *)
Theorem normalize_local_zero_distance :
  original_score zero_distance_hit = Some 0%Q ∧
  (0 < 1 # 2)%Q ∧
  hit_body zero_distance_hit = Some "hello world" ∧
  calculate_relevance_score exact_ratio "hello"
    "hello world" (hit_file_name zero_distance_hit)
    = Some (95 # 100) ∧
  ∃ u, normalize_local_results exact_ratio [zero_distance_hit] "hello" = Some [u] ∧
       score u = (95 # 100) ∧
       ¬ (score u == Qmin ((12 # 10) * (95 # 100)) 1)%Q.
Proof.
  split; [reflexivity|]. split; [reflexivity|]. split; [reflexivity|].
  split; [vm_compute; reflexivity|].
  eexists. split; [vm_compute; reflexivity|]. split; [reflexivity|].
  vm_compute. discriminate.
Qed.

(* ===================================================================== *)
(** * Merging and ranking *)
(* ===================================================================== *)

Lemma insert_desc_perm (h : heap) (r : loc) (l : list loc) :
  insert_desc h r l ≡ₚ r :: l.
Proof.
  induction l as [|r' l IH]; simpl; [done|].
  destruct (Qle_bool _ _); [done|]. rewrite IH. apply Permutation_swap.
Qed.

(** Sorting rearranges, it neither drops nor repeats. *)
Lemma sort_desc_perm (h : heap) (l : list loc) : sort_desc h l ≡ₚ l.
Proof.
  induction l as [|r l IH]; simpl; [done|].
  by rewrite insert_desc_perm, IH.
Qed.

Lemma py_take_length {A} (k : Z) (l : list A) :
  0 ≤ k → Z.of_nat (length (py_take k l)) ≤ k.
Proof.
  intros Hk. unfold py_take. destruct (Z.ltb_spec k 0); [lia|].
  rewrite length_take. lia.
Qed.

Lemma py_take_sublist {A} (k : Z) (l : list A) : py_take k l `sublist_of` l.
Proof. unfold py_take. destruct (k <? 0); apply sublist_take. Qed.

Lemma url_count_app h link (l1 l2 : list loc) :
  url_count h link (l1 ++ l2) = (url_count h link l1 + url_count h link l2)%nat.
Proof. unfold url_count. by rewrite filter_app, length_app. Qed.

Lemma url_count_perm h link (l1 l2 : list loc) :
  l1 ≡ₚ l2 → url_count h link l1 = url_count h link l2.
Proof. intros Hp. unfold url_count. by rewrite Hp. Qed.

Lemma url_count_sublist h link (l1 l2 : list loc) :
  l1 `sublist_of` l2 → (url_count h link l1 ≤ url_count h link l2)%nat.
Proof.
  intros Hs. unfold url_count.
  induction Hs as [|r l1 l2 Hs IH|r l1 l2 Hs IH]; [done| |].
  - destruct (decide (url (h !!! r) = Some link)).
    + rewrite !filter_cons_True by done. simpl. lia.
    + by rewrite !filter_cons_False by done.
  - destruct (decide (url (h !!! r) = Some link)).
    + rewrite filter_cons_True by done. simpl. lia.
    + by rewrite filter_cons_False by done.
Qed.

Lemma url_count_zero h link (l : list loc) :
  (∀ r, r ∈ l → url (h !!! r) ≠ Some link) → url_count h link l = 0%nat.
Proof.
  intros Hl. unfold url_count.
  induction l as [|r l IH]; [done|].
  rewrite filter_cons_False by (apply Hl; left).
  apply IH. intros r' Hr'. apply Hl. by right.
Qed.

Lemma truthy_url_Some (u : UnifiedResult) (link : string) :
  truthy_url u = Some link ↔ url u = Some link ∧ link ≠ "".
Proof.
  unfold truthy_url. destruct (url u) as [l|]; [|naive_solver].
  destruct (decide (l = "")); naive_solver.
Qed.

(** The deduplication loop keeps at most one result per non-empty link,
    given that every link met so far is in [seen_urls]. *)
Lemma dedup_loop_unique_urls (h : heap) (max_results : Z) (results : list loc) :
  ∀ unique_results seen_urls seen_fps,
    (∀ r link, r ∈ unique_results → truthy_url (h !!! r) = Some link →
               link ∈ seen_urls) →
    (∀ link, link ≠ "" → (url_count h link unique_results ≤ 1)%nat) →
    ∀ link, link ≠ "" →
      (url_count h link
         (dedup_loop h max_results results unique_results seen_urls seen_fps) ≤ 1)%nat.
Proof.
  induction results as [|r rest IH]; intros unique seen_urls seen_fps Hseen Huniq;
    [done|].
  simpl.
  destruct (truthy_url (h !!! r)) as [l0|] eqn:Hurl.
  - case_bool_decide as Hin; [by apply IH|].
    case_bool_decide as Hfp; [by apply IH|].
    assert (∀ link, link ≠ "" → (url_count h link (unique ++ [r]) ≤ 1)%nat) as Huniq'.
    { intros link Hlink. rewrite url_count_app.
      apply truthy_url_Some in Hurl as [Hurl Hl0].
      destruct (decide (link = l0)) as [->|Hne].
      - rewrite url_count_zero.
        + unfold url_count. rewrite (filter_cons_True _ r []) by done. simpl. lia.
        + intros r' Hr' Hurl'. apply Hin, (Hseen r'); [done|].
          by apply truthy_url_Some.
      - specialize (Huniq link Hlink). unfold url_count at 2.
        rewrite (filter_cons_False _ r []) by congruence. simpl. lia. }
    destruct (_ >=? _); [by apply Huniq'|].
    apply IH; [|done].
    intros r' link [Hr'| ->%list_elem_of_singleton]%elem_of_app Hlink.
    + apply elem_of_union_r. by eapply Hseen.
    + rewrite Hurl in Hlink. injection Hlink as <-. set_solver.
  - case_bool_decide as Hfp; [by apply IH|].
    assert (∀ link, link ≠ "" → (url_count h link (unique ++ [r]) ≤ 1)%nat) as Huniq'.
    { intros link Hlink. rewrite url_count_app.
      specialize (Huniq link Hlink). unfold url_count at 2.
      rewrite (filter_cons_False _ r []); [simpl; lia|].
      intros Hurl'. assert (truthy_url (h !!! r) = Some link) as Ht
        by (by apply truthy_url_Some).
      congruence. }
    destruct (_ >=? _); [by apply Huniq'|].
    apply IH; [|done].
    intros r' link [Hr'| ->%list_elem_of_singleton]%elem_of_app Hlink.
    + by eapply Hseen.
    + congruence.
Qed.

Lemma rank_unique_urls (h : heap) (local_results web_results : list loc)
    (max_results : Z) (link : string) :
  link ≠ "" →
  (url_count h link (rank_unique h local_results web_results max_results) ≤ 1)%nat.
Proof.
  intros Hlink. unfold rank_unique. cbv zeta.
  etrans; [apply url_count_sublist, py_take_sublist|].
  rewrite (url_count_perm _ _ _ _ (sort_desc_perm _ _)).
  apply dedup_loop_unique_urls; [|intros; unfold url_count; simpl; lia|done].
  intros r l Hr. by apply elem_of_nil in Hr.
Qed.

Lemma rank_unique_length (h : heap) (local_results web_results : list loc)
    (max_results : Z) :
  0 ≤ max_results →
  Z.of_nat (length (rank_unique h local_results web_results max_results)) ≤ max_results.
Proof. intros Hk. unfold rank_unique. by apply py_take_length. Qed.

(** C4, as the code has it.  For a non-negative [max_results] the output is
    no longer than [max_results] under every strategy.  Under every
    strategy but ["interleaved"] the output holds at most one result per
    non-empty link; the interleaved strategy returns without deduplication,
    and results whose link is the empty string are not told apart by
    link. *)
Theorem merge_and_rank_dedup (h : heap) (local_results web_results : list loc)
    (strategy : string) (max_results : Z) :
  0 ≤ max_results →
  Z.of_nat (length (merge_and_rank_results h local_results web_results
                      strategy max_results).2) ≤ max_results ∧
  (strategy ≠ "interleaved" →
   ∀ link, link ≠ "" →
     (url_count (merge_and_rank_results h local_results web_results
                   strategy max_results).1 link
                (merge_and_rank_results h local_results web_results
                   strategy max_results).2 ≤ 1)%nat).
Proof.
  intros Hk. unfold merge_and_rank_results.
  repeat case_decide; simpl; (split; [|intros Hs link Hlink]);
    try (by apply rank_unique_length);
    try (by apply rank_unique_urls);
    try (by apply py_take_length);
    done.
Qed.

Lemma merge_and_rank_dedup_witness :
  Z.of_nat (length (merge_and_rank_results twin_heap [0%nat] [1%nat] "balanced" 10).2)
    ≤ 10 ∧
  (url_count (merge_and_rank_results twin_heap [0%nat] [1%nat] "balanced" 10).1
     "https://x"
     (merge_and_rank_results twin_heap [0%nat] [1%nat] "balanced" 10).2 ≤ 1)%nat.
Proof.
  destruct (merge_and_rank_dedup twin_heap [0%nat] [1%nat] "balanced" 10) as [Hlen Hurl].
  - lia.
  - split; [exact Hlen|]. apply Hurl; discriminate.
Defined.

(** The claim fails where the code does not deduplicate or cannot truncate
    to the bound: the interleaved strategy returns both results of one
    link; two results whose link is the empty string are both returned by
    the balanced strategy; and no list has a negative length. *)
Lemma merge_and_rank_dedup_counterexample :
  (merge_and_rank_results twin_heap [0%nat] [1%nat] "interleaved" 10).2
    = [0%nat; 1%nat] ∧
  url_count (merge_and_rank_results twin_heap [0%nat] [1%nat] "interleaved" 10).1
    "https://x"
    (merge_and_rank_results twin_heap [0%nat] [1%nat] "interleaved" 10).2 = 2%nat ∧
  url_count (merge_and_rank_results blank_url_heap [] [0%nat; 1%nat] "balanced" 10).1
    ""
    (merge_and_rank_results blank_url_heap [] [0%nat; 1%nat] "balanced" 10).2 = 2%nat ∧
  ¬ (Z.of_nat (length (merge_and_rank_results twin_heap [0%nat] [1%nat]
                         "balanced" (-1)).2) ≤ -1).
Proof.
  split; [vm_compute; reflexivity|]. split; [vm_compute; reflexivity|].
  split; [vm_compute; reflexivity|]. vm_compute. intros H. by apply H.
Qed.

(* ===================================================================== *)
(** * The strategy adjustment is made in place *)
(* ===================================================================== *)

Lemma boost_at_eq (h : heap) (r : loc) : boost_at h r !! r = reweight <$> h !! r.
Proof. unfold boost_at. by rewrite lookup_alter_eq. Qed.

Lemma boost_at_ne (h : heap) (r r' : loc) : r ≠ r' → boost_at h r !! r' = h !! r'.
Proof. intros Hne. unfold boost_at. by rewrite lookup_alter_ne. Qed.

(** Objects outside the list are left alone. *)
Lemma boost_all_notin (results : list loc) (h : heap) (r : loc) :
  r ∉ results → boost_all h results !! r = h !! r.
Proof.
  revert h. induction results as [|x l IH]; intros h Hr; [done|].
  apply not_elem_of_cons in Hr as [Hne Hr].
  unfold boost_all. simpl. fold (boost_all (boost_at h x) l).
  rewrite IH by done. by apply boost_at_ne.
Qed.

(** An object listed once is reweighted once. *)
Lemma boost_all_in (results : list loc) (h : heap) (r : loc) :
  NoDup results → r ∈ results → boost_all h results !! r = reweight <$> h !! r.
Proof.
  revert h. induction results as [|x l IH]; intros h Hnd Hr.
  - by apply elem_of_nil in Hr.
  - apply NoDup_cons in Hnd as [Hx Hnd].
    unfold boost_all. simpl. fold (boost_all (boost_at h x) l).
    apply elem_of_cons in Hr as [->|Hr].
    + rewrite boost_all_notin by done. apply boost_at_eq.
    + rewrite IH by done. rewrite boost_at_ne; [done|]. by intros ->.
Qed.

(** An object listed twice is reweighted twice: the list holds the object,
    not a copy. *)
Example boost_all_alias :
  score <$> boost_all half_heap [0%nat; 0%nat] !! 0%nat = Some (845 # 1000).
Proof. vm_compute. reflexivity. Qed.

Lemma merge_heap_local_first h local_results web_results max_results :
  (merge_and_rank_results h local_results web_results "local_first" max_results).1
  = boost_all h local_results.
Proof. done. Qed.

Lemma merge_heap_web_first h local_results web_results max_results :
  (merge_and_rank_results h local_results web_results "web_first" max_results).1
  = boost_all h web_results.
Proof. done. Qed.

Lemma interleave_subseteq (l w : list loc) : interleave l w ⊆ l ++ w.
Proof.
  unfold interleave. cbv zeta.
  generalize (seq 0 (Nat.max (length l) (length w))). intros idx.
  assert (∀ acc : list loc, acc ⊆ l ++ w →
            foldl (λ merged i,
                     let merged := match l !! i with
                                   | Some r => merged ++ [r]
                                   | None => merged
                                   end in
                     match w !! i with
                     | Some r => merged ++ [r]
                     | None => merged
                     end) acc idx ⊆ l ++ w) as Hgen.
  { induction idx as [|i idx IH]; intros acc Hacc; [done|].
    simpl. apply IH.
    destruct (l !! i) as [r|] eqn:Hl; destruct (w !! i) as [r'|] eqn:Hw;
      try apply list_elem_of_lookup_2 in Hl; try apply list_elem_of_lookup_2 in Hw;
      set_solver. }
  apply Hgen. set_solver.
Qed.

Lemma dedup_loop_subseteq h k (results : list loc) :
  ∀ unique su sf, dedup_loop h k results unique su sf ⊆ unique ++ results.
Proof.
  induction results as [|r rest IH]; intros unique su sf; simpl.
  - set_solver.
  - destruct (match truthy_url (h !!! r) with
              | Some link => bool_decide (link ∈ su)
              | None => false
              end).
    { etrans; [apply IH|]. set_solver. }
    case_bool_decide.
    { etrans; [apply IH|]. set_solver. }
    destruct (_ >=? _); [set_solver|].
    etrans; [apply IH|]. set_solver.
Qed.

(** The returned list refers to objects of the two input lists. *)
Lemma merge_output_subseteq h local_results web_results strategy max_results :
  (merge_and_rank_results h local_results web_results strategy max_results).2
  ⊆ local_results ++ web_results.
Proof.
  assert (∀ h', rank_unique h' local_results web_results max_results
                ⊆ local_results ++ web_results) as Hrank.
  { intros h'. unfold rank_unique. cbv zeta.
    etrans; [apply sublist_subseteq, py_take_sublist|].
    rewrite sort_desc_perm.
    etrans; [apply dedup_loop_subseteq|]. simpl. by rewrite sort_desc_perm. }
  unfold merge_and_rank_results. repeat case_decide; simpl; try apply Hrank.
  etrans; [apply sublist_subseteq, py_take_sublist|]. apply interleave_subseteq.
Qed.

(** C10.  Under ["local_first"] the call rewrites, in the caller's heap,
    the score of every object of the local list to
    [min(score * 1.3, 1.0)] (each object being listed once), leaves all
    other objects as they were, and returns references to the caller's
    objects, not to copies; a second call reweights the already reweighted
    score again.  Under ["web_first"] the same holds for the web list. *)
Theorem merge_and_rank_mutates (h : heap) (local_results web_results : list loc)
    (max_results : Z) (r : loc) (u : UnifiedResult) :
  h !! r = Some u →
  (NoDup local_results → r ∈ local_results →
     let h1 := (merge_and_rank_results h local_results web_results
                  "local_first" max_results).1 in
     let h2 := (merge_and_rank_results h1 local_results web_results
                  "local_first" max_results).1 in
     h1 !! r = Some (set_score (Qmin (score u * (13 # 10)) 1) u) ∧
     score <$> h2 !! r
       = Some (Qmin (Qmin (score u * (13 # 10)) 1 * (13 # 10)) 1) ∧
     (∀ r', r' ∉ local_results → h1 !! r' = h !! r') ∧
     (merge_and_rank_results h local_results web_results
        "local_first" max_results).2 ⊆ local_results ++ web_results) ∧
  (NoDup web_results → r ∈ web_results →
     let h1 := (merge_and_rank_results h local_results web_results
                  "web_first" max_results).1 in
     let h2 := (merge_and_rank_results h1 local_results web_results
                  "web_first" max_results).1 in
     h1 !! r = Some (set_score (Qmin (score u * (13 # 10)) 1) u) ∧
     score <$> h2 !! r
       = Some (Qmin (Qmin (score u * (13 # 10)) 1 * (13 # 10)) 1) ∧
     (∀ r', r' ∉ web_results → h1 !! r' = h !! r') ∧
     (merge_and_rank_results h local_results web_results
        "web_first" max_results).2 ⊆ local_results ++ web_results).
Proof.
  intros Hu. split; intros Hnd Hr; cbv zeta.
  - split; [|split; [|split]].
    + rewrite merge_heap_local_first, boost_all_in by done. by rewrite Hu.
    + rewrite !merge_heap_local_first, !boost_all_in by done. by rewrite Hu.
    + intros r' Hr'. rewrite merge_heap_local_first. by apply boost_all_notin.
    + apply merge_output_subseteq.
  - split; [|split; [|split]].
    + rewrite merge_heap_web_first, boost_all_in by done. by rewrite Hu.
    + rewrite !merge_heap_web_first, !boost_all_in by done. by rewrite Hu.
    + intros r' Hr'. rewrite merge_heap_web_first. by apply boost_all_notin.
    + apply merge_output_subseteq.
Qed.

(** A score of 0.5 becomes 0.65 after one call under ["local_first"] and
    0.845 after a second one. *)
Lemma merge_and_rank_mutates_witness :
  score <$> (merge_and_rank_results half_heap [0%nat] [1%nat] "local_first" 10).1
              !! 0%nat = Some (Qmin ((5 # 10) * (13 # 10)) 1) ∧
  score <$> (merge_and_rank_results
               (merge_and_rank_results half_heap [0%nat] [1%nat] "local_first" 10).1
               [0%nat] [1%nat] "local_first" 10).1 !! 0%nat
    = Some (Qmin (Qmin ((5 # 10) * (13 # 10)) 1 * (13 # 10)) 1).
Proof.
  destruct (merge_and_rank_mutates half_heap [0%nat] [1%nat] 10 0%nat
              (mkUnifiedResult "local" "a.txt" "alpha" (Some "file:///a.txt") (5 # 10) ∅))
    as [Hlocal _].
  - reflexivity.
  - destruct Hlocal as (H1 & H2 & _).
    + apply NoDup_singleton.
    + apply list_elem_of_singleton. reflexivity.
    + split; [by rewrite H1 | exact H2].
Defined.

(* ===================================================================== *)
(** * The web search endpoint *)
(* ===================================================================== *)

Example parse_engines_example :
  parse_engines "exa|serper" = ["exa"; "serper"]
  ∧ parse_engines " serper , exa,," = ["serper"; "exa"].
Proof. split; vm_compute; reflexivity. Qed.

(** The response has the three keys [engine], [q] and [results], and no
    other. *)
Lemma web_search_keys exa serper engine q query data top_n resp :
  web_search exa serper engine q query data top_n = inr resp →
  dom resp = ({["engine"; "q"; "results"]} : gset string).
Proof.
  unfold web_search. cbv zeta.
  destruct (negb _); [done|]. case_decide; [done|]. intros [= <-].
  rewrite !dom_insert_L. set_solver.
Qed.

(** C2, on the code.  With the engine list ["exa|serper"], exa raising and
    serper returning a result, the endpoint answers with serper's results
    but reports the first engine of the list, ["exa"], as the engine, and
    its response carries no attempt log: neither [attempt_errors] nor
    [engine_used] is a key of it. *)
Theorem web_search_fallback :
  ∃ resp,
    web_search fail_exa ok_serper "exa|serper" None (Some "test") false 3 = inr resp ∧
    resp !! "results" = Some (JResults [mkWebResult "S" "https://s" "serper" "serper"]) ∧
    resp !! "engine" = Some (JStr "exa") ∧
    resp !! "engine" ≠ Some (JStr "serper") ∧
    resp !! "attempt_errors" = None ∧
    resp !! "engine_used" = None.
Proof.
  eexists. split; [vm_compute; reflexivity|].
  repeat split; try (vm_compute; reflexivity). vm_compute. discriminate.
Qed.

(* ===================================================================== *)
(** * More on the chunker *)
(* ===================================================================== *)

Lemma substring_length_in (s : string) :
  ∀ i m, (i + m ≤ String.length s)%nat →
         String.length (String.substring i m s) = m.
Proof.
  induction s as [|c s IH]; intros [|i] [|m]; simpl; intros H; try lia.
  - rewrite IH; lia.
  - apply (IH i 0%nat). lia.
  - apply (IH i (S m)). lia.
Qed.

Lemma slice_length (s : string) (i j : Z) :
  0 ≤ i → i ≤ j → j ≤ PyStr.len s →
  Z.of_nat (String.length (PyStr.slice s i j)) = j - i.
Proof.
  intros Hi Hij Hj. unfold PyStr.slice, PyStr.len in *.
  rewrite substring_length_in; lia.
Qed.

(** The number of windows from position [i], when the advance does not
    exceed the window. *)
Lemma windows_count (text : string) (w step i : Z) (rest : list chunk) :
  0 < step → step ≤ w →
  windows text w step i rest → i < PyStr.len text →
  Z.of_nat (length rest)
  = (if PyStr.len text - i <=? w then 1
     else (PyStr.len text - i - w + step - 1) / step + 1).
Proof.
  intros Hstep Hle Hwin.
  induction Hwin as [i Hi | i Hi Hw | i rest Hi Hw Hrest IH]; intros Hlt.
  - lia.
  - destruct (Z.leb_spec (PyStr.len text - i) w); [done | lia].
  - destruct (Z.leb_spec (PyStr.len text - i) w) as [?|_]; [lia|].
    specialize (IH ltac:(lia)). rewrite length_cons, Nat2Z.inj_succ, IH.
    set (m := PyStr.len text - i - w) in *.
    replace (PyStr.len text - (i + step)) with (m + w - step) by lia.
    destruct (Z.leb_spec (m + w - step) w) as [Hm|Hm].
    + assert ((m + step - 1) / step = 1) as ->; [|lia].
      symmetry. apply (Z.div_unique _ _ 1 (m - 1)); lia.
    + replace (m + w - step - w + step - 1) with (m - 1) by lia.
      replace (m + step - 1) with (m - 1 + 1 * step) by lia.
      rewrite Z.div_add by lia. lia.
Qed.

(** X1.  With an overlap that is not negative and shorter than the window,
    every chunk holds exactly the characters between its offsets and at
    most a window of them, every chunk but the last is a full window, and
    each chunk starts exactly [overlap * 4] characters before the end of
    the previous one. *)
Theorem chunk_text_overlap (fuel : nat) (text : string) (target_tokens overlap : Z) :
  (String.length text ≤ fuel)%nat →
  0 ≤ overlap → overlap * 4 < window target_tokens →
  ∃ chunks : list chunk,
    chunk_text fuel text target_tokens overlap = Some chunks ∧
    (∀ c, c ∈ chunks →
       Z.of_nat (String.length (chunk_body c)) = chunk_end c - chunk_start c ∧
       chunk_end c - chunk_start c ≤ window target_tokens) ∧
    (∀ (k : nat) c c', chunks !! k = Some c → chunks !! S k = Some c' →
       chunk_end c - chunk_start c = window target_tokens ∧
       chunk_end c - chunk_start c' = overlap * 4).
Proof.
  intros Hfuel Ho Hlt.
  destruct (decide (text = "")) as [->|Hne].
  { exists []. unfold chunk_text. rewrite decide_True by done.
    split; [done|]. split; [|done]. intros c Hc. by apply elem_of_nil in Hc. }
  destruct (chunk_text_windows text target_tokens overlap Hne) as (chunks & Hwin & Hrun).
  pose proof (window_ge target_tokens) as Hw.
  assert (advance target_tokens overlap = window target_tokens - overlap * 4) as Hadv.
  { rewrite advance_eq. destruct (Z.ltb_spec 0 (window target_tokens - overlap * 4)); lia. }
  exists chunks. split; [by apply Hrun|]. split.
  - intros c [k Hk]%list_elem_of_lookup.
    destruct (windows_lookup _ _ _ _ _ Hwin k c Hk) as (Hs & He & Hb & Hn & _).
    split; [|lia]. rewrite Hb. apply slice_length; lia.
  - intros k c c' Hk Hk'.
    destruct (windows_lookup _ _ _ _ _ Hwin k c Hk) as (Hs & He & _ & Hn & Hlast).
    destruct (windows_lookup _ _ _ _ _ Hwin (S k) c' Hk') as (Hs' & _).
    assert (chunk_end c ≠ PyStr.len text) as Hnl.
    { intros Heq. specialize (Hlast Heq). apply lookup_lt_Some in Hk'. lia. }
    lia.
Qed.

Lemma chunk_text_overlap_witness :
  ∃ chunks : list chunk,
    chunk_text 450 (String.concat "" (replicate 450 "x")) 10 5 = Some chunks ∧
    (∀ (k : nat) c c', chunks !! k = Some c → chunks !! S k = Some c' →
       chunk_end c - chunk_start c = window 10 ∧
       chunk_end c - chunk_start c' = 5 * 4).
Proof.
  destruct (chunk_text_overlap 450 (String.concat "" (replicate 450 "x")) 10 5)
    as (chunks & Hrun & _ & Hadj).
  - vm_compute. lia.
  - lia.
  - vm_compute. reflexivity.
  - exists chunks. split; [exact Hrun | exact Hadj].
Defined.

(** X2.  A negative overlap makes the advance longer than the window: on
    a text longer than one window, the character right after the first
    window is in no chunk. *)
Theorem chunk_text_negative_overlap (fuel : nat) (text : string)
    (target_tokens overlap : Z) :
  (String.length text ≤ fuel)%nat →
  overlap < 0 → window target_tokens < PyStr.len text →
  ∃ chunks : list chunk,
    chunk_text fuel text target_tokens overlap = Some chunks ∧
    ∀ c, c ∈ chunks →
      ¬ (chunk_start c ≤ window target_tokens < chunk_end c).
Proof.
  intros Hfuel Ho Hlong.
  assert (text ≠ "") as Hne.
  { intros ->. pose proof (window_ge target_tokens). unfold PyStr.len in Hlong.
    simpl in Hlong. lia. }
  destruct (chunk_text_windows text target_tokens overlap Hne) as (chunks & Hwin & Hrun).
  pose proof (window_ge target_tokens) as Hw.
  assert (window target_tokens < advance target_tokens overlap) as Hadv.
  { rewrite advance_eq. destruct (Z.ltb_spec 0 (window target_tokens - overlap * 4)); lia. }
  exists chunks. split; [by apply Hrun|].
  intros c [k Hk]%list_elem_of_lookup.
  destruct (windows_lookup _ _ _ _ _ Hwin k c Hk) as (Hs & He & _).
  destruct k as [|k]; [lia|]. nia.
Qed.

Lemma chunk_text_negative_overlap_witness :
  ∃ chunks : list chunk,
    chunk_text 450 (String.concat "" (replicate 450 "x")) 10 (-5) = Some chunks ∧
    ∀ c, c ∈ chunks → ¬ (chunk_start c ≤ window 10 < chunk_end c).
Proof.
  apply (chunk_text_negative_overlap 450 (String.concat "" (replicate 450 "x")) 10 (-5)).
  - vm_compute. lia.
  - lia.
  - vm_compute. reflexivity.
Defined.

(** X3.  How many chunks a text gives (for a non-negative overlap): one
    when it fits the window, and otherwise one more than the number of
    advances needed to bring the end of the window to the end of the
    text, [ceil((len - window) / advance) + 1]. *)
Theorem chunk_text_count (fuel : nat) (text : string) (target_tokens overlap : Z) :
  (String.length text ≤ fuel)%nat →
  0 ≤ overlap → text ≠ "" →
  ∃ chunks : list chunk,
    chunk_text fuel text target_tokens overlap = Some chunks ∧
    Z.of_nat (length chunks)
    = (if PyStr.len text <=? window target_tokens then 1
       else (PyStr.len text - window target_tokens
             + advance target_tokens overlap - 1)
            / advance target_tokens overlap + 1).
Proof.
  intros Hfuel Ho Hne.
  destruct (chunk_text_windows text target_tokens overlap Hne) as (chunks & Hwin & Hrun).
  exists chunks. split; [by apply Hrun|].
  pose proof (length_nonempty _ Hne) as Hlen.
  rewrite (windows_count _ _ _ _ _ (advance_pos _ _) (advance_le_window _ _ Ho) Hwin)
    by (unfold PyStr.len; lia).
  by rewrite !Z.sub_0_r.
Qed.

Lemma chunk_text_count_witness :
  ∃ chunks : list chunk,
    chunk_text 7000 (String.concat "" (replicate 7000 "x")) 800 80 = Some chunks ∧
    length chunks = 3%nat.
Proof.
  destruct (chunk_text_count 7000 (String.concat "" (replicate 7000 "x")) 800 80)
    as (chunks & Hrun & Hlen).
  - vm_compute. lia.
  - lia.
  - discriminate.
  - exists chunks. split; [exact Hrun|].
    match type of Hlen with
    | _ = ?r => assert (r = 3) as Hr by (vm_compute; reflexivity); rewrite Hr in Hlen
    end.
    lia.
Defined.

(* ===================================================================== *)
(** * More on the indexing stages *)
(* ===================================================================== *)

(** The changed subset, for every mode and flag, as one filter. *)
Lemma diff_changed_any (db : files_table) (s : IndexState) :
  changed (diff db s)
  = filter (λ f, force_reembed s = true ∨
                 is_changed (default "incremental" (mode s)) (row_sha256 <$> db) f = true)
           (files s).
Proof.
  destruct (force_reembed s) eqn:Hforce.
  - unfold diff. rewrite Hforce. simpl. symmetry. apply filter_all. by left.
  - rewrite diff_changed_filter by done. apply list_filter_iff. naive_solver.
Qed.

Lemma diff_fields (db : files_table) (s : IndexState) :
  files (diff db s) = files s ∧
  chunks (diff db s) = chunks s ∧
  errors (diff db s) = errors s ∧
  stats (diff db s) = <["changed" := Z.of_nat (length (changed (diff db s)))]> (stats s).
Proof. unfold diff. destruct (force_reembed s); done. Qed.

(** X4.  Whatever the mode and the flag, [diff] selects among the
    discovered files without reordering, repeating or inventing any, leaves
    the other fields of the state alone, and records the size of its
    selection under [stats["changed"]]. *)
Theorem diff_selects (db : files_table) (s : IndexState) :
  changed (diff db s) `sublist_of` files s ∧
  files (diff db s) = files s ∧
  chunks (diff db s) = chunks s ∧
  errors (diff db s) = errors s ∧
  stats (diff db s) = <["changed" := Z.of_nat (length (changed (diff db s)))]> (stats s).
Proof.
  split; [rewrite diff_changed_any; apply sublist_filter | apply diff_fields].
Qed.

Lemma spans_windows (data : string) :
  data ≠ "" → windows data (window 800) (advance 800 80) 0 (spans data).
Proof.
  intros Hne. destruct (chunk_text_windows data 800 80 Hne) as (cs & Hwin & Hrun).
  pose proof (spans_run data) as Hs. rewrite (Hrun _ (Nat.le_refl _)) in Hs.
  by injection Hs as <-.
Qed.

Lemma spans_empty : spans "" = [].
Proof. done. Qed.

(** A text that is not empty has a first span, starting at 0. *)
Lemma spans_head (data : string) :
  data ≠ "" → ∃ e body, spans data !! 0%nat = Some (0, e, body).
Proof.
  intros Hne. pose proof (spans_windows data Hne) as Hwin.
  pose proof (length_nonempty _ Hne) as Hlen.
  inversion Hwin as [i Hi | i Hi Hw | i rest Hi Hw Hrest]; subst.
  - unfold PyStr.len in Hi. lia.
  - by eexists _, _.
  - by eexists _, _.
Qed.

Lemma elem_of_parsed_chunks rd (s : IndexState) (c : ChunkRec) :
  c ∈ parsed_chunks rd s ↔
  ∃ f (k : nat) cs ce body,
    f ∈ changed s ∧ rd (path f) ≠ "" ∧
    spans (rd (path f)) !! k = Some (cs, ce, body) ∧
    c = mkChunkRec f (Z.of_nat k) cs ce body.
Proof.
  unfold parsed_chunks. rewrite list_elem_of_In, in_flat_map. split.
  - intros (f & Hf & Hc).
    apply list_elem_of_In, list_elem_of_filter in Hf as [Htext Hf].
    apply list_elem_of_In, list_elem_of_lookup in Hc as [k Hk].
    unfold chunk_records in Hk. rewrite list_lookup_imap in Hk.
    apply fmap_Some in Hk as ([[cs ce] body] & Hsp & ->).
    by exists f, k, cs, ce, body.
  - intros (f & k & cs & ce & body & Hf & Htext & Hsp & ->).
    exists f. split.
    + apply list_elem_of_In, list_elem_of_filter. by split.
    + apply list_elem_of_In, list_elem_of_lookup. exists k.
      unfold chunk_records. rewrite list_lookup_imap, Hsp. done.
Qed.

Lemma parse_chunk_fields rd (s s' : IndexState) :
  parse_chunk rd s = Some s' →
  chunks s' = parsed_chunks rd s ∧
  errors s' = errors s ++
    (parse_empty <$> filter (λ f, ¬ has_text rd f) (changed s)) ∧
  changed s' = changed s ∧ files s' = files s ∧
  model s' = model s ∧ embeddings s' = embeddings s ∧
  stats s' = <["chunks" := Z.of_nat (length (parsed_chunks rd s))]> (stats s).
Proof. rewrite parse_chunk_eq. by intros [= <-]. Qed.

(** X5.  [parse_chunk] always completes, and every chunk it records
    belongs to a changed file, carries as index its position among that
    file's spans, lies within the file's text, and holds exactly the
    characters of the text between its two offsets; the chunk count is
    recorded under [stats["chunks"]]. *)
Theorem parse_chunk_slices (read_text_str : string → string) (s : IndexState) :
  ∃ s',
    parse_chunk read_text_str s = Some s' ∧
    stats s' !! "chunks" = Some (Z.of_nat (length (chunks s'))) ∧
    ∀ c, c ∈ chunks s' →
      chunk_file c ∈ changed s ∧
      (∃ k : nat, chunk_idx c = Z.of_nat k ∧
         spans (read_text_str (path (chunk_file c))) !! k
         = Some (char_start c, char_end c, chunk_text_of c)) ∧
      0 ≤ char_start c ∧ char_start c < char_end c ∧
      char_end c ≤ PyStr.len (read_text_str (path (chunk_file c))) ∧
      chunk_text_of c
      = PyStr.slice (read_text_str (path (chunk_file c))) (char_start c) (char_end c).
Proof.
  destruct (parse_chunk read_text_str s) as [s'|] eqn:Hrun;
    [|by rewrite parse_chunk_eq in Hrun].
  destruct (parse_chunk_fields _ _ _ Hrun) as (Hch & _ & _ & _ & _ & _ & Hst).
  exists s'. split; [done|]. split.
  { by rewrite Hst, Hch, lookup_insert_eq. }
  intros c Hc. rewrite Hch in Hc.
  apply elem_of_parsed_chunks in Hc as (f & k & cs & ce & body & Hf & Htext & Hsp & ->).
  simpl. split; [done|]. split; [by exists k|].
  pose proof (spans_windows _ Htext) as Hwin.
  destruct (windows_lookup _ _ _ _ _ Hwin k _ Hsp) as (Hs & He & Hb & Hn & _).
  unfold chunk_start, chunk_end, chunk_body in *. simpl in *.
  pose proof (window_ge 800). pose proof (advance_pos 800 80).
  repeat split; try done; nia.
Qed.

(** X6.  Every changed file goes one way or the other: a file with text
    gets chunks, the first of them with index 0 at offset 0, and no error;
    a file without text gets no chunk and one [parse-empty] error.  The
    errors already in the state are kept, and one is added per changed file
    without text, in the order of the files. *)
Theorem parse_chunk_partition (read_text_str : string → string) (s : IndexState) :
  ∃ s' new_errors,
    parse_chunk read_text_str s = Some s' ∧
    errors s' = errors s ++ new_errors ∧
    new_errors
      = parse_empty <$> filter (λ f, read_text_str (path f) = "") (changed s) ∧
    ∀ f, f ∈ changed s →
      (read_text_str (path f) ≠ "" →
         (∃ c, c ∈ chunks s' ∧ chunk_file c = f ∧ chunk_idx c = 0 ∧ char_start c = 0) ∧
         parse_empty f ∉ new_errors) ∧
      (read_text_str (path f) = "" →
         (∀ c, c ∈ chunks s' → chunk_file c ≠ f) ∧ parse_empty f ∈ new_errors).
Proof.
  destruct (parse_chunk read_text_str s) as [s'|] eqn:Hrun;
    [|by rewrite parse_chunk_eq in Hrun].
  destruct (parse_chunk_fields _ _ _ Hrun) as (Hch & Herr & _).
  exists s', (parse_empty <$> filter (λ f, read_text_str (path f) = "") (changed s)).
  split; [done|]. split.
  { rewrite Herr. f_equal. f_equal. apply list_filter_iff.
    intros f. unfold has_text. split; [apply dec_stable | tauto]. }
  split; [done|]. intros f Hf. split.
  - intros Htext. split.
    + destruct (spans_head _ Htext) as (e & body & Hsp).
      exists (mkChunkRec f (Z.of_nat 0) 0 e body). split; [|done].
      rewrite Hch. apply elem_of_parsed_chunks. by exists f, 0%nat, 0, e, body.
    + intros (f' & Heq & [Hempty _]%list_elem_of_filter)%list_elem_of_fmap.
      unfold parse_empty in Heq. apply (inj (String.app _)) in Heq. congruence.
  - intros Hempty. split.
    + intros c Hc <-. rewrite Hch in Hc.
      apply elem_of_parsed_chunks in Hc as (f & k & cs & ce & body & _ & Htext & _ & ->).
      done.
    + apply list_elem_of_fmap. exists f. split; [done|].
      by apply list_elem_of_filter.
Qed.

(* ===================================================================== *)
(** * Embedding in batches *)
(* ===================================================================== *)

Lemma batches_concat_upto {A} (B : nat) (m : nat) :
  ∀ l : list A, (length l ≤ m * B)%nat →
    concat ((λ k, take B (drop (k * B) l)) <$> seq 0 m) = l.
Proof.
  induction m as [|m IH]; intros l Hl.
  - destruct l; [done | simpl in Hl; lia].
  - simpl. rewrite <- fmap_S_seq, <- list_fmap_compose.
    transitivity (take B l ++ drop B l); [|apply take_drop]. f_equal.
    etrans; [|apply (IH (drop B l)); rewrite length_drop; lia].
    f_equal. apply list_fmap_ext. intros _ k _. simpl.
    by rewrite drop_drop, (Nat.add_comm B).
Qed.

Lemma batches_lookup {A} (B : nat) (l : list A) (k : nat) (b : list A) :
  batches B l !! k = Some b →
  b = take B (drop (k * B) l) ∧ (k < (length l + B - 1) / B)%nat.
Proof.
  unfold batches. rewrite list_lookup_fmap. intros Hk.
  apply fmap_Some in Hk as (k' & [-> Hlt]%lookup_seq & ->). done.
Qed.

(** X7.  The provider calls of [embed_batch] are made on consecutive
    slices of the chunk texts: put end to end the slices give back the
    texts in their order, every slice holds between 1 and 64 texts, and
    there are [ceil(n / 64)] of them. *)
Theorem batches_cover {A} (texts : list A) :
  concat (batches 64 texts) = texts ∧
  Forall (λ b, (1 ≤ length b ≤ 64)%nat) (batches 64 texts) ∧
  length (batches 64 texts) = ((length texts + 63) / 64)%nat.
Proof.
  split; [|split].
  - unfold batches. apply batches_concat_upto.
    pose proof (Nat.div_mod (length texts + 64 - 1) 64 ltac:(lia)) as Hdm.
    pose proof (Nat.mod_upper_bound (length texts + 64 - 1) 64 ltac:(lia)). lia.
  - apply Forall_forall. intros b [k Hk]%list_elem_of_lookup.
    apply batches_lookup in Hk as [-> Hlt].
    rewrite length_take, length_drop.
    pose proof (Nat.div_mod (length texts + 64 - 1) 64 ltac:(lia)) as Hdm.
    pose proof (Nat.mod_upper_bound (length texts + 64 - 1) 64 ltac:(lia)). lia.
  - unfold batches. rewrite length_fmap, length_seq. f_equal. lia.
Qed.

Lemma mapM_embed_length (provider : list string → option (list (list Q)))
    (bs : list (list string)) :
  (∀ b, b ∈ bs → ∃ vs, provider b = Some vs ∧ length vs = length b) →
  ∃ vecs, mapM (embed_texts provider) bs = Some vecs ∧
          length (concat vecs) = length (concat bs).
Proof.
  induction bs as [|b bs IH]; intros Hp.
  - by exists [].
  - destruct IH as (vecs & Hrun & Hlen).
    { intros b' Hb'. apply Hp. by right. }
    destruct (Hp b ltac:(left)) as (vs & Hvs & Hl).
    assert (∃ vs', embed_texts provider b = Some vs' ∧ length vs' = length b)
      as (vs' & Hvs' & Hl').
    { unfold embed_texts. destruct b; [by exists [] | by exists vs]. }
    exists (vs' :: vecs). split.
    + simpl. rewrite Hvs'. simpl. by rewrite Hrun.
    + simpl. rewrite !length_app. lia.
Qed.

Lemma embed_batch_ok (openai_api_key : option string)
    (provider : list string → option (list (list Q))) (s : IndexState) :
  default "" openai_api_key ≠ "" →
  (∀ texts, (1 ≤ length texts ≤ 64)%nat →
            ∃ vs, provider texts = Some vs ∧ length vs = length texts) →
  ∃ s', embed_batch openai_api_key provider s = Some s' ∧
        length (embeddings s') = length (chunks s) ∧
        chunks s' = chunks s ∧ changed s' = changed s ∧ stats s' = stats s.
Proof.
  intros Hkey Hp. unfold embed_batch.
  destruct (chunks s) as [|c cs] eqn:Hc; [by eexists|].
  rewrite decide_False by done. cbv zeta.
  assert (concat (batches 64 (chunk_text_of <$> c :: cs)) = chunk_text_of <$> c :: cs)
    as Hcat.
  { unfold batches. apply batches_concat_upto.
    pose proof (Nat.div_mod (length (chunk_text_of <$> c :: cs) + 64 - 1) 64 ltac:(lia)).
    pose proof (Nat.mod_upper_bound (length (chunk_text_of <$> c :: cs) + 64 - 1) 64
                  ltac:(lia)). lia. }
  destruct (mapM_embed_length provider (batches 64 (chunk_text_of <$> c :: cs)))
    as (vecs & Hrun & Hlen).
  { intros b [k Hk]%list_elem_of_lookup. apply Hp.
    apply batches_lookup in Hk as [-> Hlt].
    rewrite length_take, length_drop.
    pose proof (Nat.div_mod (length (chunk_text_of <$> c :: cs) + 64 - 1) 64 ltac:(lia)).
    pose proof (Nat.mod_upper_bound (length (chunk_text_of <$> c :: cs) + 64 - 1) 64
                  ltac:(lia)). lia. }
  rewrite Hrun. simpl. eexists. split; [done|]. simpl.
  rewrite Hlen, Hcat, length_fmap. by rewrite Hc.
Qed.

(** X8.  Without chunks [embed_batch] yields an empty embedding list
    without looking at the API key or calling the provider.  With chunks
    and a key, if the provider answers every call of at most 64 texts with
    one vector per text, the stage completes with exactly one embedding per
    chunk and leaves the chunks as they are. *)
Theorem embed_batch_aligned (openai_api_key : option string)
    (provider : list string → option (list (list Q))) (s : IndexState) :
  (chunks s = [] →
     embed_batch openai_api_key provider s = Some (set_embeddings [] s)) ∧
  (default "" openai_api_key ≠ "" →
   (∀ texts, (1 ≤ length texts ≤ 64)%nat →
             ∃ vs, provider texts = Some vs ∧ length vs = length texts) →
   ∃ s', embed_batch openai_api_key provider s = Some s' ∧
         length (embeddings s') = length (chunks s) ∧
         chunks s' = chunks s ∧ changed s' = changed s ∧ stats s' = stats s).
Proof.
  split.
  - intros Hc. unfold embed_batch. by rewrite Hc.
  - apply embed_batch_ok.
Qed.

Lemma embed_batch_aligned_witness :
  ∃ s', embed_batch (Some "sk-test") (λ texts, Some ((λ _, [1%Q]) <$> texts))
          (set_chunks [mkChunkRec (mkFileRecord "/d/a.txt" 11 5 "ab12" "text/plain" ".txt")
                         0 0 11 "alpha bravo"] run_one) = Some s' ∧
        length (embeddings s') = 1%nat.
Proof.
  destruct (embed_batch_aligned (Some "sk-test")
              (λ texts, Some ((λ _, [1%Q]) <$> texts))
              (set_chunks [mkChunkRec (mkFileRecord "/d/a.txt" 11 5 "ab12" "text/plain" ".txt")
                             0 0 11 "alpha bravo"] run_one)) as [_ Hrun].
  destruct Hrun as (s' & Hs' & Hlen & _).
  - discriminate.
  - intros texts _. eexists. split; [reflexivity|]. by rewrite length_fmap.
  - exists s'. split; [exact Hs' | exact Hlen].
Defined.

(* ===================================================================== *)
(** * More on vector identifiers and the store *)
(* ===================================================================== *)

Lemma pretty_N_go_no_colon (x : N) (s : string) :
  no_colon s → no_colon (pretty_N_go x s).
Proof.
  revert s. induction (N.lt_wf_0 x) as [x _ IH]; intros s Hs.
  assert (x = 0 ∨ 0 < x)%N as [->|?] by lia.
  - by rewrite pretty_N_go_0.
  - rewrite pretty_N_go_step by done. apply IH.
    { by apply N.div_lt. }
    split; [|done]. unfold pretty_N_char. by repeat case_match.
Qed.

Lemma pretty_N_no_colon (x : N) : no_colon (pretty x).
Proof.
  unfold pretty, pretty_N. case_decide; [by split|].
  by apply pretty_N_go_no_colon.
Qed.

(** The decimal form of an int holds no colon. *)
Lemma pretty_Z_no_colon (x : Z) : no_colon (pretty x).
Proof.
  destruct x as [|p|p]; unfold pretty, pretty_Z.
  - by split.
  - apply pretty_N_no_colon.
  - split; [done|]. apply pretty_N_no_colon.
Qed.

Lemma no_colon_app_colon (s d : string) : ¬ no_colon (s +:+ ":" +:+ d).
Proof. induction s as [|c s IH]; simpl; [by intros [? _] | by intros [_ ?]]. Qed.

(** The last colon of an id separates fingerprint and position, even when
    the fingerprint has colons of its own. *)
Lemma colon_split_inj (s1 s2 d1 d2 : string) :
  no_colon d1 → no_colon d2 →
  s1 +:+ ":" +:+ d1 = s2 +:+ ":" +:+ d2 → s1 = s2 ∧ d1 = d2.
Proof.
  intros H1 H2 Heq.
  change (s1 +:+ String ":" d1 = s2 +:+ String ":" d2) in Heq.
  revert s2 Heq. induction s1 as [|c s1 IH]; intros [|c' s2] Heq.
  - by injection Heq as Heq.
  - injection Heq as _ Heq. subst d1. by destruct (no_colon_app_colon s2 d2).
  - injection Heq as _ Heq. subst d2. by destruct (no_colon_app_colon s1 d1).
  - injection Heq as <- Heq. by destruct (IH _ Heq) as [-> ->].
Qed.

(** X9.  Two chunks get the same vector id only when their files have the
    same fingerprint and they stand at the same position; this holds for
    the fallback fingerprints ["sig:<size>:<mtime>"] too, whose colons
    cannot be confused with the separator. *)
Theorem vector_id_inj (c1 c2 : ChunkRec) :
  vector_id c1 = vector_id c2 ↔
  sha256 (chunk_file c1) = sha256 (chunk_file c2) ∧ chunk_idx c1 = chunk_idx c2.
Proof.
  unfold vector_id. split.
  - intros Heq. apply colon_split_inj in Heq as [Hs Hd];
      [|apply pretty_Z_no_colon..].
    split; [done|]. by apply (inj pretty).
  - by intros [-> ->].
Qed.

Lemma col_upsert_from_zip (ids : list string) :
  ∀ (i : nat) docs metas embs (store : collection),
    (length ids ≤ length (drop i docs))%nat →
    (length ids ≤ length (drop i metas))%nat →
    (length ids ≤ length (drop i embs))%nat →
    col_upsert_from i ids docs metas embs store
    = Some (insert_all
              (zip ids (zip (zip (drop i docs) (drop i metas)) (drop i embs)))
              store).
Proof.
  induction ids as [|vid ids IH]; intros i docs metas embs store Hd Hm He; [done|].
  simpl in Hd, Hm, He.
  destruct (docs !! i) as [d|] eqn:Hdi;
    [|apply lookup_ge_None in Hdi; rewrite length_drop in Hd; lia].
  destruct (metas !! i) as [m|] eqn:Hmi;
    [|apply lookup_ge_None in Hmi; rewrite length_drop in Hm; lia].
  destruct (embs !! i) as [e|] eqn:Hei;
    [|apply lookup_ge_None in Hei; rewrite length_drop in He; lia].
  simpl. rewrite Hdi, Hmi, Hei. simpl.
  rewrite (drop_S docs d i Hdi), (drop_S metas m i Hmi), (drop_S embs e i Hei) in *.
  simpl in *. rewrite IH by lia. done.
Qed.

(** What a successful [upsert_vectors] writes: one pair per chunk. *)
Lemma upsert_vectors_zip dm (col : collection) (s : IndexState) :
  length (stored_embeddings s) = length (chunks s) →
  upsert_vectors dm col s
  = Some (insert_all
            ((λ ce, (vector_id ce.1,
                     (chunk_text_of ce.1, vector_meta dm s ce.1, ce.2)))
               <$> zip (chunks s) (stored_embeddings s))
            col,
          set_stat "upserted" (Z.of_nat (length (chunks s))) s).
Proof.
  intros Hlen. unfold upsert_vectors, upsert_ids. cbv zeta.
  rewrite length_fmap.
  destruct (chunks s) as [|c cs] eqn:Hc.
  { simpl. unfold stored_embeddings in *. rewrite Hc in *.
    destruct (embeddings s); done. }
  assert (col_upsert (vector_id <$> c :: cs) (chunk_text_of <$> c :: cs)
            (vector_meta dm s <$> c :: cs) (embeddings s) col
          = Some (insert_all
                    ((λ ce, (vector_id ce.1,
                             (chunk_text_of ce.1, vector_meta dm s ce.1, ce.2)))
                       <$> zip (c :: cs) (stored_embeddings s)) col)) as Hrun.
  { unfold col_upsert. cbv zeta.
    assert (match embeddings s with
            | [] => (λ _, [0%Q; 0%Q; 0%Q; 0%Q]) <$> (chunk_text_of <$> c :: cs)
            | _ => embeddings s
            end = stored_embeddings s) as ->.
    { unfold stored_embeddings. rewrite Hc.
      destruct (embeddings s); [|done]. by rewrite <- list_fmap_compose. }
    rewrite col_upsert_from_zip by (rewrite ?drop_0, ?length_fmap; lia).
    f_equal. f_equal. rewrite !drop_0.
    revert Hlen. generalize (stored_embeddings s). generalize (c :: cs).
    induction l as [|x l IH]; intros [|e embs] Hl; simpl in *; try done.
    f_equal. apply IH. lia. }
  change (vector_id <$> c :: cs) with (vector_id c :: (vector_id <$> cs)) at 1.
  cbn [fmap list_fmap] in Hrun |- *. rewrite Hrun. done.
Qed.

Lemma insert_all_lookup_nodup {V} (kvs : list (string * V)) (m : gmap string V)
    (k : nat) (kv : string * V) :
  NoDup kvs.*1 → kvs !! k = Some kv → insert_all kvs m !! kv.1 = Some kv.2.
Proof.
  intros Hnd Hk.
  destruct (insert_all_lookup_in kvs m kv.1) as (kv' & Hin & Hkey & ->).
  { apply list_elem_of_fmap. exists kv. split; [done|].
    by eapply list_elem_of_lookup_2. }
  f_equal. f_equal. symmetry.
  apply (NoDup_fmap_eq fst kvs kv kv' Hnd); [|done|done].
  by eapply list_elem_of_lookup_2.
Qed.

(** X10.  Given one embedding per chunk (or none at all, which the store
    replaces by zero vectors), [upsert_vectors] completes and records the
    chunk count under [stats["upserted"]]; the keys of the store are the
    old keys and the chunk ids; an entry under another id is untouched; and
    when the ids are pairwise distinct, chunk [k] is stored under its id
    with its own text, its own metadata and embedding [k]. *)
Theorem upsert_vectors_writes (default_model : string) (col : collection)
    (s : IndexState) :
  length (stored_embeddings s) = length (chunks s) →
  ∃ col',
    upsert_vectors default_model col s
      = Some (col', set_stat "upserted" (Z.of_nat (length (chunks s))) s) ∧
    dom col' = dom col ∪ list_to_set (upsert_ids s) ∧
    (∀ vid, vid ∉ upsert_ids s → col' !! vid = col !! vid) ∧
    (NoDup (upsert_ids s) →
     ∀ (k : nat) c e, chunks s !! k = Some c → stored_embeddings s !! k = Some e →
       col' !! vector_id c = Some (chunk_text_of c, vector_meta default_model s c, e)).
Proof.
  intros Hlen. eexists. split; [by apply upsert_vectors_zip|].
  set (kvs := (λ ce, (vector_id ce.1,
                      (chunk_text_of ce.1, vector_meta default_model s ce.1, ce.2)))
                <$> zip (chunks s) (stored_embeddings s)).
  assert (kvs.*1 = upsert_ids s) as Hkeys.
  { unfold kvs, upsert_ids. rewrite <- list_fmap_compose.
    rewrite <- (fst_zip (chunks s) (stored_embeddings s)) at 2 by lia.
    by rewrite <- list_fmap_compose. }
  split; [|split].
  - rewrite insert_all_dom, Hkeys. set_solver.
  - intros vid Hvid. apply insert_all_lookup_notin. by rewrite Hkeys.
  - intros Hnd k c e Hc He.
    apply (insert_all_lookup_nodup kvs col k
             (vector_id c, (chunk_text_of c, vector_meta default_model s c, e))).
    + by rewrite Hkeys.
    + unfold kvs. rewrite list_lookup_fmap.
      assert (zip (chunks s) (stored_embeddings s) !! k = Some (c, e)) as ->; [|done].
      apply lookup_zip_with_Some. by exists c, e.
Qed.

Lemma upsert_vectors_writes_witness :
  ∃ col',
    upsert_vectors "m" ∅
      (set_chunks [mkChunkRec (mkFileRecord "/d/a.txt" 11 5 "ab12" "text/plain" ".txt")
                     0 0 11 "alpha bravo"] run_one)
    = Some (col',
            set_stat "upserted" 1
              (set_chunks [mkChunkRec (mkFileRecord "/d/a.txt" 11 5 "ab12" "text/plain" ".txt")
                             0 0 11 "alpha bravo"] run_one)) ∧
    dom col' = ({["ab12:0"]} : gset string).
Proof.
  destruct (upsert_vectors_writes "m" ∅
              (set_chunks [mkChunkRec (mkFileRecord "/d/a.txt" 11 5 "ab12" "text/plain" ".txt")
                             0 0 11 "alpha bravo"] run_one))
    as (col' & Hrun & Hdom & _).
  - reflexivity.
  - exists col'. split; [exact Hrun|]. rewrite Hdom. set_solver.
Defined.

(* ===================================================================== *)
(** * The fingerprint table and the whole run *)
(* ===================================================================== *)

(** X11.  [commit_run] never removes a row: the paths of the table after
    it are the old paths and the paths of the changed files.  Committing
    the same files again at the same time changes nothing, and the run
    state is returned untouched. *)
Theorem commit_run_grows (now : string) (db : files_table) (s : IndexState) :
  dom (commit_run now db s).1 = dom db ∪ list_to_set (path <$> changed s) ∧
  (commit_run now (commit_run now db s).1 s).1 = (commit_run now db s).1 ∧
  (commit_run now db s).2 = s.
Proof.
  split; [|split; [|done]].
  - rewrite commit_run_insert_all, insert_all_dom, fmap_fst_rows. set_solver.
  - rewrite !commit_run_insert_all. apply insert_all_idemp.
Qed.

Lemma index_run_stages rd key provider dm now db col s db' col' s' :
  index_run rd key provider dm now db col s = Some (db', col', s') →
  ∃ s1 s2,
    parse_chunk rd (diff db s) = Some s1 ∧
    embed_batch key provider s1 = Some s2 ∧
    upsert_vectors dm col s2 = Some (col', s') ∧
    db' = (commit_run now db s').1.
Proof.
  unfold index_run. cbv zeta. intros Hrun.
  destruct (parse_chunk rd (diff db s)) as [s1|] eqn:H1; [|done]. simpl in Hrun.
  destruct (embed_batch key provider s1) as [s2|] eqn:H2; [|done]. simpl in Hrun.
  destruct (upsert_vectors dm col s2) as [[c t]|] eqn:H3; [|done]. simpl in Hrun.
  injection Hrun as <- <- <-. by exists s1, s2.
Qed.

Lemma embed_batch_fields key provider (s s' : IndexState) :
  embed_batch key provider s = Some s' →
  chunks s' = chunks s ∧ changed s' = changed s ∧ files s' = files s ∧
  errors s' = errors s ∧ stats s' = stats s.
Proof.
  unfold embed_batch. destruct (chunks s) eqn:Hc; [by intros [= <-]|].
  case_decide; [done|]. cbv zeta.
  destruct (mapM _ _); [|done]. by intros [= <-].
Qed.

Lemma upsert_vectors_fields dm col (s : IndexState) col' s' :
  upsert_vectors dm col s = Some (col', s') →
  s' = set_stat "upserted" (Z.of_nat (length (chunks s))) s.
Proof.
  unfold upsert_vectors, upsert_ids. cbv zeta. rewrite length_fmap.
  destruct (match vector_id <$> chunks s with [] => _ | _ => _ end); [|done].
  by intros [= _ <-].
Qed.

(** X12.  A run that completes reports consistent counts: the changed
    count is the size of the changed subset, the chunk count and the
    upserted count are both the number of chunks, and the discovered files
    are passed through; the table then holds a row, stamped with the time
    of the run, for every changed file. *)
Theorem index_run_stats rd key provider dm now db col s db' col' s' :
  index_run rd key provider dm now db col s = Some (db', col', s') →
  files s' = files s ∧
  changed s' = changed (diff db s) ∧
  stats s' !! "changed" = Some (Z.of_nat (length (changed s'))) ∧
  stats s' !! "chunks" = Some (Z.of_nat (length (chunks s'))) ∧
  stats s' !! "upserted" = Some (Z.of_nat (length (chunks s'))) ∧
  (∀ f, f ∈ changed s' →
     ∃ row, db' !! path f = Some row ∧ row_last_indexed_at row = now).
Proof.
  intros (s1 & s2 & Hp & He & Hu & ->)%index_run_stages.
  destruct (parse_chunk_fields _ _ _ Hp) as (Hch1 & _ & Hcg1 & Hf1 & _ & _ & Hst1).
  destruct (embed_batch_fields _ _ _ _ He) as (Hch2 & Hcg2 & Hf2 & _ & Hst2).
  apply upsert_vectors_fields in Hu as ->.
  destruct (diff_fields db s) as (Hf0 & _ & _ & Hst0).
  cbn [files changed chunks stats set_stat].
  rewrite Hf2, Hf1, Hf0, Hcg2, Hcg1, Hch2, Hst2, Hst1, Hst0, Hch1.
  split; [done|]. split; [done|]. split; [by simplify_map_eq|].
  split; [by simplify_map_eq|]. split; [by simplify_map_eq|].
  intros f Hf.
  match goal with |- context [commit_run now db ?t] =>
    destruct (commit_run_row now db t f) as (f' & _ & _ & ->) end.
  - cbn [changed set_stat]. by rewrite Hcg2, Hcg1.
  - by eexists.
Qed.

Lemma index_run_stats_witness :
  ∃ db' col' s',
    index_run read_alpha (Some "sk-test") (λ texts, Some ((λ _, [1%Q]) <$> texts))
      "m" "2025-01-01T00:00:00" ∅ ∅ run_one = Some (db', col', s') ∧
    stats s' !! "upserted" = Some (Z.of_nat (length (chunks s'))).
Proof.
  destruct (index_run read_alpha (Some "sk-test")
              (λ texts, Some ((λ _, [1%Q]) <$> texts))
              "m" "2025-01-01T00:00:00" ∅ ∅ run_one) as [[[db' col'] s']|] eqn:Hrun;
    [|by vm_compute in Hrun].
  exists db', col', s'. split; [reflexivity|].
  destruct (index_run_stats _ _ _ _ _ _ _ _ _ _ _ Hrun) as (_ & _ & _ & _ & Hup & _).
  exact Hup.
Defined.

(** X13.  With an API key, a provider that answers every call with one
    vector per text, and any reader, the run completes: nothing in the
    stages themselves raises. *)
Theorem index_run_completes rd key provider dm now db col s :
  default "" key ≠ "" →
  (∀ texts, (1 ≤ length texts ≤ 64)%nat →
            ∃ vs, provider texts = Some vs ∧ length vs = length texts) →
  is_Some (index_run rd key provider dm now db col s).
Proof.
  intros Hkey Hprov. unfold index_run. cbv zeta.
  rewrite parse_chunk_eq. cbn [mbind option_bind].
  match goal with |- context [embed_batch key provider ?t] =>
    destruct (embed_batch_ok key provider t Hkey Hprov) as (s2 & -> & Hlen & Hch & _)
  end.
  cbn [mbind option_bind]. rewrite upsert_vectors_zip; [done|].
  unfold stored_embeddings. destruct (embeddings s2) eqn:Hes.
  - by rewrite length_fmap.
  - by rewrite Hlen, Hch.
Qed.

Lemma index_run_completes_witness :
  is_Some (index_run read_alpha (Some "sk-test")
             (λ texts, Some ((λ _, [1%Q]) <$> texts)) "m" "2025-01-01T00:00:00"
             ∅ ∅ run_one).
Proof.
  apply index_run_completes.
  - discriminate.
  - intros texts _. eexists. split; [reflexivity|]. by rewrite length_fmap.
Defined.

(* ===================================================================== *)
(** * A second run, and the file lists of the response *)
(* ===================================================================== *)

Lemma is_changed_false (m : string) (db : files_table) (f : FileRecord) :
  is_changed m (row_sha256 <$> db) f = false →
  row_sha256 <$> db !! path f = Some (sha256 f).
Proof.
  unfold is_changed. rewrite lookup_fmap.
  intros [[_ _]%orb_false_iff Hsha%negb_false_iff]%orb_false_iff.
  by apply bool_decide_eq_true in Hsha.
Qed.

(** After a run, the table holds the fingerprint of every discovered file,
    if files found under one path agree on their fingerprint. *)
Lemma commit_after_diff_known (now : string) (db : files_table) (s : IndexState)
    (f : FileRecord) :
  (∀ f g, f ∈ files s → g ∈ files s → path f = path g → sha256 f = sha256 g) →
  f ∈ files s →
  row_sha256 <$>
    insert_all ((λ f, (path f, file_row now f)) <$> changed (diff db s)) db !! path f
  = Some (sha256 f).
Proof.
  intros Hagree Hf.
  assert (∀ g, g ∈ changed (diff db s) → g ∈ files s) as Hsub.
  { intros g. rewrite diff_changed_any. by intros [_ ?]%list_elem_of_filter. }
  destruct (decide (path f ∈ path <$> changed (diff db s))) as [Hin|Hout].
  - destruct (insert_all_lookup_in
                ((λ f, (path f, file_row now f)) <$> changed (diff db s)) db (path f))
      as (kv & Hkv & Hkey & ->).
    { by rewrite fmap_fst_rows. }
    apply list_elem_of_fmap in Hkv as (g & -> & Hg). simpl in *.
    f_equal. apply Hagree; auto.
  - rewrite insert_all_lookup_notin by (by rewrite fmap_fst_rows).
    assert (f ∉ changed (diff db s)) as Hnot.
    { intros Hc. apply Hout. apply list_elem_of_fmap. by exists f. }
    rewrite diff_changed_any, list_elem_of_filter in Hnot.
    destruct (is_changed (default "incremental" (mode s)) (row_sha256 <$> db) f) eqn:Hch.
    + destruct Hnot. split; [by right | done].
    + by apply is_changed_false in Hch.
Qed.

Lemma elem_of_sorted_paths (X : gset string) (p : string) :
  p ∈ sorted_paths X ↔ p ∈ X.
Proof. unfold sorted_paths. by rewrite merge_sort_Permutation, elem_of_elements. Qed.

Lemma sorted_paths_to_set (X : gset string) : list_to_set (sorted_paths X) = X.
Proof.
  apply set_eq. intros p. by rewrite elem_of_list_to_set, elem_of_sorted_paths.
Qed.

Lemma sorted_paths_empty : sorted_paths ∅ = [].
Proof. unfold sorted_paths. by rewrite elements_empty. Qed.

Lemma unchanged_files_eq (r : IndexState) :
  unchanged_files r = sorted_paths (path_set (files r) ∖ path_set (changed r)).
Proof.
  unfold unchanged_files, scanned_files, changed_files.
  by rewrite !sorted_paths_to_set.
Qed.

Lemma path_set_sublist (l1 l2 : list FileRecord) :
  (∀ f, f ∈ l1 → f ∈ l2) → path_set l1 ⊆ path_set l2.
Proof.
  intros Hsub p. unfold path_set. rewrite !elem_of_list_to_set, !list_elem_of_filter.
  intros [Hp (f & -> & Hf)%list_elem_of_fmap]. split; [done|].
  apply list_elem_of_fmap. exists f. auto.
Qed.

Lemma filter_none {A} (P : A → Prop) `{∀ x, Decision (P x)} (l : list A) :
  (∀ x, x ∈ l → ¬ P x) → filter P l = [].
Proof.
  intros Hl. induction l as [|x l IH]; [done|].
  rewrite filter_cons_False by (apply Hl; left).
  apply IH. intros y Hy. apply Hl. by right.
Qed.

(** X14.  An incremental run that follows a completed run over the same
    discovered files (files found under one path agreeing on their
    fingerprint) is a no-op: it completes whatever the reader, the API key
    and the provider do, selects no file, makes no chunk, and returns the
    table and the store exactly as the first run left them; its response
    lists every scanned path as unchanged. *)
Theorem index_run_again rd key provider dm now db col s db1 col1 s1
    rd' key' provider' dm' now' s2 :
  index_run rd key provider dm now db col s = Some (db1, col1, s1) →
  (∀ f g, f ∈ files s → g ∈ files s → path f = path g → sha256 f = sha256 g) →
  files s2 = files s → force_reembed s2 = false → mode s2 ≠ Some "full" →
  ∃ s2',
    index_run rd' key' provider' dm' now' db1 col1 s2 = Some (db1, col1, s2') ∧
    changed s2' = [] ∧ chunks s2' = [] ∧ errors s2' = errors s2 ∧
    changed_files s2' = [] ∧ unchanged_files s2' = scanned_files s2'.
Proof.
  intros (t1 & t2 & Hp & He & Hu & ->)%index_run_stages Hagree Hfiles Hforce Hmode.
  assert (changed s1 = changed (diff db s)) as Hcg.
  { apply upsert_vectors_fields in Hu as ->.
    destruct (parse_chunk_fields _ _ _ Hp) as (_ & _ & Hcg1 & _).
    destruct (embed_batch_fields _ _ _ _ He) as (_ & Hcg2 & _).
    cbn [changed set_stat]. by rewrite Hcg2, Hcg1. }
  rewrite commit_run_insert_all, Hcg.
  set (db1 := insert_all _ db).
  assert (changed (diff db1 s2) = []) as Hnone.
  { rewrite diff_changed_filter by done. rewrite Hfiles.
    assert (default "incremental" (mode s2) ≠ "full") as Hm.
    { destruct (mode s2) as [m|]; simpl; [congruence | done]. }
    apply filter_none. intros f Hf.
    rewrite (is_changed_incremental _ _ _ Hm).
    pose proof (commit_after_diff_known now db s f Hagree Hf) as Hknown.
    fold db1 in Hknown. destruct (db1 !! path f) as [row|]; simpl in Hknown; [|done].
    intros [?|(row' & [= <-] & Hne)]; [done|]. congruence. }
  destruct (diff_fields db1 s2) as (Hf2 & _ & Herr2 & _).
  unfold index_run. cbv zeta. rewrite parse_chunk_eq.
  unfold parsed_chunks. rewrite Hnone. cbn [filter list_filter flat_map fmap list_fmap].
  rewrite app_nil_r. cbn [mbind option_bind].
  unfold embed_batch. cbn [chunks set_stat set_chunks set_errors].
  cbn [mbind option_bind]. unfold upsert_vectors, upsert_ids.
  cbn [chunks set_stat set_chunks set_errors set_embeddings fmap list_fmap].
  cbn [mbind option_bind]. unfold commit_run.
  cbn [changed set_stat set_chunks set_errors set_embeddings].
  rewrite Hnone. cbn [foldl].
  eexists. split; [done|]. cbn [changed chunks errors].
  split; [done|]. split; [done|]. split; [done|].
  rewrite unchanged_files_eq. unfold changed_files, scanned_files.
  unfold set_stat, set_embeddings, set_chunks, set_errors. cbn [changed files].
  rewrite Hnone.
  assert (path_set [] = (∅ : gset string)) as -> by done.
  split; [apply sorted_paths_empty|]. f_equal. set_solver.
Qed.

Lemma index_run_again_witness :
  ∃ db1 col1 s1 s2',
    index_run read_alpha (Some "sk-test") (λ texts, Some ((λ _, [1%Q]) <$> texts))
      "m" "2025-01-01T00:00:00" ∅ ∅ run_one = Some (db1, col1, s1) ∧
    index_run read_alpha None (λ _, None) "m" "2025-01-02T00:00:00" db1 col1
      (incremental_state ["/d"] None false (files run_one)) = Some (db1, col1, s2') ∧
    changed s2' = [] ∧ changed_files s2' = [].
Proof.
  destruct (index_run read_alpha (Some "sk-test")
              (λ texts, Some ((λ _, [1%Q]) <$> texts))
              "m" "2025-01-01T00:00:00" ∅ ∅ run_one) as [[[db1 col1] s1]|] eqn:Hrun;
    [|by vm_compute in Hrun].
  destruct (index_run_again _ _ _ _ _ _ _ _ _ _ _ read_alpha None (λ _, None) "m"
              "2025-01-02T00:00:00"
              (incremental_state ["/d"] None false (files run_one)) Hrun)
    as (s2' & Hrun2 & Hch & _ & _ & Hcf & _).
  - intros f g [->|[]%elem_of_nil]%elem_of_cons [->|[]%elem_of_nil]%elem_of_cons _.
    reflexivity.
  - reflexivity.
  - reflexivity.
  - discriminate.
  - exists db1, col1, s1, s2'. split; [reflexivity|]. split; [exact Hrun2|].
    split; [exact Hch | exact Hcf].
Defined.

Lemma sorted_paths_sorted (X : gset string) :
  Sorted String.le (sorted_paths X) ∧ NoDup (sorted_paths X).
Proof.
  split.
  - apply (Sorted_merge_sort String.le).
  - unfold sorted_paths. rewrite merge_sort_Permutation. apply NoDup_elements.
Qed.

Lemma index_run_result_fields rd key provider dm now db col s db' col' r :
  index_run rd key provider dm now db col s = Some (db', col', r) →
  files r = files s ∧ changed r = changed (diff db s).
Proof.
  intros (t1 & t2 & Hp & He & Hu & _)%index_run_stages.
  apply upsert_vectors_fields in Hu as ->.
  destruct (parse_chunk_fields _ _ _ Hp) as (_ & _ & Hcg1 & Hf1 & _).
  destruct (embed_batch_fields _ _ _ _ He) as (_ & Hcg2 & Hf2 & _).
  cbn [files changed set_stat]. rewrite Hf2, Hf1, Hcg2, Hcg1.
  split; [apply diff_fields | done].
Qed.

(** X15.  The three file lists of an indexing response: the scanned list
    holds the non-empty paths of the discovered files, every scanned path
    is listed as changed or as unchanged and never as both, and each list
    is in ascending order without repetition. *)
Theorem index_response_lists rd key provider dm now db col s db' col' r :
  index_run rd key provider dm now db col s = Some (db', col', r) →
  (∀ p, p ∈ scanned_files r ↔ p ≠ "" ∧ ∃ f, f ∈ files s ∧ path f = p) ∧
  (∀ p, p ∈ scanned_files r ↔ p ∈ changed_files r ∨ p ∈ unchanged_files r) ∧
  (∀ p, ¬ (p ∈ changed_files r ∧ p ∈ unchanged_files r)) ∧
  (Sorted String.le (scanned_files r) ∧ NoDup (scanned_files r)) ∧
  (Sorted String.le (changed_files r) ∧ NoDup (changed_files r)) ∧
  (Sorted String.le (unchanged_files r) ∧ NoDup (unchanged_files r)).
Proof.
  intros [Hf Hc]%index_run_result_fields.
  assert (path_set (changed r) ⊆ path_set (files r)) as Hsub.
  { apply path_set_sublist. intros f. rewrite Hc, Hf, diff_changed_any.
    by intros [_ ?]%list_elem_of_filter. }
  split; [|split; [|split]].
  - intros p. unfold scanned_files. rewrite elem_of_sorted_paths. unfold path_set.
    rewrite elem_of_list_to_set, list_elem_of_filter, list_elem_of_fmap, Hf.
    naive_solver.
  - intros p. rewrite unchanged_files_eq. unfold scanned_files, changed_files.
    rewrite !elem_of_sorted_paths, elem_of_difference.
    destruct (decide (p ∈ path_set (changed r))); set_solver.
  - intros p. rewrite unchanged_files_eq. unfold changed_files.
    rewrite !elem_of_sorted_paths. set_solver.
  - repeat split; apply sorted_paths_sorted.
Qed.

Lemma index_response_lists_witness :
  ∃ db' col' r,
    index_run read_alpha (Some "sk-test") (λ texts, Some ((λ _, [1%Q]) <$> texts))
      "m" "2025-01-01T00:00:00" ∅ ∅ run_one = Some (db', col', r) ∧
    ∀ p, p ∈ scanned_files r ↔ p ∈ changed_files r ∨ p ∈ unchanged_files r.
Proof.
  destruct (index_run read_alpha (Some "sk-test")
              (λ texts, Some ((λ _, [1%Q]) <$> texts))
              "m" "2025-01-01T00:00:00" ∅ ∅ run_one) as [[[db' col'] r]|] eqn:Hrun;
    [|by vm_compute in Hrun].
  exists db', col', r. split; [reflexivity|].
  exact (proj1 (proj2 (index_response_lists _ _ _ _ _ _ _ _ _ _ _ Hrun))).
Defined.

(** X16.  A full index request re-embeds everything: whatever the
    fingerprint table holds, a run from the state [index_full] builds
    selects every discovered file, so that its response lists every scanned
    path as changed and none as unchanged. *)
Theorem index_full_all_changed rd key provider dm now db col roots model found
    db' col' r :
  index_run rd key provider dm now db col (full_state roots model found)
    = Some (db', col', r) →
  changed r = found ∧
  changed_files r = scanned_files r ∧
  unchanged_files r = [].
Proof.
  intros [Hf Hc]%index_run_result_fields.
  assert (changed r = found) as Hall by (by rewrite Hc).
  split; [done|]. rewrite unchanged_files_eq. unfold changed_files, scanned_files.
  rewrite Hall, Hf. cbn [files full_state]. split; [done|].
  assert (path_set found ∖ path_set found = (∅ : gset string)) as -> by set_solver.
  apply sorted_paths_empty.
Qed.

Lemma index_full_all_changed_witness :
  ∃ db' col' r,
    index_run read_alpha (Some "sk-test") (λ texts, Some ((λ _, [1%Q]) <$> texts))
      "m" "2025-01-01T00:00:00" ∅ ∅ (full_state ["/d"] None (files run_one))
    = Some (db', col', r) ∧
    unchanged_files r = [].
Proof.
  destruct (index_run read_alpha (Some "sk-test")
              (λ texts, Some ((λ _, [1%Q]) <$> texts))
              "m" "2025-01-01T00:00:00" ∅ ∅ (full_state ["/d"] None (files run_one)))
    as [[[db' col'] r]|] eqn:Hrun; [|by vm_compute in Hrun].
  exists db', col', r. split; [reflexivity|].
  exact (proj2 (proj2 (index_full_all_changed _ _ _ _ _ _ _ _ _ _ _ _ _ Hrun))).
Defined.

(* ===================================================================== *)
(** * More on merging and ranking *)
(* ===================================================================== *)

Section Ranking.

Variable h : heap.

Local Abbreviation ranks_before := (ranks_before h).

Lemma ranks_before_trans a b c :
  ranks_before a b → ranks_before b c → ranks_before a c.
Proof. unfold ranks_before. intros Hab Hbc. by apply (Qle_trans _ _ _ Hbc Hab). Qed.

Lemma insert_desc_sorted (r : loc) (l : list loc) :
  StronglySorted ranks_before l → StronglySorted ranks_before (insert_desc h r l).
Proof.
  induction 1 as [|r' l Hl IH Hall]; simpl.
  - by repeat constructor.
  - destruct (Qle_bool _ _) eqn:Hle.
    + apply Qle_bool_iff in Hle. constructor; [by constructor|].
      constructor; [done|].
      eapply Forall_impl; [exact Hall|]. intros c Hc.
      by apply (ranks_before_trans r r' c).
    + assert (ranks_before r' r) as Hlt.
      { unfold ranks_before. apply Qlt_le_weak, Qnot_le_lt.
        intros Hc. apply Qle_bool_iff in Hc. congruence. }
      constructor; [done|].
      rewrite (insert_desc_perm h r l). by constructor.
Qed.

Lemma sort_desc_sorted (l : list loc) : StronglySorted ranks_before (sort_desc h l).
Proof.
  induction l as [|r l IH]; simpl; [constructor | by apply insert_desc_sorted].
Qed.

Lemma strongly_sorted_lookup (l : list loc) (i j : nat) (a b : loc) :
  StronglySorted ranks_before l → (i < j)%nat →
  l !! i = Some a → l !! j = Some b → ranks_before a b.
Proof.
  intros Hs. revert i j. induction Hs as [|x l Hl IH Hall]; intros i j Hij Hi Hj.
  - done.
  - destruct j as [|j]; [lia|]. destruct i as [|i].
    + injection Hi as <-. simpl in Hj.
      apply (proj1 (Forall_forall _ _) Hall). by eapply list_elem_of_lookup_2.
    + simpl in *. apply (IH i j); [lia | done | done].
Qed.

Lemma strongly_sorted_take (k : nat) (l : list loc) :
  StronglySorted ranks_before l → StronglySorted ranks_before (take k l).
Proof.
  intros Hs. revert k. induction Hs as [|x l Hl IH Hall]; intros [|k]; simpl;
    try constructor; [apply IH|].
  apply Forall_forall. intros y Hy.
  apply (proj1 (Forall_forall _ _) Hall).
  by apply (sublist_subseteq _ _ (sublist_take l k)).
Qed.

Lemma rank_unique_sorted (local_results web_results : list loc) (max_results : Z) :
  StronglySorted ranks_before (rank_unique h local_results web_results max_results).
Proof.
  unfold rank_unique, py_take. cbv zeta.
  destruct (_ <? _); apply strongly_sorted_take, sort_desc_sorted.
Qed.

(** The loop keeps at most one result per non-empty content fingerprint,
    given that every fingerprint met so far is in the seen set. *)
Lemma dedup_loop_unique_fps (max_results : Z) (results : list loc) :
  ∀ unique_results seen_urls seen_fps,
    (∀ r, r ∈ unique_results → content_fp (h !!! r) ≠ "" →
          content_fp (h !!! r) ∈ seen_fps) →
    (∀ fp, fp ≠ "" → (fp_count h fp unique_results ≤ 1)%nat) →
    ∀ fp, fp ≠ "" →
      (fp_count h fp
         (dedup_loop h max_results results unique_results seen_urls seen_fps) ≤ 1)%nat.
Proof.
  induction results as [|r rest IH]; intros unique su sf Hseen Huniq; [done|].
  simpl.
  destruct (match truthy_url (h !!! r) with
            | Some link => bool_decide (link ∈ su)
            | None => false
            end); [by apply IH|].
  case_bool_decide as Hfp; [by apply IH|].
  assert (∀ fp, fp ≠ "" → (fp_count h fp (unique ++ [r]) ≤ 1)%nat) as Huniq'.
  { intros fp Hne. unfold fp_count in *. rewrite filter_app, length_app.
    destruct (decide (content_fp (h !!! r) = fp)) as [Heq|Hneq].
    - rewrite (filter_none _ unique).
      + rewrite (filter_cons_True _ r []) by done. simpl. lia.
      + intros r' Hr' Hfp'. apply Hfp. rewrite Heq, <- Hfp'.
        apply Hseen; [done | congruence].
    - rewrite (filter_cons_False _ r []) by done. specialize (Huniq fp Hne).
      simpl. lia. }
  destruct (_ >=? _); [by apply Huniq'|].
  apply IH; [|done].
  intros r' [Hr'| ->%list_elem_of_singleton]%elem_of_app Hne.
  - case_decide; [by apply Hseen | apply elem_of_union_r; by apply Hseen].
  - rewrite decide_False by done. set_solver.
Qed.

Lemma dedup_loop_keeps (max_results : Z) (results : list loc) :
  ∀ unique su sf r,
    r ∈ unique → r ∈ dedup_loop h max_results results unique su sf.
Proof.
  induction results as [|r0 rest IH]; intros unique su sf r Hr; [done|].
  simpl.
  destruct (match truthy_url (h !!! r0) with
            | Some link => bool_decide (link ∈ su)
            | None => false
            end); [by apply IH|].
  case_bool_decide; [by apply IH|].
  destruct (_ >=? _); [set_solver|]. apply IH. set_solver.
Qed.

Lemma dedup_loop_length (max_results : Z) (results : list loc) :
  ∀ unique su sf,
    (length (dedup_loop h max_results results unique su sf)
     ≤ length unique + length results)%nat.
Proof.
  induction results as [|r0 rest IH]; intros unique su sf; simpl; [lia|].
  destruct (match truthy_url (h !!! r0) with
            | Some link => bool_decide (link ∈ su)
            | None => false
            end); [etrans; [apply IH|]; lia|].
  case_bool_decide; [etrans; [apply IH|]; lia|].
  destruct (_ >=? _); [rewrite length_app; simpl; lia|].
  etrans; [apply IH|]. rewrite length_app. simpl. lia.
Qed.

Lemma represented_mono (out out' : list loc) (r : loc) :
  (∀ x, x ∈ out → x ∈ out') → represented h out r → represented h out' r.
Proof.
  intros Hsub [Hr|(r' & Hr' & Hdup)]; [left; auto | right; exists r'; auto].
Qed.

(** When the bound cannot cut the list short, the loop drops a result only
    for one it keeps: every result it went through is represented in what
    it returns. *)
Lemma dedup_loop_represented (max_results : Z) (results : list loc) :
  ∀ unique su sf,
    (∀ link, link ∈ su →
       ∃ r', r' ∈ unique ∧ truthy_url (h !!! r') = Some link) →
    (∀ fp, fp ∈ sf → ∃ r', r' ∈ unique ∧ content_fp (h !!! r') = fp) →
    Z.of_nat (length unique + length results) ≤ max_results →
    ∀ r, r ∈ results →
      represented h (dedup_loop h max_results results unique su sf) r.
Proof.
  induction results as [|r0 rest IH]; intros unique su sf Hsu Hsf Hlen r Hr;
    [by apply elem_of_nil in Hr|].
  simpl in Hlen. simpl.
  destruct (truthy_url (h !!! r0)) as [l0|] eqn:Hurl.
  - case_bool_decide as Hin.
    { apply elem_of_cons in Hr as [->|Hr]; [|apply IH; auto; lia].
      destruct (Hsu l0 Hin) as (r' & Hr' & Hl').
      right. exists r'. split; [by apply dedup_loop_keeps|]. left. by exists l0. }
    case_bool_decide as Hfp.
    { apply elem_of_cons in Hr as [->|Hr]; [|apply IH; auto; lia].
      destruct (Hsf _ Hfp) as (r' & Hr' & Hf').
      right. exists r'. split; [by apply dedup_loop_keeps | by right]. }
    destruct (Z.geb_spec (Z.of_nat (length (unique ++ [r0]))) max_results) as [Hge|Hlt].
    { rewrite length_app in Hge. simpl in Hge.
      assert (rest = []) as -> by (destruct rest; [done | simpl in Hlen; lia]).
      apply list_elem_of_singleton in Hr as ->. left. set_solver. }
    apply elem_of_cons in Hr as [->|Hr].
    { left. apply dedup_loop_keeps. set_solver. }
    apply IH; [| |rewrite length_app; simpl; lia|done].
    + intros link [->%elem_of_singleton|Hl]%elem_of_union.
      * exists r0. split; [set_solver | done].
      * destruct (Hsu link Hl) as (r' & Hr' & ?). exists r'. split; [set_solver|done].
    + intros fp Hf. case_decide.
      * destruct (Hsf fp Hf) as (r' & Hr' & ?). exists r'. split; [set_solver|done].
      * apply elem_of_union in Hf as [->%elem_of_singleton|Hf].
        -- exists r0. split; [set_solver | done].
        -- destruct (Hsf fp Hf) as (r' & Hr' & ?). exists r'. split; [set_solver|done].
  - case_bool_decide as Hfp.
    { apply elem_of_cons in Hr as [->|Hr]; [|apply IH; auto; lia].
      destruct (Hsf _ Hfp) as (r' & Hr' & Hf').
      right. exists r'. split; [by apply dedup_loop_keeps | by right]. }
    destruct (Z.geb_spec (Z.of_nat (length (unique ++ [r0]))) max_results) as [Hge|Hlt].
    { rewrite length_app in Hge. simpl in Hge.
      assert (rest = []) as -> by (destruct rest; [done | simpl in Hlen; lia]).
      apply list_elem_of_singleton in Hr as ->. left. set_solver. }
    apply elem_of_cons in Hr as [->|Hr].
    { left. apply dedup_loop_keeps. set_solver. }
    apply IH; [| |rewrite length_app; simpl; lia|done].
    + intros link Hl.
      destruct (Hsu link Hl) as (r' & Hr' & ?). exists r'. split; [set_solver|done].
    + intros fp Hf. case_decide.
      * destruct (Hsf fp Hf) as (r' & Hr' & ?). exists r'. split; [set_solver|done].
      * apply elem_of_union in Hf as [->%elem_of_singleton|Hf].
        -- exists r0. split; [set_solver | done].
        -- destruct (Hsf fp Hf) as (r' & Hr' & ?). exists r'. split; [set_solver|done].
Qed.

End Ranking.

(** X17.  Under every strategy but ["interleaved"], the returned list is
    ranked: a result never stands before one with a higher score, the
    scores being those after the strategy's adjustment. *)
Theorem merge_and_rank_sorted (h : heap) (local_results web_results : list loc)
    (strategy : string) (max_results : Z) (i j : nat) (a b : loc) :
  strategy ≠ "interleaved" →
  (i < j)%nat →
  (merge_and_rank_results h local_results web_results strategy max_results).2 !! i
    = Some a →
  (merge_and_rank_results h local_results web_results strategy max_results).2 !! j
    = Some b →
  (score ((merge_and_rank_results h local_results web_results strategy max_results).1
            !!! b)
   <= score ((merge_and_rank_results h local_results web_results strategy max_results).1
               !!! a))%Q.
Proof.
  intros Hs Hij. unfold merge_and_rank_results.
  repeat case_decide; try done; cbn [fst snd]; intros Ha Hb;
    eapply (strongly_sorted_lookup _ _ i j a b (rank_unique_sorted _ _ _ _)); eauto.
Qed.

Lemma merge_and_rank_sorted_witness :
  (score ((merge_and_rank_results half_heap [0%nat] [1%nat] "web_first" 10).1 !!! 0%nat)
   <= score ((merge_and_rank_results half_heap [0%nat] [1%nat] "web_first" 10).1
               !!! 1%nat))%Q.
Proof.
  apply (merge_and_rank_sorted half_heap [0%nat] [1%nat] "web_first" 10 0 1 1%nat 0%nat).
  - discriminate.
  - lia.
  - vm_compute. reflexivity.
  - vm_compute. reflexivity.
Defined.

(** X18.  Under every strategy but ["interleaved"], no two returned
    results have the same non-empty content fingerprint (the lower-cased,
    stripped first 200 characters of the content). *)
Theorem merge_and_rank_distinct_content (h : heap)
    (local_results web_results : list loc) (strategy : string) (max_results : Z)
    (fp : string) :
  strategy ≠ "interleaved" → fp ≠ "" →
  (fp_count (merge_and_rank_results h local_results web_results strategy max_results).1
     fp
     (merge_and_rank_results h local_results web_results strategy max_results).2
   ≤ 1)%nat.
Proof.
  intros Hs Hfp.
  assert (∀ h', (fp_count h' fp (rank_unique h' local_results web_results max_results)
                 ≤ 1)%nat) as Hrank.
  { intros h'. unfold rank_unique. cbv zeta.
    assert (∀ l1 l2 : list loc, l1 `sublist_of` l2 →
              (fp_count h' fp l1 ≤ fp_count h' fp l2)%nat) as Hsub.
    { intros l1 l2 Hl. unfold fp_count.
      induction Hl as [|r l1 l2 Hl IH|r l1 l2 Hl IH]; [done| |].
      - destruct (decide (content_fp (h' !!! r) = fp)).
        + rewrite !filter_cons_True by done. simpl. lia.
        + by rewrite !filter_cons_False by done.
      - destruct (decide (content_fp (h' !!! r) = fp)).
        + rewrite filter_cons_True by done. simpl. lia.
        + by rewrite filter_cons_False by done. }
    etrans; [apply Hsub, py_take_sublist|].
    unfold fp_count at 1. rewrite (sort_desc_perm h' _).
    apply dedup_loop_unique_fps; [|intros; unfold fp_count; simpl; lia|done].
    intros r Hr. by apply elem_of_nil in Hr. }
  unfold merge_and_rank_results. repeat case_decide; try done; apply Hrank.
Qed.

Lemma merge_and_rank_distinct_content_witness :
  (fp_count (merge_and_rank_results twin_heap [0%nat] [1%nat] "balanced" 10).1
     "alpha"
     (merge_and_rank_results twin_heap [0%nat] [1%nat] "balanced" 10).2 ≤ 1)%nat.
Proof.
  apply (merge_and_rank_distinct_content twin_heap [0%nat] [1%nat] "balanced" 10 "alpha");
    discriminate.
Defined.

(** X19.  Under every strategy but ["interleaved"], when [max_results] is
    at least the number of inputs, nothing is lost but duplicates: every
    input result is returned, or a returned result has the same non-empty
    link or the same content fingerprint. *)
Theorem merge_and_rank_keeps (h : heap) (local_results web_results : list loc)
    (strategy : string) (max_results : Z) (r : loc) :
  strategy ≠ "interleaved" →
  Z.of_nat (length local_results + length web_results) ≤ max_results →
  r ∈ local_results ++ web_results →
  represented
    (merge_and_rank_results h local_results web_results strategy max_results).1
    (merge_and_rank_results h local_results web_results strategy max_results).2 r.
Proof.
  intros Hs Hlen Hr.
  assert (∀ h', represented h' (rank_unique h' local_results web_results max_results) r)
    as Hrank.
  { intros h'. unfold rank_unique. cbv zeta.
    set (all_results := local_results ++ web_results) in *.
    set (unique := dedup_loop h' max_results (sort_desc h' all_results) [] ∅ ∅).
    assert (length unique ≤ length all_results)%nat as Hul.
    { unfold unique. etrans; [apply dedup_loop_length|].
      simpl. by rewrite (sort_desc_perm h' all_results). }
    assert (py_take max_results (sort_desc h' unique) = sort_desc h' unique) as ->.
    { unfold py_take. unfold all_results in Hul. rewrite length_app in Hul.
      destruct (Z.ltb_spec max_results 0); [lia|].
      apply take_ge. rewrite (sort_desc_perm h' unique). lia. }
    apply (represented_mono h' unique).
    { intros x Hx. by rewrite (sort_desc_perm h' unique). }
    apply dedup_loop_represented.
    - intros link Hl. by apply elem_of_empty in Hl.
    - intros fp Hf. by apply elem_of_empty in Hf.
    - simpl. rewrite (sort_desc_perm h' all_results).
      unfold all_results. rewrite length_app. lia.
    - by rewrite (sort_desc_perm h' all_results). }
  unfold merge_and_rank_results. repeat case_decide; try done; apply Hrank.
Qed.

Lemma merge_and_rank_keeps_witness :
  represented
    (merge_and_rank_results twin_heap [0%nat] [1%nat] "balanced" 10).1
    (merge_and_rank_results twin_heap [0%nat] [1%nat] "balanced" 10).2 1%nat.
Proof.
  apply (merge_and_rank_keeps twin_heap [0%nat] [1%nat] "balanced" 10 1%nat).
  - discriminate.
  - simpl. lia.
  - apply elem_of_app. right. apply list_elem_of_singleton. reflexivity.
Defined.

(* ===================================================================== *)
(** * The interleaved strategy, and what merging leaves alone *)
(* ===================================================================== *)

Lemma alternate_nil_r {A} (l : list A) : alternate l [] = l.
Proof. by destruct l. Qed.

Lemma alternate_perm {A} (l w : list A) : alternate l w ≡ₚ l ++ w.
Proof.
  revert w. induction l as [|x l IH]; intros [|y w]; simpl; try done.
  - by rewrite app_nil_r.
  - rewrite IH. by rewrite (Permutation_middle l w y).
Qed.

Lemma alternate_lookup {A} (l w : list A) (i : nat) :
  (i < length l)%nat → (i < length w)%nat →
  alternate l w !! (2 * i)%nat = l !! i ∧
  alternate l w !! (2 * i + 1)%nat = w !! i.
Proof.
  revert w i. induction l as [|x l IH]; intros [|y w] [|i] Hl Hw;
    simpl in *; try lia; [done|].
  replace (i + S (i + 0))%nat with (S (2 * i)) by lia.
  replace (i + S (i + 0) + 1)%nat with (S (2 * i + 1)) by lia.
  simpl. apply IH; lia.
Qed.

Lemma alternate_tail {A} (l w : list A) :
  drop (2 * Nat.min (length l) (length w)) (alternate l w)
  = drop (Nat.min (length l) (length w)) l ++ drop (Nat.min (length l) (length w)) w.
Proof.
  revert w. induction l as [|x l IH]; intros [|y w]; simpl; try done.
  - by rewrite app_nil_r.
  - replace (Nat.min (length l) (length w) + S (Nat.min (length l) (length w) + 0))%nat
      with (S (2 * Nat.min (length l) (length w))) by lia.
    simpl. apply IH.
Qed.

(** The index loop of the strategy computes the structural alternation. *)
Lemma interleave_alternate (l w : list loc) : interleave l w = alternate l w.
Proof.
  unfold interleave. cbv zeta.
  assert (∀ m k (acc : list loc),
            (k + m = Nat.max (length l) (length w))%nat →
            foldl (λ merged i,
                     let merged := match l !! i with
                                   | Some r => merged ++ [r]
                                   | None => merged
                                   end in
                     match w !! i with
                     | Some r => merged ++ [r]
                     | None => merged
                     end) acc (seq k m)
            = acc ++ alternate (drop k l) (drop k w)) as Hgen.
  { induction m as [|m IH]; intros k acc Hk.
    - simpl. rewrite !drop_ge by lia. by rewrite app_nil_r.
    - simpl. rewrite IH by lia.
      destruct (l !! k) as [x|] eqn:Hl; destruct (w !! k) as [y|] eqn:Hw.
      + rewrite (drop_S l x k Hl), (drop_S w y k Hw). simpl.
        by rewrite <- !app_assoc.
      + rewrite (drop_S l x k Hl).
        apply lookup_ge_None in Hw. rewrite !(drop_ge w) by lia.
        rewrite !alternate_nil_r. by rewrite <- app_assoc.
      + rewrite (drop_S w y k Hw).
        apply lookup_ge_None in Hl. rewrite !(drop_ge l) by lia.
        simpl. by rewrite <- app_assoc.
      + apply lookup_ge_None in Hl. apply lookup_ge_None in Hw. lia. }
  by rewrite (Hgen _ 0%nat []) by lia.
Qed.

(** X20.  The interleaved strategy drops nothing before the truncation:
    its merged list is a rearrangement of all local and web results; as
    long as both lists last, local result [i] stands at position [2i] and
    web result [i] right after it; and once the shorter list is exhausted
    the rest of the longer one follows in its order. *)
Theorem interleave_all (local_results web_results : list loc) :
  interleave local_results web_results ≡ₚ local_results ++ web_results ∧
  (∀ i : nat, (i < length local_results)%nat → (i < length web_results)%nat →
     interleave local_results web_results !! (2 * i)%nat = local_results !! i ∧
     interleave local_results web_results !! (2 * i + 1)%nat = web_results !! i) ∧
  drop (2 * Nat.min (length local_results) (length web_results))
       (interleave local_results web_results)
  = drop (Nat.min (length local_results) (length web_results)) local_results
    ++ drop (Nat.min (length local_results) (length web_results)) web_results.
Proof.
  rewrite interleave_alternate. split; [apply alternate_perm|]. split.
  - intros i. apply alternate_lookup.
  - apply alternate_tail.
Qed.

Lemma reweight_same (u : UnifiedResult) : same_but_score u (reweight u).
Proof. done. Qed.

Lemma reweight_bounds (u : UnifiedResult) :
  (0 <= score u)%Q → (score u <= 1)%Q →
  (score u <= score (reweight u))%Q ∧ (score (reweight u) <= 1)%Q.
Proof.
  intros H0 H1. unfold reweight. cbn [score set_score]. split.
  - apply Q.min_glb; [lra | done].
  - apply Q.le_min_r.
Qed.

(** What the reweighting loop does to any object, however often the object
    is listed. *)
Lemma boost_all_effect (results : list loc) :
  ∀ (h : heap) (r : loc),
    match h !! r, boost_all h results !! r with
    | Some u, Some u' =>
        same_but_score u u' ∧
        ((0 <= score u)%Q → (score u <= 1)%Q →
         (score u <= score u')%Q ∧ (score u' <= 1)%Q)
    | None, None => True
    | _, _ => False
    end.
Proof.
  induction results as [|x l IH]; intros h r.
  - simpl. destruct (h !! r); [|done]. split; [done|]. intros. split; [apply Qle_refl|done].
  - unfold boost_all. simpl. fold (boost_all (boost_at h x) l).
    specialize (IH (boost_at h x) r).
    destruct (decide (x = r)) as [->|Hne].
    + rewrite boost_at_eq in IH. destruct (h !! r) as [u|]; simpl in IH.
      * destruct (boost_all (boost_at h r) l !! r) as [u'|]; [|done].
        destruct IH as [Hsame Hb]. split.
        { destruct Hsame as (?&?&?&?&?). by repeat split. }
        intros H0 H1. destruct (reweight_bounds u H0 H1) as [Hr0 Hr1].
        destruct (Hb ltac:(by apply (Qle_trans _ _ _ H0 Hr0)) Hr1) as [Hb0 Hb1].
        split; [by apply (Qle_trans _ _ _ Hr0 Hb0) | done].
      * done.
    + by rewrite boost_at_ne in IH.
Qed.

(** X21.  Under every strategy, a call changes nothing in the caller's
    objects but scores: no object appears or disappears, every field other
    than the score keeps its value, a score that lay in [0,1] still does
    and has not decreased.  Under a strategy other than ["local_first"] and
    ["web_first"] the objects are not touched at all. *)
Theorem merge_and_rank_frame (h : heap) (local_results web_results : list loc)
    (strategy : string) (max_results : Z) (r : loc) :
  match h !! r,
        (merge_and_rank_results h local_results web_results strategy max_results).1
          !! r with
  | Some u, Some u' =>
      same_but_score u u' ∧
      ((0 <= score u)%Q → (score u <= 1)%Q →
       (score u <= score u')%Q ∧ (score u' <= 1)%Q) ∧
      (strategy ≠ "local_first" → strategy ≠ "web_first" → u' = u)
  | None, None => True
  | _, _ => False
  end.
Proof.
  unfold merge_and_rank_results. repeat case_decide; cbn [fst].
  - pose proof (boost_all_effect local_results h r) as Hb.
    destruct (h !! r), (boost_all h local_results !! r); try done.
    destruct Hb as [Hsame Hbd]. split; [done|]. split; [done|]. intros; congruence.
  - pose proof (boost_all_effect web_results h r) as Hb.
    destruct (h !! r), (boost_all h web_results !! r); try done.
    destruct Hb as [Hsame Hbd]. split; [done|]. split; [done|]. intros; congruence.
  - destruct (h !! r); [|done]. split; [done|]. split; [|done].
    intros. split; [apply Qle_refl | done].
  - destruct (h !! r); [|done]. split; [done|]. split; [|done].
    intros. split; [apply Qle_refl | done].
Qed.

(* ===================================================================== *)
(** * More on scoring and normalization *)
(* ===================================================================== *)

(** The range of the relevance score, for use below. *)
Lemma relevance_score_range (ratio : string → string → Q)
    (query text title : string) :
  (∀ a b, (0 <= ratio a b)%Q ∧ (ratio a b <= 1)%Q) →
  ∃ v, calculate_relevance_score ratio query text title = Some v ∧
       (0 <= v)%Q ∧ (v <= 1)%Q.
Proof.
  intros Hratio.
  destruct (relevance_score_total ratio query text title) as [v Hv].
  exists v. split; [done|]. revert Hv.
  unfold calculate_relevance_score. cbv zeta.
  set (query_lower := PyStr.strip (PyStr.lower query)).
  set (text_lower := PyStr.strip (PyStr.lower text)).
  set (title_lower := PyStr.strip (PyStr.lower title)).
  set (combined := title_lower +:+ " " +:+ text_lower).
  destruct (PyStr.contains query_lower title_lower).
  { intros [= <-]. split; discriminate. }
  destruct (PyStr.contains query_lower text_lower).
  { intros [= <-]. split; discriminate. }
  set (query_terms := list_to_set (PyStr.split query_lower) : gset string).
  set (combined_terms := list_to_set (PyStr.split combined) : gset string).
  destruct (py_div _ _) as [tf|] eqn:Htf; [|done].
  cbn [mbind option_bind]. intros Hv. apply (inj Some) in Hv. rewrite <- Hv.
  split; [|apply cap1_le]. apply cap1_nonneg.
  assert (0 <= tf)%Q as Htf0.
  { unfold py_div in Htf.
    destruct (Z.of_nat (size query_terms) * 3) as [|p|p] eqn:Hp; [done| |lia].
    injection Htf as <-. unfold Qle. simpl. lia. }
  assert (0 <= (if (0 <? size query_terms)%nat
                then Z.of_nat (size (query_terms ∩ combined_terms))
                       # Pos.of_nat (size query_terms)
                else 0))%Q as Hc0.
  { destruct (0 <? size query_terms)%nat; [|apply Qle_refl]. unfold Qle. simpl. lia. }
  destruct (Hratio query_lower (PyStr.prefix_to 1000 combined)) as [Hr0 _].
  pose proof (cap1_nonneg tf Htf0) as Ht0.
  lra.
Qed.

Lemma prefix_to_length (k : nat) (s : string) :
  (String.length (PyStr.prefix_to k s) ≤ k)%nat.
Proof.
  revert s. induction k as [|k IH]; intros [|c s]; simpl; try lia.
  specialize (IH s). lia.
Qed.

Lemma prefix_to_prefix (k : nat) (s : string) :
  String.prefix (PyStr.prefix_to k s) s = true.
Proof.
  revert s. induction k as [|k IH]; intros [|c s]; simpl; try done.
  destruct (ascii_dec c c); [apply IH | done].
Qed.

(** X22.  [normalize_local_results] raises exactly when some hit has no
    usable [text] and [None] under [content], or has [None] under [meta]
    while its [path] or its [file_type] is missing.  Otherwise every hit
    becomes one result, in order, and the result has source ["local"], a
    score between 0 and 1, as content a prefix of at most 500 characters of
    the hit's text, the full text under [metadata["full_text"]], and a
    [file://] link exactly when the hit has a path. *)
Theorem normalize_local_results_shape (ratio : string → string → Q)
    (hits : list Hit) (query : string) :
  (∀ a b, (0 <= ratio a b)%Q ∧ (ratio a b <= 1)%Q) →
  (normalize_local_results ratio hits query = None ↔
   Exists (λ hit,
     hit_body hit = None
     ∨ (hit_meta hit = Some None ∧
        (truthy_str (hit_path hit) = None ∨ truthy_str (hit_file_type hit) = None)))
     hits) ∧
  (Forall (λ hit, is_Some (hit_body hit) ∧ hit_meta hit ≠ Some None) hits →
   is_Some (normalize_local_results ratio hits query)) ∧
  ∀ results,
    normalize_local_results ratio hits query = Some results →
    Forall2 (λ hit u,
      source u = "local" ∧
      (0 <= score u)%Q ∧ (score u <= 1)%Q ∧
      (String.length (content u) ≤ 500)%nat ∧
      (∃ text, hit_body hit = Some text ∧
               String.prefix (content u) text = true ∧
               metadata u !! "full_text" = Some (PyStr text)) ∧
      url u = (if decide (hit_file_path hit = "") then None
               else Some ("file://" +:+ hit_file_path hit)))
      hits results.
Proof.
  intros Hratio.
  assert (normalize_local_results ratio hits query = None ↔
          Exists (λ hit,
            hit_body hit = None
            ∨ (hit_meta hit = Some None ∧
               (truthy_str (hit_path hit) = None
                ∨ truthy_str (hit_file_type hit) = None))) hits) as Hnone.
  { unfold normalize_local_results. rewrite mapM_None.
    split; intros H; eapply Exists_impl; try exact H; intros hit Hhit;
      cbv beta in *; by apply (normalize_local_hit_None ratio query hit). }
  split; [exact Hnone|]. split.
  { intros Hall.
    destruct (normalize_local_results ratio hits query) as [results|] eqn:Hrun;
      [done|].
    destruct (proj1 (Exists_exists _ _) (proj1 Hnone eq_refl)) as (hit & Hin & Hbad).
    rewrite Forall_forall in Hall. destruct (Hall hit Hin) as [[text Hbody] Hmeta].
    destruct Hbad as [Hb|[Hm _]]; congruence. }
  intros results Hrun. unfold normalize_local_results in Hrun.
  apply mapM_Some in Hrun. eapply Forall2_impl; [exact Hrun|].
  intros hit u Hu. cbv beta in Hu.
  unfold normalize_local_hit in Hu. cbv zeta in Hu.
  destruct (hit_path_value hit) as [pv|]; cbn [mbind option_bind] in Hu; [|done].
  destruct (hit_body hit) as [text|] eqn:Hbody; cbn [mbind option_bind] in Hu;
    [|done].
  destruct (relevance_score_range ratio query text (hit_file_name hit) Hratio)
    as (v & Hv & Hv0 & Hv1).
  rewrite Hv in Hu. cbn [mbind option_bind] in Hu.
  destruct (hit_file_type_value hit) as [ft|]; cbn [mbind option_bind] in Hu;
    [|done].
  apply (inj Some) in Hu. rewrite <- Hu.
  cbn [source score content url metadata].
  split; [done|]. split.
  { apply cap1_nonneg. destruct (boosted hit); lra. }
  split; [apply cap1_le|]. split; [apply prefix_to_length|].
  split; [|done].
  exists text. split; [done|]. split; [apply prefix_to_prefix | by simplify_map_eq].
Qed.

Lemma normalize_local_results_shape_witness :
  ∃ results,
    normalize_local_results exact_ratio [near_hit] "hello" = Some results ∧
    Forall (λ u, (0 <= score u)%Q ∧ (score u <= 1)%Q) results.
Proof.
  destruct (normalize_local_results_shape exact_ratio [near_hit] "hello")
    as (_ & Hsome & Hall).
  - intros a b. unfold exact_ratio. destruct (decide (a = b)); split; discriminate.
  - destruct Hsome as [results Hrun].
    + constructor; [|constructor]. split; [by eexists | discriminate].
    + exists results. split; [exact Hrun|].
      specialize (Hall results Hrun). clear Hrun.
      induction Hall as [|hit u hits results (_ & H0 & H1 & _) _ IH]; constructor.
      * by split.
      * exact IH.
Defined.

(* ===================================================================== *)
(** * Web normalization *)
(* ===================================================================== *)

Lemma inject_nat_nonneg (n : nat) : (0 <= inject_Z (Z.of_nat n))%Q.
Proof. unfold Qle. simpl. lia. Qed.

Lemma position_score_bounds (idx : nat) :
  (1 # 2 <= position_score idx)%Q ∧ (position_score idx <= 1)%Q.
Proof.
  unfold position_score. split; [apply Q.le_max_l|].
  apply Q.max_lub; [done|]. pose proof (inject_nat_nonneg idx). lra.
Qed.

Lemma position_score_anti (i j : nat) :
  (i ≤ j)%nat → (position_score j <= position_score i)%Q.
Proof.
  intros Hij. unfold position_score. apply Q.max_le_compat_l.
  assert (inject_Z (Z.of_nat i) <= inject_Z (Z.of_nat j))%Q.
  { unfold Qle. simpl. lia. }
  lra.
Qed.

Lemma position_score_floor (i : nat) :
  (7 ≤ i)%nat → (position_score i == 1 # 2)%Q.
Proof.
  intros Hi. unfold position_score. apply Q.max_l.
  assert (7 <= inject_Z (Z.of_nat i))%Q.
  { unfold Qle. simpl. lia. }
  lra.
Qed.

(** One entry is converted exactly when it has a body and a title. *)
Lemma normalize_web_hit_Some (ratio : string → string → Q) (query : string)
    (idx : nat) (r : RawWeb) (snippet ttl : string) :
  raw_body r = Some snippet → raw_title r = Some ttl →
  ∃ v u,
    calculate_relevance_score ratio query snippet ttl = Some v ∧
    normalize_web_hit ratio query idx r = Some u ∧
    source u = "web" ∧ title u = ttl ∧
    content u = PyStr.prefix_to 500 snippet ∧ url u = raw_url r ∧
    score u = (position_score idx * (4 # 10) + v * (6 # 10))%Q ∧
    metadata u !! "position" = Some (PyNum (inject_Z (Z.of_nat idx + 1))) ∧
    metadata u !! "search_engine" = Some (opt_val (raw_source r)).
Proof.
  intros Hb Ht.
  destruct (relevance_score_total ratio query snippet ttl) as [v Hv].
  exists v. unfold normalize_web_hit. rewrite Hb, Ht. cbn [mbind option_bind].
  rewrite Hv. cbn [mbind option_bind]. eexists. split; [done|]. split; [done|].
  cbn [source title content url score metadata].
  repeat split; by simplify_map_eq.
Qed.

Lemma normalize_web_hit_None (ratio : string → string → Q) (query : string)
    (idx : nat) (r : RawWeb) :
  normalize_web_hit ratio query idx r = None ↔
  raw_body r = None ∨ raw_title r = None.
Proof.
  destruct (raw_body r) as [snippet|] eqn:Hb, (raw_title r) as [ttl|] eqn:Ht.
  - destruct (normalize_web_hit_Some ratio query idx r snippet ttl Hb Ht)
      as (v & u & _ & -> & _).
    split; [done | by intros [?|?]].
  - unfold normalize_web_hit. rewrite Hb, Ht. cbn [mbind option_bind]. tauto.
  - unfold normalize_web_hit. rewrite Hb. cbn [mbind option_bind]. tauto.
  - unfold normalize_web_hit. rewrite Hb. cbn [mbind option_bind]. tauto.
Qed.

Lemma normalize_web_from_None (ratio : string → string → Q) (query : string)
    (results : list RawWeb) (idx : nat) :
  normalize_web_from ratio query idx results = None ↔
  Exists (λ r, raw_body r = None ∨ raw_title r = None) results.
Proof.
  revert idx. induction results as [|r results IH]; intros idx.
  - split; [done | by intros ?%Exists_nil].
  - rewrite Exists_cons, <- (IH (S idx)), <- (normalize_web_hit_None ratio query idx r).
    cbn [normalize_web_from].
    destruct (normalize_web_hit ratio query idx r); cbn [mbind option_bind].
    + destruct (normalize_web_from ratio query (S idx) results);
        cbn [mbind option_bind]; (split; [|by intros [?|?]]); [done | by right].
    + split; [by left | done].
Qed.

Lemma normalize_web_from_lookup (ratio : string → string → Q) (query : string)
    (results : list RawWeb) (idx : nat) (us : list UnifiedResult) :
  normalize_web_from ratio query idx results = Some us →
  length us = length results ∧
  ∀ (k : nat) r, results !! k = Some r →
    ∃ u, us !! k = Some u ∧ normalize_web_hit ratio query (idx + k) r = Some u.
Proof.
  revert idx us. induction results as [|r results IH]; intros idx us.
  - intros [= <-]. split; [done|]. intros k r Hk. by rewrite lookup_nil in Hk.
  - cbn [normalize_web_from].
    destruct (normalize_web_hit ratio query idx r) as [u|] eqn:Hu;
      cbn [mbind option_bind]; [|done].
    destruct (normalize_web_from ratio query (S idx) results) as [us'|] eqn:Hus;
      cbn [mbind option_bind]; [|done].
    intros [= <-]. destruct (IH _ _ Hus) as [Hlen Hall].
    split; [by rewrite !length_cons, Hlen|].
    intros [|k] r' Hk.
    + injection Hk as <-. exists u. by rewrite Nat.add_0_r.
    + destruct (Hall k r' Hk) as (u' & Hk' & Hu').
      exists u'. split; [done|]. by rewrite <- Nat.add_succ_comm.
Qed.

(** X23.  [normalize_web_results] raises exactly when some entry holds
    [None] as its title, or has no usable snippet and [None] under
    [text]; otherwise it returns one result per entry. *)
Theorem normalize_web_results_raises (ratio : string → string → Q)
    (results : list RawWeb) (query : string) :
  (normalize_web_results ratio results query = None ↔
   Exists (λ r, raw_body r = None ∨ raw_title r = None) results) ∧
  (∀ us, normalize_web_results ratio results query = Some us →
         length us = length results).
Proof.
  split; [apply normalize_web_from_None|].
  intros us Hus. by apply normalize_web_from_lookup in Hus as [? _].
Qed.

(** X24.  When every entry has a title and a body, the entry at rank [k]
    becomes a result with source ["web"], the entry's title and link,
    position [k + 1], and a score that is 0.4 times the position score of
    the rank plus at most 0.6: between 0.2 and 1. *)
Theorem normalize_web_results_shape (ratio : string → string → Q)
    (results : list RawWeb) (query : string) :
  (∀ a b, (0 <= ratio a b)%Q ∧ (ratio a b <= 1)%Q) →
  Forall (λ r, is_Some (raw_body r) ∧ is_Some (raw_title r)) results →
  ∃ us,
    normalize_web_results ratio results query = Some us ∧
    ∀ (k : nat) r, results !! k = Some r →
      ∃ u, us !! k = Some u ∧
           source u = "web" ∧ raw_title r = Some (title u) ∧ url u = raw_url r ∧
           metadata u !! "position" = Some (PyNum (inject_Z (Z.of_nat k + 1))) ∧
           (position_score k * (4 # 10) <= score u)%Q ∧
           (score u <= position_score k * (4 # 10) + (6 # 10))%Q ∧
           (1 # 5 <= score u)%Q ∧ (score u <= 1)%Q.
Proof.
  intros Hratio Hall.
  destruct (normalize_web_results ratio results query) as [us|] eqn:Hus.
  - exists us. split; [done|]. intros k r Hk.
    destruct (normalize_web_from_lookup _ _ _ _ _ Hus) as [_ Hlook].
    destruct (Hlook k r Hk) as (u & Hu & Hhit). exists u. split; [done|].
    rewrite Forall_lookup in Hall.
    destruct (Hall k r Hk) as [[snippet Hb] [ttl Ht]].
    destruct (normalize_web_hit_Some ratio query (0 + k) r snippet ttl Hb Ht)
      as (v & u' & Hv & Hhit' & Hsrc & Htt & _ & Hurl & Hsc & Hpos & _).
    rewrite Hhit in Hhit'. injection Hhit' as <-.
    destruct (relevance_score_range ratio query snippet ttl Hratio)
      as (v' & Hv' & Hv0 & Hv1).
    rewrite Hv in Hv'. injection Hv' as <-.
    destruct (position_score_bounds k) as [Hp0 Hp1].
    rewrite Nat.add_0_l in *.
    split; [done|]. split; [by rewrite Ht, Htt|]. split; [done|]. split; [done|].
    rewrite Hsc. repeat split; lra.
  - apply normalize_web_from_None in Hus.
    apply Exists_exists in Hus as (r & Hr & Hnone).
    rewrite Forall_forall in Hall. destruct (Hall r Hr) as [[? Hb] [? Ht]].
    destruct Hnone; congruence.
Qed.

Lemma normalize_web_results_shape_witness :
  ∃ us u,
    normalize_web_results exact_ratio [serper_entry] "hello" = Some us ∧
    us !! 0%nat = Some u ∧
    (1 # 5 <= score u)%Q ∧ (score u <= 1)%Q.
Proof.
  destruct (normalize_web_results_shape exact_ratio [serper_entry] "hello")
    as (us & Hus & Hall).
  - intros a b. unfold exact_ratio. destruct (decide (a = b)); split; discriminate.
  - constructor; [|constructor]. split; eexists; reflexivity.
  - destruct (Hall 0%nat serper_entry eq_refl)
      as (u & Hu & _ & _ & _ & _ & _ & _ & H0 & H1).
    exists us, u. split; [exact Hus|]. split; [exact Hu|]. split; [exact H0 | exact H1].
Defined.

(** X25.  Rank only lowers a web score: when one entry stands at two ranks
    of a list, the later result scores no more than the earlier, and from
    the eighth rank on the two scores are equal. *)
Theorem normalize_web_results_rank (ratio : string → string → Q)
    (results : list RawWeb) (query : string) (us : list UnifiedResult)
    (i j : nat) (r : RawWeb) (u u' : UnifiedResult) :
  normalize_web_results ratio results query = Some us →
  (i ≤ j)%nat →
  results !! i = Some r → results !! j = Some r →
  us !! i = Some u → us !! j = Some u' →
  (score u' <= score u)%Q ∧
  ((7 ≤ i)%nat → (score u' == score u)%Q).
Proof.
  intros Hus Hij Hri Hrj Hui Huj.
  destruct (normalize_web_from_lookup _ _ _ _ _ Hus) as [_ Hlook].
  destruct (Hlook i r Hri) as (u1 & Hu1 & Hhit1).
  destruct (Hlook j r Hrj) as (u2 & Hu2 & Hhit2).
  rewrite Hui in Hu1. injection Hu1 as <-.
  rewrite Huj in Hu2. injection Hu2 as <-.
  rewrite Nat.add_0_l in *.
  destruct (raw_body r) as [snippet|] eqn:Hb;
    [|by rewrite (proj2 (normalize_web_hit_None ratio query i r)) in Hhit1; [|left]].
  destruct (raw_title r) as [ttl|] eqn:Ht;
    [|by rewrite (proj2 (normalize_web_hit_None ratio query i r)) in Hhit1; [|right]].
  destruct (normalize_web_hit_Some ratio query i r snippet ttl Hb Ht)
    as (v & u1 & Hv & Hh1 & _ & _ & _ & _ & Hs1 & _).
  destruct (normalize_web_hit_Some ratio query j r snippet ttl Hb Ht)
    as (v' & u2 & Hv' & Hh2 & _ & _ & _ & _ & Hs2 & _).
  rewrite Hv in Hv'. injection Hv' as <-.
  rewrite Hhit1 in Hh1. injection Hh1 as <-.
  rewrite Hhit2 in Hh2. injection Hh2 as <-.
  rewrite Hs1, Hs2.
  pose proof (position_score_anti i j Hij) as Hanti.
  destruct (position_score_bounds i) as [Hi0 Hi1].
  destruct (position_score_bounds j) as [Hj0 Hj1].
  split; [lra|].
  intros H7. rewrite (position_score_floor i H7), (position_score_floor j); [lra | lia].
Qed.

Lemma normalize_web_results_rank_witness :
  ∃ us u u',
    normalize_web_results exact_ratio (replicate 9 serper_entry) "hello" = Some us ∧
    us !! 7%nat = Some u ∧ us !! 8%nat = Some u' ∧
    (score u' <= score u)%Q ∧ (score u' == score u)%Q.
Proof.
  destruct (normalize_web_results exact_ratio (replicate 9 serper_entry) "hello")
    as [us|] eqn:Hus; [|by vm_compute in Hus].
  destruct (normalize_web_from_lookup _ _ _ _ _ Hus) as [_ Hlook].
  destruct (Hlook 7%nat serper_entry eq_refl) as (u & Hu & _).
  destruct (Hlook 8%nat serper_entry eq_refl) as (u' & Hu' & _).
  exists us, u, u'. split; [reflexivity|]. split; [exact Hu|]. split; [exact Hu'|].
  destruct (normalize_web_results_rank exact_ratio (replicate 9 serper_entry)
              "hello" us 7 8 serper_entry u u' Hus
              (le_S _ _ (le_n _)) eq_refl eq_refl Hu Hu') as [Hle Heq].
  split; [exact Hle | exact (Heq (le_n _))].
Defined.

Lemma exa_result_raises (include_text : bool) (it : ExaItem) :
  raw_body (exa_result include_text it) = None
  ∨ raw_title (exa_result include_text it) = None ↔
  exa_title it = None
  ∨ (truthy_str (exa_text it) = None ∧ truthy_str (exa_description it) = None ∧
     (include_text = false ∨ exa_text it = None)).
Proof.
  unfold raw_body, exa_result, truthy_str. cbn [raw_snippet raw_text raw_title].
  destruct (exa_title it), (exa_text it) as [t|], (exa_description it) as [d|],
    include_text; repeat case_decide; cbn [default]; naive_solver.
Qed.

Lemma serper_result_raises (it : SerperItem) :
  raw_body (serper_result it) = None ∨ raw_title (serper_result it) = None ↔
  serper_title it = None.
Proof.
  unfold raw_body, serper_result. cbn [raw_snippet raw_text raw_title].
  destruct (serper_title it), (serper_snippet it); repeat case_decide;
    cbn [default]; naive_solver.
Qed.

(** X26.  What the two providers hand over, normalized.  Serper entries
    make [normalize_web_results] raise only through an item without
    title.  Exa entries do so also through an item that has neither text
    nor description: always when the text was not asked for, and when it
    was, if the item has no [text] at all. *)
Theorem provider_results_raise (ratio : string → string → Q) (query : string)
    (include_text : bool) (exa_items : list ExaItem)
    (serper_items : list SerperItem) :
  (normalize_web_results ratio (exa_result include_text <$> exa_items) query = None ↔
   Exists (λ it, exa_title it = None
                 ∨ (truthy_str (exa_text it) = None ∧
                    truthy_str (exa_description it) = None ∧
                    (include_text = false ∨ exa_text it = None))) exa_items) ∧
  (normalize_web_results ratio (serper_result <$> serper_items) query = None ↔
   Exists (λ it, serper_title it = None) serper_items).
Proof.
  unfold normalize_web_results. rewrite !normalize_web_from_None, !Exists_fmap.
  split; split; intros H; eapply Exists_impl; try exact H; cbn [compose];
    intros it Hit.
  - by apply exa_result_raises.
  - by apply exa_result_raises.
  - by apply serper_result_raises.
  - by apply serper_result_raises.
Qed.

(* ===================================================================== *)
(** * The query graph *)
(* ===================================================================== *)

Lemma get_or_some_absent (text : string) : get_or (Some text) None = Some text.
Proof. unfold get_or. case_decide; [by subst | done]. Qed.

Lemma make_hit_fields (metas : list HitMeta) (dists : list Q) (ids : list string)
    (i : nat) (text : string) :
  let hit := (make_hit metas dists ids i text).2 in
  (make_hit metas dists ids i text).1 = ids !! i ∧
  hit_body hit = Some text ∧
  original_score hit = dists !! i ∧
  hit_file_path hit
  = (let meta := default (mkHitMeta None None None None) (metas !! i) in
     match truthy_str (default None (hm_path meta)), truthy_str (hm_source meta) with
     | Some p, _ => p
     | None, Some src => src
     | None, None => ""
     end).
Proof.
  cbv zeta.
  unfold make_hit, hit_body, hit_file_path, hit_path_value, hit_meta_dict,
    original_score.
  cbn [fst snd hit_text hit_content hit_path hit_meta hit_score default
       from_option id].
  split; [done|]. split; [apply get_or_some_absent|]. split; [done|].
  destruct (metas !! i) as [meta|];
    cbn [default from_option id hm_path hm_source truthy_str mbind option_bind];
    [|done].
  unfold truthy_str.
  destruct (hm_path meta) as [[p|]|], (hm_source meta) as [src|];
    cbn [default from_option id mbind option_bind]; repeat case_decide;
    cbn [default from_option id mbind option_bind]; congruence.
Qed.

(** X27.  With a query that is not blank, an API key, an embedding for the
    query and an answer of the store, [retrieve] returns one hit per
    returned document, in order: hit [i] carries id [i] (or none when the
    id list is shorter), document [i] as its text, distance [i] as its
    score, and as its path the [path] of metadata [i], else its [source],
    else nothing.  The store is asked for [top_k] results, 10 when the
    state has none, under the state's filters. *)
Theorem retrieve_hits (openai_api_key : option string)
    (provider : list string → option (list (list Q)))
    (query_store : list Q → Z → option (gmap string PyVal) → option StoreAnswer)
    (s : QueryState) (vecs : list (list Q)) (qvec : list Q) (res : StoreAnswer) :
  PyStr.strip (default "" (qs_query s)) ≠ "" →
  default "" openai_api_key ≠ "" →
  provider [default "" (qs_query s)] = Some vecs →
  head vecs = Some qvec →
  query_store qvec (query_top_k s) (where_filter s) = Some res →
  ∃ hits,
    retrieve openai_api_key provider query_store s = Some hits ∧
    length hits = length (first_or_nil (ans_documents res)) ∧
    ∀ (i : nat) doc, first_or_nil (ans_documents res) !! i = Some doc →
      ∃ hit,
        hits !! i = Some (first_or_nil (ans_ids res) !! i, hit) ∧
        hit_body hit = Some doc ∧
        original_score hit = first_or_nil (ans_distances res) !! i ∧
        hit_file_path hit
        = (let meta := default (mkHitMeta None None None None)
                         (first_or_nil (ans_metadatas res) !! i) in
           match truthy_str (default None (hm_path meta)), truthy_str (hm_source meta) with
           | Some p, _ => p
           | None, Some src => src
           | None, None => ""
           end).
Proof.
  intros Hq Hkey Hprov Hhead Hstore.
  unfold retrieve. cbv zeta. rewrite decide_False by done.
  rewrite decide_False by done. cbn [embed_texts]. rewrite Hprov.
  cbn [mbind option_bind]. rewrite Hhead. cbn [mbind option_bind].
  rewrite Hstore. cbn [mbind option_bind].
  eexists. split; [done|]. split; [by rewrite length_imap|].
  intros i doc Hdoc. rewrite list_lookup_imap, Hdoc. cbn [fmap option_fmap option_map].
  set (hit := make_hit _ _ _ i doc).
  exists hit.2.
  destruct (make_hit_fields (first_or_nil (ans_metadatas res))
              (first_or_nil (ans_distances res)) (first_or_nil (ans_ids res)) i doc)
    as (Hid & Hbody & Hscore & Hpath).
  fold hit in Hid, Hbody, Hscore, Hpath.
  split; [by rewrite <- Hid; destruct hit|]. done.
Qed.

Lemma retrieve_hits_witness :
  ∃ hits id hit,
    retrieve (Some "sk-test") (λ texts, Some ((λ _, [1%Q]) <$> texts)) one_doc_store
      hello_query = Some hits ∧
    hits !! 0%nat = Some (id, hit) ∧
    hit_body hit = Some "hello world".
Proof.
  destruct (retrieve_hits (Some "sk-test") (λ texts, Some ((λ _, [1%Q]) <$> texts))
              one_doc_store hello_query [[1%Q]] [1%Q]
              (mkStoreAnswer [["hello world"]]
                 [[mkHitMeta (Some (Some "/a/b.txt")) None None None]] [[1 # 10]] [["ab12:0"]]))
    as (hits & Hrun & _ & Hall).
  - vm_compute. discriminate.
  - discriminate.
  - reflexivity.
  - reflexivity.
  - reflexivity.
  - destruct (Hall 0%nat "hello world" eq_refl) as (hit & Hhit & Hbody & _).
    exists hits, (Some "ab12:0"), hit. split; [exact Hrun|]. split; [exact Hhit | exact Hbody].
Defined.

(** X28.  The guards and defaults of [retrieve]: for a blank or missing
    query it returns no hits without a key, an embedding or the store; for
    any other query it raises when the API key is not set; a [top_k] of 0
    or none at all is a [top_k] of 10; and an empty filter dict is no
    filter. *)
Theorem retrieve_guards (openai_api_key : option string)
    (provider : list string → option (list (list Q)))
    (query_store : list Q → Z → option (gmap string PyVal) → option StoreAnswer)
    (s : QueryState) :
  (PyStr.strip (default "" (qs_query s)) = "" →
   retrieve openai_api_key provider query_store s = Some []) ∧
  (PyStr.strip (default "" (qs_query s)) ≠ "" → default "" openai_api_key = "" →
   retrieve openai_api_key provider query_store s = None) ∧
  (∀ k, k = None ∨ k = Some 0 →
     retrieve openai_api_key provider query_store
       (mkQueryState (qs_query s) k (qs_filters s) (qs_model s))
     = retrieve openai_api_key provider query_store
         (mkQueryState (qs_query s) (Some 10) (qs_filters s) (qs_model s))) ∧
  retrieve openai_api_key provider query_store
    (mkQueryState (qs_query s) (qs_top_k s) (Some ∅) (qs_model s))
  = retrieve openai_api_key provider query_store
      (mkQueryState (qs_query s) (qs_top_k s) None (qs_model s)).
Proof.
  split; [|split; [|split]].
  - intros Hq. unfold retrieve. cbv zeta. by rewrite decide_True.
  - intros Hq Hkey. unfold retrieve. cbv zeta.
    rewrite decide_False by done. by rewrite decide_True.
  - by intros k [->| ->].
  - done.
Qed.

(* ===================================================================== *)
(** * Case and surrounding white space in scoring *)
(* ===================================================================== *)

Lemma lower_char_idemp (c : ascii) :
  PyStr.lower_char (PyStr.lower_char c) = PyStr.lower_char c.
Proof. destruct c as [[] [] [] [] [] [] [] []]; vm_compute; reflexivity. Qed.

Lemma is_space_lower_char (c : ascii) :
  PyStr.is_space (PyStr.lower_char c) = PyStr.is_space c.
Proof. destruct c as [[] [] [] [] [] [] [] []]; vm_compute; reflexivity. Qed.

Lemma lower_idemp (s : string) : PyStr.lower (PyStr.lower s) = PyStr.lower s.
Proof.
  induction s as [|c s IH]; [done|].
  cbn [PyStr.lower]. by rewrite lower_char_idemp, IH.
Qed.

Lemma lstrip_lower (s : string) :
  PyStr.lstrip (PyStr.lower s) = PyStr.lower (PyStr.lstrip s).
Proof.
  induction s as [|c s IH]; [done|].
  cbn [PyStr.lower PyStr.lstrip]. rewrite is_space_lower_char.
  by destruct (PyStr.is_space c).
Qed.

Lemma rstrip_lower (s : string) :
  PyStr.rstrip (PyStr.lower s) = PyStr.lower (PyStr.rstrip s).
Proof.
  induction s as [|c s IH]; [done|].
  cbn [PyStr.lower PyStr.rstrip]. rewrite IH, is_space_lower_char.
  destruct (PyStr.rstrip s); cbn [PyStr.lower]; [|done].
  by destruct (PyStr.is_space c).
Qed.

Lemma strip_lower (s : string) :
  PyStr.strip (PyStr.lower s) = PyStr.lower (PyStr.strip s).
Proof. unfold PyStr.strip. by rewrite lstrip_lower, rstrip_lower. Qed.

Lemma rstrip_idemp (s : string) : PyStr.rstrip (PyStr.rstrip s) = PyStr.rstrip s.
Proof.
  induction s as [|c s IH]; [done|].
  cbn [PyStr.rstrip]. destruct (PyStr.rstrip s) as [|c' r] eqn:Hr.
  - destruct (PyStr.is_space c) eqn:Hc; [done|].
    cbn [PyStr.rstrip]. by rewrite Hc.
  - cbn [PyStr.rstrip] in *. by rewrite IH.
Qed.

Lemma strip_idemp (s : string) : PyStr.strip (PyStr.strip s) = PyStr.strip s.
Proof.
  unfold PyStr.strip. destruct (lstrip_head s) as [->|(c & r & -> & Hc)]; [done|].
  destruct (rstrip_head c r Hc) as [r' Hr']. rewrite Hr'.
  cbn [PyStr.lstrip]. rewrite Hc, <- Hr'. apply rstrip_idemp.
Qed.

(** X29.  The score reads its three strings only through
    [.lower().strip()]: lowering them beforehand, or stripping them,
    changes nothing.  A query that is blank once stripped is found in every
    title, so that every document scores 1.0 against it. *)
Theorem relevance_score_normalizes (ratio : string → string → Q)
    (query text title : string) :
  calculate_relevance_score ratio (PyStr.lower query) (PyStr.lower text)
    (PyStr.lower title)
  = calculate_relevance_score ratio query text title ∧
  calculate_relevance_score ratio (PyStr.strip query) (PyStr.strip text)
    (PyStr.strip title)
  = calculate_relevance_score ratio query text title ∧
  (PyStr.strip query = "" →
   calculate_relevance_score ratio query text title = Some 1%Q).
Proof.
  split; [|split].
  - unfold calculate_relevance_score. by rewrite !lower_idemp.
  - unfold calculate_relevance_score.
    by rewrite <- !strip_lower, !strip_idemp, !strip_lower.
  - intros Hq. unfold calculate_relevance_score. cbv zeta.
    by rewrite (strip_lower query), Hq, contains_empty.
Qed.

(* ===================================================================== *)
(** * More on the web search endpoint *)
(* ===================================================================== *)

Lemma try_engines_cases (exa serper : outcome) (engines : list string) :
  try_engines exa serper engines = []
  ∨ exa = Returned (try_engines exa serper engines)
  ∨ serper = Returned (try_engines exa serper engines).
Proof.
  induction engines as [|eng rest IH]; [by left|].
  cbn [try_engines]. repeat case_decide.
  - destruct exa; [done | by right; left].
  - destruct serper; [done | by right; right].
  - by left.
Qed.

Lemma try_engines_head (exa serper : outcome) (engines : list string) :
  try_engines exa serper engines ≠ [] →
  ∃ e, head engines = Some e ∧ (e = "exa" ∨ e = "serper").
Proof.
  destruct engines as [|eng rest]; [done|].
  cbn [try_engines]. intros Hne. exists eng. split; [done|].
  repeat case_decide; [by left | by right | done].
Qed.

(** Engines that raise are passed over. *)
Lemma try_engines_skip (exa serper : outcome) (pre rest : list string) :
  Forall (λ e, (e = "exa" ∧ ∃ msg, exa = Raised msg)
               ∨ (e = "serper" ∧ ∃ msg, serper = Raised msg)) pre →
  try_engines exa serper (pre ++ rest) = try_engines exa serper rest.
Proof.
  induction 1 as [|e pre He _ IH]; [done|].
  cbn [app try_engines].
  destruct He as [[-> [msg ->]]|[-> [msg ->]]]; repeat case_decide; try done.
Qed.

(** X30.  The answers of [web_search].  A [top_n] outside 1..10 is refused
    with status 422 before anything else; within the bounds, a query that
    is blank once stripped is refused with status 400, whatever the
    engines.  Otherwise the response echoes the stripped query, and its
    results are empty or exactly what one of the two providers returned;
    [engine] is null when they are empty and else the first name of the
    engine list, which is then ["exa"] or ["serper"].  The providers are
    tried in the order of the list: those that raise are passed over, the
    first that returns gives the results, and a name that is neither
    ["exa"] nor ["serper"] ends the search with no results, whatever
    follows it. *)
Theorem web_search_response
    (_exa_search : string → Z → bool → outcome)
    (_serper_search : string → Z → outcome)
    (engine : string) (q query : option string) (data : bool) (top_n : Z) :
  let qtxt := PyStr.strip (str_or q query) in
  let exa := _exa_search qtxt top_n data in
  let serper := _serper_search qtxt top_n in
  match web_search _exa_search _serper_search engine q query data top_n with
  | inl code =>
      (code = 422 ∧ ¬ (1 ≤ top_n ≤ 10))
      ∨ (code = 400 ∧ 1 ≤ top_n ≤ 10 ∧ qtxt = "")
  | inr resp =>
      1 ≤ top_n ≤ 10 ∧
      qtxt ≠ "" ∧
      resp !! "q" = Some (JStr qtxt) ∧
      resp !! "results" = Some (JResults (try_engines exa serper (parse_engines engine))) ∧
      match try_engines exa serper (parse_engines engine) with
      | [] => resp !! "engine" = Some JNull
      | results =>
          (exa = Returned results ∨ serper = Returned results) ∧
          ∃ e, head (parse_engines engine) = Some e ∧ (e = "exa" ∨ e = "serper") ∧
               resp !! "engine" = Some (JStr e)
      end
  end ∧
  ∀ pre eng post,
    Forall (λ e, (e = "exa" ∧ ∃ msg, exa = Raised msg)
                 ∨ (e = "serper" ∧ ∃ msg, serper = Raised msg)) pre →
    (∀ results, eng = "exa" → exa = Returned results →
       try_engines exa serper (pre ++ eng :: post) = results) ∧
    (∀ results, eng = "serper" → serper = Returned results →
       try_engines exa serper (pre ++ eng :: post) = results) ∧
    (eng ≠ "exa" → eng ≠ "serper" →
       try_engines exa serper (pre ++ eng :: post) = []).
Proof.
  cbv zeta. split.
  - unfold web_search. cbv zeta.
    destruct (Z.leb_spec 1 top_n) as [Hlo|Hlo]; cbn [andb negb];
      [|left; split; [done | lia]].
    destruct (Z.leb_spec top_n 10) as [Hhi|Hhi]; cbn [negb];
      [|left; split; [done | lia]].
    case_decide as Hq; [by right|].
    split; [done|]. split; [done|].
    split; [by simplify_map_eq|]. split; [by simplify_map_eq|].
    set (exa := _exa_search _ _ _). set (serper := _serper_search _ _).
    destruct (try_engines_cases exa serper (parse_engines engine)) as [Hnil|Hret].
    + rewrite Hnil. by simplify_map_eq.
    + pose proof (try_engines_head exa serper (parse_engines engine)) as Hhead.
      destruct (try_engines exa serper (parse_engines engine)) as [|r results];
        [by simplify_map_eq|].
      split; [done|]. destruct (Hhead ltac:(done)) as (e & He & Hknown).
      exists e. split; [done|]. split; [done|]. rewrite He. by simplify_map_eq.
  - intros pre eng post Hpre. rewrite (try_engines_skip _ _ pre (eng :: post) Hpre).
    cbn [try_engines]. split; [|split].
    + intros results -> ->. by rewrite decide_True.
    + intros results -> ->. by rewrite decide_False, decide_True.
    + intros H1 H2. by rewrite !decide_False.
Qed.
